(** * gpucachesim reference simulator: a shallow embedding and its properties

    The development follows the C++ sources of the reference simulator:

    - [MemFetch]   : [mem_fetch::is_reply] and [mem_fetch::set_reply]
                     (playground/src/ref/mem_fetch.hpp);
    - [OpndColl]   : the operand collector register-file unit
                     (playground/src/ref/opndcoll_rfu.hpp);
    - [Bridge]     : the command loop of the accelsim bridge
                     (playground/src/ref/bridge/main.cc);
    - [AnyNet]     : the topology parser and the routing-table construction
                     (playground/sys/src/ref/intersim2/networks/anynet.cpp).

    Machine integers are [Z] with their wrap-around written out, a failed
    [assert] (or another fatal exit) is the [None] of an option, or the
    error constructor of a result type. *)

From Stdlib Require Import ZArith List Bool Lia Ascii String Sorted.
From stdpp Require Import base option list strings gmap sorting pretty.

Local Open Scope Z_scope.

(** ** Failure of an assertion: the option monad *)

Definition assert_ (b : bool) : option unit := if b then Some tt else None.

Notation "'check' b ;; c" := (match assert_ b with Some _ => c | None => None end)
  (at level 10, b at level 9, c at level 200, only parsing).

(** ** Calls that throw, abort or do not return

    What a call can come to: a normal return, a C++ exception, a fatal
    exit (a failed assertion, a read outside an array), or the fuel of a
    loop used up. *)
Inductive outcome (A : Type) :=
| Done (a : A)
| Thrown (what : string)
| Aborted
| Timeout.
Arguments Done {A} a.
Arguments Thrown {A} what.
Arguments Aborted {A}.
Arguments Timeout {A}.

Definition bind {A B} (m : outcome A) (f : A → outcome B) : outcome B :=
  match m with
  | Done a => f a
  | Thrown w => Thrown w
  | Aborted => Aborted
  | Timeout => Timeout
  end.

#[global] Instance outcome_ret : MRet outcome := @Done.
#[global] Instance outcome_bind : MBind outcome := λ A B f m, bind m f.

Lemma mbind_Done {A B} (a : A) (f : A → outcome B) : mbind f (Done a) = f a.
Proof. done. Qed.

Lemma mbind_Timeout {A B} (f : A → outcome B) : mbind f Timeout = Timeout.
Proof. done. Qed.

(** A lookup that must succeed. *)
Definition must {A} (o : option A) : outcome A :=
  match o with Some a => Done a | None => Aborted end.

(** ** Unsigned 32-bit arithmetic *)

Definition UINT_MOD : Z := 2 ^ 32.
Definition wrap32 (x : Z) : Z := x mod UINT_MOD.

(* ================================================================== *)
(** * mem_fetch.hpp *)
(* ================================================================== *)

Module MemFetch.

(** [enum mf_type], in declaration order. *)
Inductive mf_type := READ_REQUEST | WRITE_REQUEST | READ_REPLY | WRITE_ACK.

Definition mf_type_eqb (a b : mf_type) : bool :=
  match a, b with
  | READ_REQUEST, READ_REQUEST | WRITE_REQUEST, WRITE_REQUEST
  | READ_REPLY, READ_REPLY | WRITE_ACK, WRITE_ACK => true
  | _, _ => false
  end.

(** [enum mem_fetch_status] of mem_fetch_status.hpp, in wire order. *)
Inductive mem_fetch_status :=
| MEM_FETCH_INITIALIZED | IN_L1I_MISS_QUEUE | IN_L1D_MISS_QUEUE
| IN_L1T_MISS_QUEUE | IN_L1C_MISS_QUEUE | IN_L1TLB_MISS_QUEUE
| IN_VM_MANAGER_QUEUE | IN_ICNT_TO_MEM | IN_PARTITION_ROP_DELAY
| IN_PARTITION_ICNT_TO_L2_QUEUE | IN_PARTITION_L2_TO_DRAM_QUEUE
| IN_PARTITION_DRAM_LATENCY_QUEUE | IN_PARTITION_L2_MISS_QUEUE
| IN_PARTITION_MC_INTERFACE_QUEUE | IN_PARTITION_MC_INPUT_QUEUE
| IN_PARTITION_MC_BANK_ARB_QUEUE | IN_PARTITION_DRAM
| IN_PARTITION_MC_RETURNQ | IN_PARTITION_DRAM_TO_L2_QUEUE
| IN_PARTITION_L2_FILL_QUEUE | IN_PARTITION_L2_TO_ICNT_QUEUE
| IN_ICNT_TO_SHADER | IN_CLUSTER_TO_SHADER_QUEUE
| IN_SHADER_LDST_RESPONSE_FIFO | IN_SHADER_FETCHED | IN_SHADER_L1T_ROB
| MEM_FETCH_DELETED | NUM_MEM_REQ_STAT.

(** Modelled from the spec: [enum mem_access_type] is declared in
    mem_access.hpp, which is not part of the sources at hand.  [set_reply]
    names the two write-back enumerators; every other enumerator is
    [OTHER_ACC] with its numeric code. *)
Inductive mem_access_type :=
| L1_WRBK_ACC
| L2_WRBK_ACC
| OTHER_ACC (code : Z).

Definition is_wrbk (t : mem_access_type) : bool :=
  match t with L1_WRBK_ACC | L2_WRBK_ACC => true | OTHER_ACC _ => false end.

(** Modelled from the spec: the access descriptor [mem_access_t]
    (mem_access.hpp, absent): type, address, size, write flag and the three
    masks. [mem_fetch] reads it through [get_type] and [is_write]. *)
Record mem_access_t := {
  ma_type : mem_access_type;
  ma_addr : Z;
  ma_size : Z;
  ma_write : bool;
  ma_warp_mask : Z;
  ma_byte_mask : Z;
  ma_sector_mask : Z
}.

(** The decoded DRAM address [addrdec_t]. *)
Record addrdec_t := {
  chip : Z; bk : Z; row : Z; col : Z; burst : Z; sub_partition : Z
}.

(** The data members of [class mem_fetch]; pointers are handles. *)
Record mem_fetch := {
  m_request_uid : Z;
  m_sid : Z;
  m_tpc : Z;
  m_wid : Z;
  m_status : mem_fetch_status;
  m_status_change : Z;
  m_access : mem_access_t;
  m_data_size : Z;
  m_ctrl_size : Z;
  m_partition_addr : Z;
  m_raw_addr : addrdec_t;
  m_type : mf_type;
  m_timestamp : Z;
  m_timestamp2 : Z;
  m_icnt_receive_time : Z;
  m_inst : option Z;
  icnt_flit_size : Z;
  original_mf : option Z;
  original_wr_mf : option Z
}.

(** [m_type = t], every other member as it was. *)
Definition with_type (mf : mem_fetch) (t : mf_type) : mem_fetch :=
  {| m_request_uid := m_request_uid mf; m_sid := m_sid mf; m_tpc := m_tpc mf;
     m_wid := m_wid mf; m_status := m_status mf;
     m_status_change := m_status_change mf; m_access := m_access mf;
     m_data_size := m_data_size mf; m_ctrl_size := m_ctrl_size mf;
     m_partition_addr := m_partition_addr mf; m_raw_addr := m_raw_addr mf;
     m_type := t;
     m_timestamp := m_timestamp mf; m_timestamp2 := m_timestamp2 mf;
     m_icnt_receive_time := m_icnt_receive_time mf; m_inst := m_inst mf;
     icnt_flit_size := icnt_flit_size mf;
     original_mf := original_mf mf; original_wr_mf := original_wr_mf mf |}.

Definition get_access_type (mf : mem_fetch) : mem_access_type :=
  ma_type (m_access mf).
Definition get_is_write (mf : mem_fetch) : bool := ma_write (m_access mf).
Definition get_type (mf : mem_fetch) : mf_type := m_type mf.

(** [bool is_reply() const] *)
Definition is_reply (mf : mem_fetch) : bool :=
  mf_type_eqb (m_type mf) READ_REPLY || mf_type_eqb (m_type mf) WRITE_ACK.

(** [void set_reply()]; [None] is a failed assertion. *)
Definition set_reply (mf : mem_fetch) : option mem_fetch :=
  check (negb (is_wrbk (get_access_type mf)));;
  match m_type mf with
  | READ_REQUEST =>
      check (negb (get_is_write mf));;
      Some (with_type mf READ_REPLY)
  | WRITE_REQUEST =>
      check (get_is_write mf);;
      Some (with_type mf WRITE_ACK)
  | _ => Some mf  (* already a reply *)
  end.

(** A fetch as the allocators of the shader core build it: the access
    carries the write flag, the control size follows it. *)
Definition sample_access (t : mem_access_type) (wr : bool) : mem_access_t :=
  {| ma_type := t; ma_addr := 128; ma_size := 32; ma_write := wr;
     ma_warp_mask := 1; ma_byte_mask := 15; ma_sector_mask := 1 |}.

Definition sample_fetch (t : mem_access_type) (wr : bool) (ty : mf_type)
  : mem_fetch :=
  {| m_request_uid := 1; m_sid := 0; m_tpc := 0; m_wid := 3;
     m_status := MEM_FETCH_INITIALIZED; m_status_change := 0;
     m_access := sample_access t wr;
     m_data_size := 32; m_ctrl_size := 8; m_partition_addr := 0;
     m_raw_addr := {| chip := 0; bk := 0; row := 0; col := 0; burst := 0;
                      sub_partition := 0 |};
     m_type := ty;
     m_timestamp := 0; m_timestamp2 := 0; m_icnt_receive_time := 0;
     m_inst := None; icnt_flit_size := 40;
     original_mf := None; original_wr_mf := None |}.

Lemma with_type_same mf : with_type mf (m_type mf) = mf.
Proof. by destruct mf. Qed.

Lemma with_type_access mf t : m_access (with_type mf t) = m_access mf.
Proof. done. Qed.

Lemma with_type_type mf t : m_type (with_type mf t) = t.
Proof. done. Qed.

Lemma set_reply_wrbk mf :
  is_wrbk (get_access_type mf) = true → set_reply mf = None.
Proof. unfold set_reply. by intros ->. Qed.

(** A successful [set_reply] leaves a reply behind, with the same access. *)
Lemma set_reply_Some mf mf' :
  set_reply mf = Some mf' →
  is_reply mf' = true ∧ m_access mf' = m_access mf
  ∧ is_wrbk (get_access_type mf) = false.
Proof.
  unfold set_reply, is_reply, get_is_write, get_access_type.
  destruct (is_wrbk _) eqn:Hw; simpl; [done|].
  destruct (m_type mf) eqn:Ht; simpl;
    repeat match goal with
           | |- context [negb ?b] => destruct b eqn:?; simpl
           | |- context [assert_ ?b] => destruct b eqn:?; simpl
           end; intros [= <-]; try done; rewrite ?Ht; done.
Qed.

(** C9: [is_reply()] is true exactly for the types READ_REPLY and
    WRITE_ACK. *)
Theorem is_reply_iff (mf : mem_fetch) :
  is_reply mf = true ↔ m_type mf = READ_REPLY ∨ m_type mf = WRITE_ACK.
Proof.
  unfold is_reply. destruct (m_type mf); simpl; split; intros H;
    try done; try (by left); try (by right); destruct H; discriminate.
Qed.

(** [set_reply] aborts exactly on a write-back access or on a request
    whose kind disagrees with the write flag of its access. *)
Definition write_flag_consistent (mf : mem_fetch) : bool :=
  match m_type mf with
  | READ_REQUEST => negb (get_is_write mf)
  | WRITE_REQUEST => get_is_write mf
  | _ => true
  end.

Definition reply_of (t : mf_type) : mf_type :=
  match t with
  | READ_REQUEST => READ_REPLY
  | WRITE_REQUEST => WRITE_ACK
  | t => t
  end.

Lemma set_reply_None mf :
  set_reply mf = None ↔
  is_wrbk (get_access_type mf) = true ∨ write_flag_consistent mf = false.
Proof.
  unfold set_reply, write_flag_consistent.
  destruct (is_wrbk _); simpl; [split; [by left | done]|].
  destruct (m_type mf), (get_is_write mf); simpl; split;
    try done; try (by right); intros [|]; done.
Qed.

(** C3, as the code has it: on an access that is not a write-back and
    whose write flag agrees with the request kind, [set_reply] turns
    READ_REQUEST into READ_REPLY and WRITE_REQUEST into WRITE_ACK and
    changes no other member; it is fatal on L1_WRBK_ACC and L2_WRBK_ACC,
    and also on a READ_REQUEST of a write access and on a WRITE_REQUEST of
    a read access. *)
Theorem set_reply_request (mf : mem_fetch) :
  (set_reply mf = None ↔
     is_wrbk (get_access_type mf) = true ∨ write_flag_consistent mf = false)
  ∧ (is_wrbk (get_access_type mf) = false →
     write_flag_consistent mf = true →
     set_reply mf = Some (with_type mf (reply_of (m_type mf))))
  ∧ (∀ mf', set_reply mf = Some mf' →
       m_type mf' = reply_of (m_type mf) ∧ with_type mf' (m_type mf) = mf).
Proof.
  split; [apply set_reply_None|]. split.
  - unfold set_reply, write_flag_consistent. intros -> Hc. simpl.
    destruct (m_type mf) eqn:Ht, (get_is_write mf); simpl in *; try done;
      by rewrite <- Ht, with_type_same.
  - intros mf'. unfold set_reply.
    destruct (is_wrbk _); simpl; [done|].
    destruct (m_type mf) eqn:Ht, (get_is_write mf); simpl; intros [= <-];
      (split; [by rewrite ?Ht|]); rewrite <- ?Ht; by destruct mf.
Qed.

Lemma set_reply_request_witness :
  set_reply (sample_fetch (OTHER_ACC 0) false READ_REQUEST)
  = Some (sample_fetch (OTHER_ACC 0) false READ_REPLY).
Proof.
  destruct (set_reply_request (sample_fetch (OTHER_ACC 0) false READ_REQUEST))
    as (_ & H & _).
  rewrite H; reflexivity.
Defined.

(** C3 as stated fails: a READ_REQUEST whose access is a write that is
    not a write-back is not turned into a READ_REPLY, the call aborts. *)
Lemma set_reply_request_counterexample :
  ¬ (∀ mf : mem_fetch,
       is_wrbk (get_access_type mf) = false →
       (m_type mf = READ_REQUEST →
        set_reply mf = Some (with_type mf READ_REPLY))
       ∧ (m_type mf = WRITE_REQUEST →
          set_reply mf = Some (with_type mf WRITE_ACK))).
Proof.
  intros H.
  destruct (H (sample_fetch (OTHER_ACC 4) true READ_REQUEST) eq_refl)
    as [H1 _].
  specialize (H1 eq_refl). vm_compute in H1. discriminate.
Qed.

(** C7: on a fetch that is not a write-back, [set_reply] on a reply
    (READ_REPLY or WRITE_ACK) changes nothing, and [set_reply] twice is
    [set_reply] once. *)
Theorem set_reply_idempotent (mf : mem_fetch) :
  is_wrbk (get_access_type mf) = false →
  (is_reply mf = true → set_reply mf = Some mf)
  ∧ (∀ mf', set_reply mf = Some mf' → set_reply mf' = Some mf')
  ∧ (set_reply mf ≫= set_reply) = set_reply mf.
Proof.
  intros Hw.
  assert (Hrep : ∀ m, is_wrbk (get_access_type m) = false →
                      is_reply m = true → set_reply m = Some m).
  { intros m Hm Hr. unfold set_reply. rewrite Hm. simpl.
    apply is_reply_iff in Hr as [-> | ->]; done. }
  assert (Hstep : ∀ mf', set_reply mf = Some mf' → set_reply mf' = Some mf').
  { intros mf' H. apply set_reply_Some in H as (Hr & Ha & _).
    apply Hrep; [|done]. unfold get_access_type. by rewrite Ha. }
  split; [by apply Hrep|]. split; [done|].
  destruct (set_reply mf) as [mf'|] eqn:E; simpl; [by apply Hstep | done].
Qed.

Lemma set_reply_idempotent_witness :
  set_reply (sample_fetch (OTHER_ACC 4) true WRITE_REQUEST) ≫= set_reply
  = set_reply (sample_fetch (OTHER_ACC 4) true WRITE_REQUEST).
Proof.
  apply (set_reply_idempotent (sample_fetch (OTHER_ACC 4) true WRITE_REQUEST)).
  reflexivity.
Defined.

(** ** The names of the statuses and of the packet types *)

(** [mf_type_str] of mem_fetch.hpp *)
Definition mf_type_str : list string :=
  ["READ_REQUEST"; "WRITE_REQUEST"; "READ_REPLY"; "WRITE_ACK"]%string.

(** [Status_str] of mem_fetch_status.hpp *)
Definition Status_str : list string :=
  ["MEM_FETCH_INITIALIZED"; "IN_L1I_MISS_QUEUE"; "IN_L1D_MISS_QUEUE";
   "IN_L1T_MISS_QUEUE"; "IN_L1C_MISS_QUEUE"; "IN_L1TLB_MISS_QUEUE";
   "IN_VM_MANAGER_QUEUE"; "IN_ICNT_TO_MEM"; "IN_PARTITION_ROP_DELAY";
   "IN_PARTITION_ICNT_TO_L2_QUEUE"; "IN_PARTITION_L2_TO_DRAM_QUEUE";
   "IN_PARTITION_DRAM_LATENCY_QUEUE"; "IN_PARTITION_L2_MISS_QUEUE";
   "IN_PARTITION_MC_INTERFACE_QUEUE"; "IN_PARTITION_MC_INPUT_QUEUE";
   "IN_PARTITION_MC_BANK_ARB_QUEUE"; "IN_PARTITION_DRAM";
   "IN_PARTITION_MC_RETURNQ"; "IN_PARTITION_DRAM_TO_L2_QUEUE";
   "IN_PARTITION_L2_FILL_QUEUE"; "IN_PARTITION_L2_TO_ICNT_QUEUE";
   "IN_ICNT_TO_SHADER"; "IN_CLUSTER_TO_SHADER_QUEUE";
   "IN_SHADER_LDST_RESPONSE_FIFO"; "IN_SHADER_FETCHED"; "IN_SHADER_L1T_ROB";
   "MEM_FETCH_DELETED"; "NUM_MEM_REQ_STAT"]%string.

(** The value of an enumerator: its place in the declaration. *)
Definition mf_type_code (t : mf_type) : nat :=
  match t with
  | READ_REQUEST => 0 | WRITE_REQUEST => 1 | READ_REPLY => 2 | WRITE_ACK => 3
  end.

Definition status_code (s : mem_fetch_status) : nat :=
  match s with
  | MEM_FETCH_INITIALIZED => 0 | IN_L1I_MISS_QUEUE => 1
  | IN_L1D_MISS_QUEUE => 2 | IN_L1T_MISS_QUEUE => 3
  | IN_L1C_MISS_QUEUE => 4 | IN_L1TLB_MISS_QUEUE => 5
  | IN_VM_MANAGER_QUEUE => 6 | IN_ICNT_TO_MEM => 7
  | IN_PARTITION_ROP_DELAY => 8 | IN_PARTITION_ICNT_TO_L2_QUEUE => 9
  | IN_PARTITION_L2_TO_DRAM_QUEUE => 10
  | IN_PARTITION_DRAM_LATENCY_QUEUE => 11
  | IN_PARTITION_L2_MISS_QUEUE => 12
  | IN_PARTITION_MC_INTERFACE_QUEUE => 13
  | IN_PARTITION_MC_INPUT_QUEUE => 14
  | IN_PARTITION_MC_BANK_ARB_QUEUE => 15 | IN_PARTITION_DRAM => 16
  | IN_PARTITION_MC_RETURNQ => 17 | IN_PARTITION_DRAM_TO_L2_QUEUE => 18
  | IN_PARTITION_L2_FILL_QUEUE => 19 | IN_PARTITION_L2_TO_ICNT_QUEUE => 20
  | IN_ICNT_TO_SHADER => 21 | IN_CLUSTER_TO_SHADER_QUEUE => 22
  | IN_SHADER_LDST_RESPONSE_FIFO => 23 | IN_SHADER_FETCHED => 24
  | IN_SHADER_L1T_ROB => 25 | MEM_FETCH_DELETED => 26
  | NUM_MEM_REQ_STAT => 27
  end.

(** X1: the two tables of names go with their enumerations: every
    status and every packet type has a name in its table, two of them
    never the same one, and no name is left over. *)
Theorem status_names :
  (∀ s, is_Some (Status_str !! status_code s))
  ∧ (∀ s1 s2, Status_str !! status_code s1 = Status_str !! status_code s2 →
              s1 = s2)
  ∧ length Status_str = S (status_code NUM_MEM_REQ_STAT)
  ∧ (∀ t, is_Some (mf_type_str !! mf_type_code t))
  ∧ (∀ t1 t2, mf_type_str !! mf_type_code t1 = mf_type_str !! mf_type_code t2 →
              t1 = t2)
  ∧ length mf_type_str = S (mf_type_code WRITE_ACK).
Proof.
  split; [by intros []; eexists|].
  split; [intros s1 s2; destruct s1, s2; (done || (intros H; vm_compute in H; discriminate))|].
  split; [done|].
  split; [by intros []; eexists|].
  split; [|done].
  intros t1 t2; destruct t1, t2; (done || (intros H; vm_compute in H; discriminate)).
Qed.

End MemFetch.

(* ================================================================== *)
(** * opndcoll_rfu.hpp: operand tokens and bank allocations *)
(* ================================================================== *)

Module OpndColl.

(** [class op_t]; the two back pointers are handles. *)
Record op_t := {
  m_valid : bool;
  m_cu : option nat;
  m_warp : option nat;
  m_operand : Z;
  m_register : Z;
  m_bank : nat;
  m_shced_id : Z
}.

(** [op_t() { m_valid = false; }] *)
Definition op_invalid : op_t :=
  {| m_valid := false; m_cu := None; m_warp := None; m_operand := 0;
     m_register := 0; m_bank := 0%nat; m_shced_id := 0 |}.

Inductive alloc_t := NO_ALLOC | READ_ALLOC | WRITE_ALLOC.

(** [class allocation_t] *)
Record allocation_t := {
  m_allocation : alloc_t;
  m_op : op_t
}.

Definition allocation_new : allocation_t :=
  {| m_allocation := NO_ALLOC; m_op := op_invalid |}.

Definition is_read (a : allocation_t) : bool :=
  match m_allocation a with READ_ALLOC => true | _ => false end.
Definition is_write (a : allocation_t) : bool :=
  match m_allocation a with WRITE_ALLOC => true | _ => false end.
Definition is_free (a : allocation_t) : bool :=
  match m_allocation a with NO_ALLOC => true | _ => false end.

(** [alloc_read] and [alloc_write] assert [is_free()]. *)
Definition alloc_read (op : op_t) (a : allocation_t) : option allocation_t :=
  check (is_free a);;
  Some {| m_allocation := READ_ALLOC; m_op := op |}.

Definition alloc_write (op : op_t) (a : allocation_t) : option allocation_t :=
  check (is_free a);;
  Some {| m_allocation := WRITE_ALLOC; m_op := op |}.

Definition reset (a : allocation_t) : allocation_t :=
  {| m_allocation := NO_ALLOC; m_op := m_op a |}.

End OpndColl.

(* ================================================================== *)
(** * opndcoll_rfu.hpp: the arbiter and [opndcoll_rfu_t::step] *)
(* ================================================================== *)

Module Arbiter.
Import OpndColl.

(** [class arbiter_t]: the arrays are lists, the scratch matrices of the
    allocator are kept as they are. *)
Record arbiter_t := {
  m_num_banks : nat;
  m_num_collectors : nat;
  m_allocated_bank : list allocation_t;
  m_queue : list (list op_t);
  m_allocator_rr_head : list nat;
  m_last_cu : nat;
  _inmatch : list Z;
  _outmatch : list Z;
  _request : list (list Z)
}.

Definition with_allocated_bank (arb : arbiter_t) (banks : list allocation_t)
  : arbiter_t :=
  {| m_num_banks := m_num_banks arb; m_num_collectors := m_num_collectors arb;
     m_allocated_bank := banks; m_queue := m_queue arb;
     m_allocator_rr_head := m_allocator_rr_head arb;
     m_last_cu := m_last_cu arb; _inmatch := _inmatch arb;
     _outmatch := _outmatch arb; _request := _request arb |}.

(** [reset_alloction]: for (b = 0; b < m_num_banks; b++)
    m_allocated_bank[b].reset(); *)
Definition reset_alloction (arb : arbiter_t) : arbiter_t :=
  with_allocated_bank arb
    (foldl (λ banks b, alter reset b banks) (m_allocated_bank arb)
           (seq 0 (m_num_banks arb))).

(** [init(num_cu, num_banks)] *)
Definition init (num_cu num_banks : nat) : option arbiter_t :=
  check (0 <? num_cu)%nat;;
  check (0 <? num_banks)%nat;;
  Some (reset_alloction
    {| m_num_banks := num_banks; m_num_collectors := num_cu;
       m_allocated_bank := replicate num_banks allocation_new;
       m_queue := replicate num_banks [];
       m_allocator_rr_head :=
         map (λ n, n mod num_banks)%nat (seq 0 num_cu);
       m_last_cu := 0%nat;
       _inmatch := replicate num_banks 0;
       _outmatch := replicate num_cu 0;
       _request := replicate num_banks (replicate num_cu 0) |}).

Definition bank_idle (bank : nat) (arb : arbiter_t) : option bool :=
  is_free <$> m_allocated_bank arb !! bank.

(** [allocate_bank_for_write(bank, op)] *)
Definition allocate_bank_for_write (bank : nat) (op : op_t) (arb : arbiter_t)
  : option arbiter_t :=
  check (bank <? m_num_banks arb)%nat;;
  a ← m_allocated_bank arb !! bank;
  a' ← alloc_write op a;
  Some (with_allocated_bank arb (<[bank := a']> (m_allocated_bank arb))).

(** [allocate_for_read(bank, op)] *)
Definition allocate_for_read (bank : nat) (op : op_t) (arb : arbiter_t)
  : option arbiter_t :=
  check (bank <? m_num_banks arb)%nat;;
  a ← m_allocated_bank arb !! bank;
  a' ← alloc_read op a;
  Some (with_allocated_bank arb (<[bank := a']> (m_allocated_bank arb))).

(** The allocations asked of the arbiter between two resets, in the order
    of the calls: reads granted by [allocate_reads], writes by
    [writeback]. *)
Inductive bank_req :=
| ReadReq (bank : nat) (op : op_t)
| WriteReq (bank : nat) (op : op_t).

Definition req_bank (r : bank_req) : nat :=
  match r with ReadReq b _ | WriteReq b _ => b end.

Definition req_alloc (r : bank_req) : allocation_t :=
  match r with
  | ReadReq _ op => {| m_allocation := READ_ALLOC; m_op := op |}
  | WriteReq _ op => {| m_allocation := WRITE_ALLOC; m_op := op |}
  end.

Definition exec_req (r : bank_req) (arb : arbiter_t) : option arbiter_t :=
  match r with
  | ReadReq b op => allocate_for_read b op arb
  | WriteReq b op => allocate_bank_for_write b op arb
  end.

Fixpoint run_reqs (rs : list bank_req) (arb : arbiter_t) : option arbiter_t :=
  match rs with
  | [] => Some arb
  | r :: rs => arb' ← exec_req r arb; run_reqs rs arb'
  end.

(** Every bank the arbiter owns is free. *)
Definition all_free (arb : arbiter_t) : Prop :=
  ∀ b a, (b < m_num_banks arb)%nat →
         m_allocated_bank arb !! b = Some a → is_free a = true.

(** [after] is [before] with every bank below [m_num_banks] back at
    NO_ALLOC (its operand left as it was) and nothing else touched. *)
Definition banks_reset (before after : arbiter_t) : Prop :=
  m_num_banks after = m_num_banks before
  ∧ length (m_allocated_bank after) = length (m_allocated_bank before)
  ∧ (∀ b a, m_allocated_bank before !! b = Some a →
       m_allocated_bank after !! b
       = Some (if decide (b < m_num_banks before)%nat
               then {| m_allocation := NO_ALLOC; m_op := m_op a |}
               else a))
  ∧ m_num_collectors after = m_num_collectors before
  ∧ m_queue after = m_queue before
  ∧ m_allocator_rr_head after = m_allocator_rr_head before
  ∧ m_last_cu after = m_last_cu before
  ∧ _inmatch after = _inmatch before
  ∧ _outmatch after = _outmatch before
  ∧ _request after = _request before.

(** ** [opndcoll_rfu_t] and its [step] *)

(** [class input_port_t]: register sets are handles. *)
Record input_port_t := {
  m_in : list Z;
  m_out : list Z;
  m_cu_sets : list Z
}.

(** The data members of [opndcoll_rfu_t] that [step] reaches directly; the
    collector units and dispatch units live in [units]. *)
Record opndcoll_rfu_t {units : Type} := {
  m_initialized : bool;
  m_arbiter : arbiter_t;
  m_in_ports : list input_port_t;
  m_units : units
}.
Arguments opndcoll_rfu_t : clear implicits.

Definition with_arbiter {units} (rfu : opndcoll_rfu_t units) (arb : arbiter_t)
  : opndcoll_rfu_t units :=
  {| m_initialized := m_initialized rfu; m_arbiter := arb;
     m_in_ports := m_in_ports rfu; m_units := m_units rfu |}.

(** [process_banks() { m_arbiter.reset_alloction(); }] *)
Definition process_banks {units} (rfu : opndcoll_rfu_t units)
  : opndcoll_rfu_t units :=
  with_arbiter rfu (reset_alloction (m_arbiter rfu)).

Section Step.
(** The three phases before [process_banks] are defined in
    opndcoll_rfu.cc, which is not among the sources: they are any
    fallible transformers of the unit and of the pipeline registers
    around it ([world]). *)
Context {units world : Type}.
Abbreviation state := (world * opndcoll_rfu_t units)%type.
Variable dispatch_ready_cu : state → option state.
Variable allocate_reads : state → option state.
Variable allocate_cu : nat → state → option state.

(** for (p = 0; p < m_in_ports.size(); p++) allocate_cu(p);
    [None] is a fatal exit of a phase, or the fuel used up. *)
Fixpoint allocate_cu_loop (fuel p : nat) (s : state) : option state :=
  match fuel with
  | O => None
  | S fuel =>
      if (p <? length (m_in_ports (snd s)))%nat
      then s' ← allocate_cu p s; allocate_cu_loop fuel (S p) s'
      else Some s
  end.

Definition step (fuel : nat) (s : state) : option state :=
  s1 ← dispatch_ready_cu s;
  s2 ← allocate_reads s1;
  s3 ← allocate_cu_loop fuel 0 s2;
  Some (fst s3, process_banks (snd s3)).
End Step.

(** ** Properties *)

Lemma reset_is_free a : is_free (reset a) = true.
Proof. done. Qed.

Lemma reset_banks_lookup n (banks : list allocation_t) b a :
  foldl (λ banks b, alter reset b banks) banks (seq 0 n) !! b = Some a →
  (b < n)%nat → is_free a = true.
Proof.
  revert a. induction n as [|n IH]; intros a; [lia|].
  rewrite seq_S, foldl_app. simpl. intros H Hb.
  destruct (decide (b = n)) as [->|Hne].
  - rewrite list_lookup_alter_eq in H.
    destruct (foldl _ _ _ !! n); simplify_eq/=. done.
  - rewrite list_lookup_alter_ne in H by lia. apply IH; [done|lia].
Qed.

Lemma reset_alloction_all_free arb : all_free (reset_alloction arb).
Proof. intros b a Hb H. simpl in *. by eapply reset_banks_lookup. Qed.

Lemma reset_banks_length n (banks : list allocation_t) :
  length (foldl (λ banks b, alter reset b banks) banks (seq 0 n))
  = length banks.
Proof.
  induction n as [|n IH]; [done|].
  by rewrite seq_S, foldl_app; simpl; rewrite length_alter.
Qed.

Lemma reset_banks_alter n (banks : list allocation_t) b :
  foldl (λ banks b, alter reset b banks) banks (seq 0 n) !! b
  = (λ a, if decide (b < n)%nat then reset a else a) <$> banks !! b.
Proof.
  induction n as [|n IH].
  - simpl. by destruct (banks !! b).
  - rewrite seq_S, foldl_app. simpl.
    destruct (decide (b = n)) as [->|Hne].
    + rewrite list_lookup_alter_eq, IH.
      destruct (banks !! n); simpl; [|done].
      destruct (decide (n < n)%nat); [lia|].
      by destruct (decide (n < S n)%nat); [|lia].
    + rewrite list_lookup_alter_ne, IH by lia.
      destruct (banks !! b); simpl; [|done].
      destruct (decide (b < n)%nat), (decide (b < S n)%nat); done || lia.
Qed.

Lemma reset_alloction_banks_reset arb : banks_reset arb (reset_alloction arb).
Proof.
  unfold banks_reset, reset_alloction. simpl.
  split; [done|]. split; [apply reset_banks_length|]. split; [|done].
  intros b a Ha. rewrite reset_banks_alter, Ha. simpl.
  by destruct (decide _).
Qed.

(** After a reset of an arbiter whose array has [m_num_banks] entries no
    entry is a read or a write allocation. *)
Lemma banks_reset_none before after :
  banks_reset before after →
  length (m_allocated_bank before) = m_num_banks before →
  Forall (λ a, m_allocation a = NO_ALLOC) (m_allocated_bank after).
Proof.
  intros (_ & Hlen & Hb & _) Hn. apply Forall_lookup. intros b a' Ha'.
  assert (Hlt : (b < length (m_allocated_bank before))%nat)
    by (rewrite <- Hlen; by eapply lookup_lt_Some).
  destruct (lookup_lt_is_Some_2 _ _ Hlt) as [a Ha].
  rewrite (Hb b a Ha) in Ha'.
  destruct (decide (b < m_num_banks before)%nat); [|lia].
  by injection Ha' as <-.
Qed.

Lemma exec_req_inv r arb arb' :
  exec_req r arb = Some arb' →
  ∃ a, (req_bank r < m_num_banks arb)%nat
       ∧ m_allocated_bank arb !! req_bank r = Some a
       ∧ is_free a = true
       ∧ arb' = with_allocated_bank arb
                  (<[req_bank r := req_alloc r]> (m_allocated_bank arb)).
Proof.
  destruct r as [b op|b op]; simpl;
    unfold allocate_for_read, allocate_bank_for_write, alloc_read, alloc_write;
    (destruct (b <? m_num_banks arb)%nat eqn:Hb; simpl; [|done]);
    (destruct (m_allocated_bank arb !! b) as [a|] eqn:Ha; simpl; [|done]);
    (destruct (is_free a) eqn:Hf; simpl; [|done]);
    intros [= <-]; exists a; apply Nat.ltb_lt in Hb; done.
Qed.

(** Banks that are taken stay taken while requests run, and no request
    that succeeds names a taken bank. *)
Lemma run_reqs_inv rs : ∀ arb arb',
  run_reqs rs arb = Some arb' →
  NoDup (req_bank <$> rs)
  ∧ (∀ r, r ∈ rs → (req_bank r < m_num_banks arb)%nat
          ∧ (∃ a, m_allocated_bank arb !! req_bank r = Some a
                  ∧ is_free a = true)
          ∧ m_allocated_bank arb' !! req_bank r = Some (req_alloc r))
  ∧ (∀ b, b ∉ req_bank <$> rs →
          m_allocated_bank arb' !! b = m_allocated_bank arb !! b)
  ∧ m_num_banks arb' = m_num_banks arb.
Proof.
  induction rs as [|r rs IH]; intros arb arb'; simpl.
  - intros [= <-]. split; [constructor|]. split; [|done].
    intros r Hr. by apply elem_of_nil in Hr.
  - destruct (exec_req r arb) as [arb1|] eqn:E; simpl; [|done].
    intros Hrun. apply exec_req_inv in E as (a & Hb & Ha & Hf & ->).
    apply IH in Hrun as (Hnd & Hin & Hout & Hnb). simpl in *.
    assert (Hfresh : req_bank r ∉ req_bank <$> rs).
    { intros Hmem. apply list_elem_of_fmap in Hmem as (r' & Heq & Hr').
      destruct (Hin r' Hr') as (_ & (a' & Ha' & Hf') & _).
      rewrite <- Heq in Ha'.
      rewrite list_lookup_insert_eq in Ha' by (by eapply lookup_lt_Some).
      simplify_eq. by destruct r. }
    split; [by constructor|]. split; [|split; [|done]].
    + intros r' Hr'. apply elem_of_cons in Hr' as [->|Hr'].
      * split; [done|]. split; [by exists a|].
        rewrite Hout by done.
        apply list_lookup_insert_eq. by eapply lookup_lt_Some.
      * destruct (Hin r' Hr') as (Hlt & (a' & Ha' & Hf') & Hfin).
        assert (req_bank r ≠ req_bank r').
        { intros Heq. apply Hfresh. rewrite Heq.
          apply list_elem_of_fmap. by exists r'. }
        rewrite list_lookup_insert_ne in Ha' by done.
        split; [done|]. split; [by exists a'|done].
    + intros b Hb'. apply not_elem_of_cons in Hb' as [Hne Hb'].
      rewrite Hout by done. by rewrite list_lookup_insert_ne.
Qed.

(** The loop over the input ports ends when [allocate_cu] returns and
    leaves the number of ports as it is. *)
Lemma allocate_cu_loop_total {units world : Type}
    (allocate_cu : nat → world * opndcoll_rfu_t units
                       → option (world * opndcoll_rfu_t units)) :
  (∀ p s, ∃ s', allocate_cu p s = Some s'
                ∧ length (m_in_ports (snd s')) = length (m_in_ports (snd s))) →
  ∀ fuel p s, (length (m_in_ports (snd s)) - p < fuel)%nat →
              is_Some (allocate_cu_loop allocate_cu fuel p s).
Proof.
  intros Hcu. induction fuel as [|fuel IH]; intros p s Hlt; [lia|]. simpl.
  destruct (p <? length (m_in_ports (snd s)))%nat eqn:Hp; [|by eexists].
  apply Nat.ltb_lt in Hp. destruct (Hcu p s) as (s' & -> & Hlen). simpl.
  apply IH. lia.
Qed.

(** A small arbiter and one cycle of it, for the closed instances. *)
Definition sample_op (cu : nat) (operand : Z) (bank : nat) : op_t :=
  {| m_valid := true; m_cu := Some cu; m_warp := None; m_operand := operand;
     m_register := 4 + operand; m_bank := bank; m_shced_id := 0 |}.

Definition sample_arbiter : arbiter_t :=
  default
    {| m_num_banks := 0; m_num_collectors := 0; m_allocated_bank := [];
       m_queue := []; m_allocator_rr_head := []; m_last_cu := 0%nat;
       _inmatch := []; _outmatch := []; _request := [] |}
    (init 2 4).

Definition sample_reqs : list bank_req :=
  [WriteReq 1 (sample_op 0 0 1); ReadReq 0 (sample_op 1 0 0);
   ReadReq 3 (sample_op 1 1 3)].

Definition sample_rfu : opndcoll_rfu_t unit :=
  {| m_initialized := true; m_arbiter := sample_arbiter;
     m_in_ports := [ {| m_in := [0]; m_out := [1]; m_cu_sets := [0] |} ];
     m_units := tt |}.

Definition sample_allocate_reads (s : unit * opndcoll_rfu_t unit)
  : option (unit * opndcoll_rfu_t unit) :=
  arb ← run_reqs sample_reqs (m_arbiter (snd s));
  Some (fst s, with_arbiter (snd s) arb).

(** C2: between two resets of the arbiter every bank receives at most one
    allocation, a read or a write: a sequence of [allocate_for_read] and
    [allocate_bank_for_write] calls that runs without a failed assertion
    names no bank twice, leaves each named bank with the allocation asked
    for and every other bank free; and [step] ends with every bank free:
    whenever it returns, and it does return when its phases do and
    [allocate_cu] leaves the number of input ports as it is. What [step]
    returns is the state its three phases leave, with every bank of the
    arbiter back at NO_ALLOC and nothing else changed: whatever the phases
    allocated, read or write, is gone. *)
Theorem bank_exclusive {units world : Type}
    (dispatch_ready_cu allocate_reads :
       world * opndcoll_rfu_t units → option (world * opndcoll_rfu_t units))
    (allocate_cu :
       nat → world * opndcoll_rfu_t units
           → option (world * opndcoll_rfu_t units)) :
  (∀ arb reqs arb',
     run_reqs reqs (reset_alloction arb) = Some arb' →
     NoDup (req_bank <$> reqs)
     ∧ (∀ r, r ∈ reqs →
          m_allocated_bank arb' !! req_bank r = Some (req_alloc r))
     ∧ (∀ b a, b ∉ req_bank <$> reqs → (b < m_num_banks arb')%nat →
          m_allocated_bank arb' !! b = Some a → is_free a = true))
  ∧ (∀ fuel s s',
       step dispatch_ready_cu allocate_reads allocate_cu fuel s = Some s' →
       all_free (m_arbiter (snd s'))
       ∧ ∃ s1 s2 s3,
           dispatch_ready_cu s = Some s1 ∧ allocate_reads s1 = Some s2
           ∧ allocate_cu_loop allocate_cu fuel 0 s2 = Some s3
           ∧ fst s' = fst s3
           ∧ m_initialized (snd s') = m_initialized (snd s3)
           ∧ m_in_ports (snd s') = m_in_ports (snd s3)
           ∧ m_units (snd s') = m_units (snd s3)
           ∧ banks_reset (m_arbiter (snd s3)) (m_arbiter (snd s'))
           ∧ (length (m_allocated_bank (m_arbiter (snd s3)))
              = m_num_banks (m_arbiter (snd s3)) →
              Forall (λ a, m_allocation a = NO_ALLOC)
                     (m_allocated_bank (m_arbiter (snd s')))))
  ∧ (∀ s s1 s2,
       dispatch_ready_cu s = Some s1 → allocate_reads s1 = Some s2 →
       (∀ p s, ∃ s', allocate_cu p s = Some s'
                     ∧ length (m_in_ports (snd s'))
                       = length (m_in_ports (snd s))) →
       ∀ fuel, (length (m_in_ports (snd s2)) < fuel)%nat →
         ∃ s', step dispatch_ready_cu allocate_reads allocate_cu fuel s
               = Some s'
               ∧ all_free (m_arbiter (snd s'))).
Proof.
  split; [|split]; cycle 2.
  - intros s s1 s2 Hd Ha Hcu fuel Hfuel. unfold step.
    rewrite Hd. simpl. rewrite Ha. simpl.
    destruct (allocate_cu_loop_total allocate_cu Hcu fuel 0%nat s2)
      as [s3 ->]; [lia|].
    simpl. eexists. split; [done|]. apply reset_alloction_all_free.
  - intros arb reqs arb' Hrun.
    apply run_reqs_inv in Hrun as (Hnd & Hin & Hout & Hnb).
    split; [done|]. split.
    + intros r Hr. by destruct (Hin r Hr) as (_ & _ & ?).
    + intros b a Hb Hlt Ha. rewrite Hout in Ha by done.
      eapply reset_alloction_all_free; [|done]. by rewrite <- Hnb.
  - intros fuel s s'. unfold step.
    destruct (dispatch_ready_cu s) as [s1|] eqn:E1; simpl; [|done].
    destruct (allocate_reads s1) as [s2|] eqn:E2; simpl; [|done].
    destruct (allocate_cu_loop _ _ _ _) as [s3|] eqn:E3; simpl; [|done].
    intros [= <-]. simpl. split; [apply reset_alloction_all_free|].
    exists s1, s2, s3.
    pose proof (reset_alloction_banks_reset (m_arbiter (snd s3))) as Hr.
    do 7 (split; [done|]). split; [exact Hr|].
    exact (banks_reset_none _ _ Hr).
Qed.

Lemma bank_exclusive_witness :
  NoDup (req_bank <$> sample_reqs)
  ∧ ∃ s3 s',
      sample_allocate_reads (tt, sample_rfu) = Some s3
      ∧ m_allocation <$> m_allocated_bank (m_arbiter (snd s3))
        = [READ_ALLOC; WRITE_ALLOC; NO_ALLOC; READ_ALLOC]
      ∧ step Some sample_allocate_reads (λ _, Some) 2 (tt, sample_rfu)
        = Some s'
      ∧ all_free (m_arbiter (snd s'))
      ∧ m_num_banks (m_arbiter (snd s')) = 4%nat
      ∧ m_allocation <$> m_allocated_bank (m_arbiter (snd s'))
        = [NO_ALLOC; NO_ALLOC; NO_ALLOC; NO_ALLOC].
Proof.
  pose proof (bank_exclusive (units := unit) (world := unit)
                Some sample_allocate_reads (λ _, Some)) as (H1 & H2 & H3).
  split.
  - eapply (H1 sample_arbiter sample_reqs). vm_compute. reflexivity.
  - destruct (H3 (tt, sample_rfu) (tt, sample_rfu)
                (default (tt, sample_rfu)
                   (sample_allocate_reads (tt, sample_rfu)))
                eq_refl eq_refl (λ p s, ex_intro _ s (conj eq_refl eq_refl))
                2%nat)
      as (s' & Hstep & Hfree).
    + vm_compute. lia.
    + destruct (H2 _ _ _ Hstep)
        as (_ & s1 & s2 & s3 & Hd & Ha & Hl & _ & _ & _ & _ & Hr & Hall).
      injection Hd as <-.
      pose proof Ha as Ha'. vm_compute in Ha'. injection Ha' as <-.
      vm_compute in Hl. injection Hl as <-.
      eexists _, s'. split; [exact Ha|]. split; [reflexivity|].
      split; [exact Hstep|]. split; [exact Hfree|].
      destruct Hr as (Hn & Hlen & _).
      split; [rewrite Hn; reflexivity|].
      specialize (Hall eq_refl).
      change (length (m_allocated_bank (m_arbiter (snd s'))) = 4%nat) in Hlen.
      destruct (m_allocated_bank (m_arbiter (snd s')))
        as [|a0 [|a1 [|a2 [|a3 [|]]]]]; try discriminate.
      apply Forall_cons in Hall as [E0 Hall].
      apply Forall_cons in Hall as [E1 Hall].
      apply Forall_cons in Hall as [E2 Hall].
      apply Forall_cons in Hall as [E3 Hall].
      simpl. rewrite E0, E1, E2, E3. reflexivity.
Defined.

(** ** The queues of read requests and the state after [init] *)

Definition with_queue (arb : arbiter_t) (q : list (list op_t)) : arbiter_t :=
  {| m_num_banks := m_num_banks arb; m_num_collectors := m_num_collectors arb;
     m_allocated_bank := m_allocated_bank arb; m_queue := q;
     m_allocator_rr_head := m_allocator_rr_head arb;
     m_last_cu := m_last_cu arb; _inmatch := _inmatch arb;
     _outmatch := _outmatch arb; _request := _request arb |}.

(** if (op.valid()) { bank = op.get_bank(); m_queue[bank].push_back(op); }
    [None] when [bank] is no index of [m_queue]. *)
Definition queue_op (op : op_t) (arb : arbiter_t) : option arbiter_t :=
  if m_valid op then
    q ← m_queue arb !! m_bank op;
    Some (with_queue arb (<[m_bank op := q ++ [op]]> (m_queue arb)))
  else Some arb.

(** [add_read_requests(cu)]: [src] is the array [cu->get_operands()],
    MAX_REG_OPERANDS * 2 operands long, read from its first to its last. *)
Fixpoint add_read_requests (src : list op_t) (arb : arbiter_t)
  : option arbiter_t :=
  match src with
  | [] => Some arb
  | op :: src => arb' ← queue_op op arb; add_read_requests src arb'
  end.

(** The valid operands of [src] that go to bank [b]. *)
Definition requests_for (b : nat) (src : list op_t) : list op_t :=
  List.filter (λ op, m_valid op && (m_bank op =? b)%nat) src.

Lemma add_read_requests_spec src : ∀ arb arb',
  add_read_requests src arb = Some arb' →
  (∀ b q, m_queue arb !! b = Some q →
          m_queue arb' !! b = Some (q ++ requests_for b src))
  ∧ length (m_queue arb') = length (m_queue arb)
  ∧ with_queue arb' (m_queue arb) = arb
  ∧ (∀ op, op ∈ src → m_valid op = true →
           (m_bank op < length (m_queue arb))%nat).
Proof.
  induction src as [|op src IH]; intros arb arb' H; simpl in H.
  - simplify_eq. split; [|split; [done|split; [by destruct arb'|]]].
    + intros b q Hq. by rewrite app_nil_r.
    + intros op Hop. by apply elem_of_nil in Hop.
  - destruct (queue_op op arb) as [arb1|] eqn:E; simpl in H; [|done].
    apply IH in H as (Hq1 & Hlen1 & Hsame1 & Hrange1).
    unfold queue_op in E. destruct (m_valid op) eqn:Hv.
    + destruct (m_queue arb !! m_bank op) as [q0|] eqn:Hq0; simpl in E;
        [|done].
      simplify_eq. simpl in *. rewrite length_insert in *.
      split; [|split; [done|split]].
      * intros b q Hq. unfold requests_for. simpl. rewrite Hv. simpl.
        destruct (decide (m_bank op = b)) as [<-|Hne].
        -- rewrite Nat.eqb_refl. rewrite Hq0 in Hq. injection Hq as <-.
           rewrite (Hq1 (m_bank op) (q0 ++ [op])).
           ++ by rewrite <- app_assoc.
           ++ apply list_lookup_insert_eq. by eapply lookup_lt_Some.
        -- replace (m_bank op =? b)%nat with false
             by (symmetry; by apply Nat.eqb_neq).
           apply Hq1. by rewrite list_lookup_insert_ne.
      * clear Hq1 Hrange1 Hq0 IH. destruct arb, arb'. unfold with_queue.
        simpl in *. by subst.
      * intros op' [->|Hop']%elem_of_cons Hv'; [|by apply Hrange1].
        by eapply lookup_lt_Some.
    + simplify_eq. split; [|split; [done|split; [done|]]].
      * intros b q Hq. unfold requests_for. simpl. rewrite Hv. simpl.
        by apply Hq1.
      * intros op' [->|Hop']%elem_of_cons Hv'; [congruence|by apply Hrange1].
Qed.

Lemma add_read_requests_total src : ∀ arb,
  (∀ op, op ∈ src → m_valid op = true →
         (m_bank op < length (m_queue arb))%nat) →
  is_Some (add_read_requests src arb).
Proof.
  induction src as [|op src IH]; intros arb Hr; simpl; [by eexists|].
  unfold queue_op. destruct (m_valid op) eqn:Hv.
  - destruct (lookup_lt_is_Some_2 (m_queue arb) (m_bank op)) as [q Hq].
    { apply Hr; [by left|done]. }
    rewrite Hq. simpl. apply IH. simpl. rewrite length_insert.
    intros op' Hop'. apply Hr. by right.
  - simpl. apply IH. intros op' Hop'. apply Hr. by right.
Qed.

(** X4: [add_read_requests] appends every valid operand of the collector
    unit to the queue of its own bank, in the order of the operands, and
    touches nothing else; it stays within [m_queue] exactly when every
    valid operand names a bank of the arbiter. *)
Theorem add_read_requests_queues (src : list op_t) (arb : arbiter_t) :
  (is_Some (add_read_requests src arb)
   ↔ ∀ op, op ∈ src → m_valid op = true →
           (m_bank op < length (m_queue arb))%nat)
  ∧ ∀ arb', add_read_requests src arb = Some arb' →
      (∀ b q, m_queue arb !! b = Some q →
              m_queue arb' !! b = Some (q ++ requests_for b src))
      ∧ length (m_queue arb') = length (m_queue arb)
      ∧ m_allocated_bank arb' = m_allocated_bank arb
      ∧ m_num_banks arb' = m_num_banks arb
      ∧ m_num_collectors arb' = m_num_collectors arb
      ∧ m_allocator_rr_head arb' = m_allocator_rr_head arb
      ∧ m_last_cu arb' = m_last_cu arb
      ∧ (_inmatch arb' = _inmatch arb ∧ _outmatch arb' = _outmatch arb
         ∧ _request arb' = _request arb).
Proof.
  split.
  - split; [|apply add_read_requests_total].
    intros [arb' H]. by apply add_read_requests_spec in H as (_ & _ & _ & ?).
  - intros arb' H. apply add_read_requests_spec in H as (? & ? & Hs & _).
    split; [done|]. split; [done|]. by rewrite <- Hs.
Qed.

(** X2: [init] is fatal without a collector unit or without a bank;
    otherwise it leaves every bank idle, every queue empty, and for
    collector unit n the round-robin head n mod num_banks, a bank of the
    arbiter. *)
Theorem arbiter_init_state (num_cu num_banks : nat) :
  (init num_cu num_banks = None ↔ num_cu = 0%nat ∨ num_banks = 0%nat)
  ∧ ∀ arb, init num_cu num_banks = Some arb →
      m_num_banks arb = num_banks ∧ m_num_collectors arb = num_cu
      ∧ (∀ b, (b < num_banks)%nat → bank_idle b arb = Some true)
      ∧ (∀ b, (num_banks ≤ b)%nat → bank_idle b arb = None)
      ∧ m_queue arb = replicate num_banks []
      ∧ length (m_allocator_rr_head arb) = num_cu
      ∧ (∀ n, (n < num_cu)%nat →
              m_allocator_rr_head arb !! n = Some (n mod num_banks)%nat
              ∧ (n mod num_banks < num_banks)%nat).
Proof.
  unfold init. destruct num_cu as [|cu]; [simpl; split; [split; [by left|done]|done]|].
  destruct num_banks as [|nb]; [simpl; split; [split; [by right|done]|done]|].
  split; [split; [done|intros [?|?]; lia]|].
  remember (S cu) as num_cu. remember (S nb) as num_banks.
  replace (0 <? num_cu)%nat with true by (symmetry; apply Nat.ltb_lt; lia).
  replace (0 <? num_banks)%nat with true by (symmetry; apply Nat.ltb_lt; lia).
  simpl. intros arb [= <-]. simpl.
  split; [done|]. split; [done|].
  assert (Hlen : length (foldl (λ banks b, alter reset b banks)
                          (replicate num_banks allocation_new)
                          (seq 0 num_banks)) = num_banks)
    by (by rewrite reset_banks_length, length_replicate).
  split; [|split; [|split; [done|split]]].
  - intros b Hb. unfold bank_idle. simpl.
    destruct (lookup_lt_is_Some_2 _ b ltac:(by rewrite Hlen)) as [a Ha].
    rewrite Ha. simpl. f_equal. by eapply reset_banks_lookup.
  - intros b Hb. unfold bank_idle. simpl.
    by rewrite lookup_ge_None_2 by (by rewrite Hlen).
  - by rewrite length_map, length_seq.
  - intros n Hn. split; [|apply Nat.mod_upper_bound; lia].
    change (map (λ n0 : nat, (n0 mod num_banks)%nat) (seq 0 num_cu))
      with ((λ n0 : nat, (n0 mod num_banks)%nat) <$> seq 0 num_cu).
    rewrite list_lookup_fmap, lookup_seq_lt by done. done.
Qed.

(** X3: a bank takes a read or a write exactly when it is idle; it then
    holds that read or that write with its operand and is busy, and no
    other bank and no queue changes. *)
Theorem allocate_needs_idle (arb : arbiter_t) (bank : nat) (op : op_t) :
  length (m_allocated_bank arb) = m_num_banks arb →
  (is_Some (allocate_for_read bank op arb) ↔ bank_idle bank arb = Some true)
  ∧ (is_Some (allocate_bank_for_write bank op arb)
     ↔ bank_idle bank arb = Some true)
  ∧ ∀ arb',
      (allocate_for_read bank op arb = Some arb' →
       m_allocated_bank arb' !! bank
       = Some {| m_allocation := READ_ALLOC; m_op := op |})
      ∧ (allocate_bank_for_write bank op arb = Some arb' →
         m_allocated_bank arb' !! bank
         = Some {| m_allocation := WRITE_ALLOC; m_op := op |})
      ∧ (allocate_for_read bank op arb = Some arb'
         ∨ allocate_bank_for_write bank op arb = Some arb' →
         bank_idle bank arb' = Some false
         ∧ (∀ b, b ≠ bank →
              m_allocated_bank arb' !! b = m_allocated_bank arb !! b)
         ∧ m_num_banks arb' = m_num_banks arb
         ∧ m_queue arb' = m_queue arb).
Proof.
  intros Hlen.
  assert (Hiff : ∀ r, req_bank r = bank →
            (is_Some (exec_req r arb) ↔ bank_idle bank arb = Some true)).
  { intros r <-. split.
    - intros [arb' H]. apply exec_req_inv in H as (a & _ & Ha & Hf & _).
      unfold bank_idle. by rewrite Ha, <- Hf.
    - unfold bank_idle. intros H.
      destruct (m_allocated_bank arb !! req_bank r) as [a|] eqn:Ha;
        simpl in H; [|done].
      injection H as Hf. apply lookup_lt_Some in Ha as Hlt.
      rewrite Hlen in Hlt. apply Nat.ltb_lt in Hlt.
      destruct r; simpl in *;
        unfold allocate_for_read, allocate_bank_for_write, alloc_read,
          alloc_write; rewrite Hlt, Ha; simpl; rewrite Hf; simpl; by eexists. }
  split; [apply (Hiff (ReadReq bank op) eq_refl)|].
  split; [apply (Hiff (WriteReq bank op) eq_refl)|].
  assert (Hreq : ∀ r arb', req_bank r = bank → exec_req r arb = Some arb' →
            m_allocated_bank arb' !! bank = Some (req_alloc r)
            ∧ bank_idle bank arb' = Some false
            ∧ (∀ b, b ≠ bank →
                 m_allocated_bank arb' !! b = m_allocated_bank arb !! b)
            ∧ m_num_banks arb' = m_num_banks arb
            ∧ m_queue arb' = m_queue arb).
  { intros r arb' <- Hr.
    apply exec_req_inv in Hr as (a & Hlt & Ha & Hf & ->).
    unfold bank_idle. simpl.
    rewrite list_lookup_insert_eq by (by eapply lookup_lt_Some).
    split; [done|]. split; [by destruct r|]. split; [|done].
    intros b Hb. by rewrite list_lookup_insert_ne. }
  intros arb'. split; [|split].
  - intros H. by destruct (Hreq (ReadReq bank op) arb' eq_refl H).
  - intros H. by destruct (Hreq (WriteReq bank op) arb' eq_refl H).
  - intros [H|H].
    + by destruct (Hreq (ReadReq bank op) arb' eq_refl H) as (_ & ?).
    + by destruct (Hreq (WriteReq bank op) arb' eq_refl H) as (_ & ?).
Qed.

Lemma allocate_needs_idle_witness :
  ∃ arb', allocate_bank_for_write 1 (sample_op 0 0 1) sample_arbiter
          = Some arb'
          ∧ m_allocated_bank arb' !! 1%nat
            = Some {| m_allocation := WRITE_ALLOC; m_op := sample_op 0 0 1 |}
          ∧ bank_idle 1 arb' = Some false
          ∧ bank_idle 0 arb' = Some true.
Proof.
  destruct (allocate_needs_idle sample_arbiter 1 (sample_op 0 0 1) eq_refl)
    as (_ & H2 & H3).
  destruct (proj2 H2 eq_refl) as [arb' Ha].
  exists arb'. split; [exact Ha|].
  destruct (H3 arb') as (_ & Hw & Hrest).
  destruct (Hrest (or_intror Ha)) as (Hb & Ho & _).
  split; [exact (Hw Ha)|]. split; [exact Hb|].
  unfold bank_idle. rewrite Ho by discriminate. reflexivity.
Defined.

End Arbiter.

(* ================================================================== *)
(** * opndcoll_rfu.hpp: collector units *)
(* ================================================================== *)

Module CollectorUnit.
Import OpndColl.

Section WithOperands.
(** [MAX_REG_OPERANDS] comes from hal.hpp, which is not among the
    sources; the bitset [m_not_ready] has [MAX_REG_OPERANDS * 2] bits. *)
Variable MAX_REG_OPERANDS : Z.

(** [class collector_unit_t]; [m_warp] is [None] for an empty
    instruction, the register sets are handles. *)
Record collector_unit_t := {
  m_free : bool;
  m_cuid : Z;
  m_warp_id : Z;
  m_warp : option Z;
  m_output_register : option Z;
  m_src_op : list op_t;
  m_not_ready : Z;
  m_num_banks : Z;
  m_bank_warp_shift : Z;
  m_num_banks_per_sched : Z;
  m_sub_core_model : bool;
  m_reg_id : Z
}.

Definition with_not_ready (cu : collector_unit_t) (mask : Z)
  : collector_unit_t :=
  {| m_free := m_free cu; m_cuid := m_cuid cu; m_warp_id := m_warp_id cu;
     m_warp := m_warp cu; m_output_register := m_output_register cu;
     m_src_op := m_src_op cu; m_not_ready := mask;
     m_num_banks := m_num_banks cu;
     m_bank_warp_shift := m_bank_warp_shift cu;
     m_num_banks_per_sched := m_num_banks_per_sched cu;
     m_sub_core_model := m_sub_core_model cu; m_reg_id := m_reg_id cu |}.

(** [collect_operand(op) { m_not_ready.reset(op); }];
    [std::bitset::reset(pos)] throws [std::out_of_range] when [pos] is
    not a position of the bitset: [None]. *)
Definition collect_operand (op : Z) (cu : collector_unit_t)
  : option collector_unit_t :=
  if (0 <=? op) && (op <? MAX_REG_OPERANDS * 2)
  then Some (with_not_ready cu (Z.clearbit (m_not_ready cu) op))
  else None.

(** The operands collected for one instruction, in the order of the
    grants. *)
Fixpoint collect_operands (ops : list Z) (cu : collector_unit_t)
  : option collector_unit_t :=
  match ops with
  | [] => Some cu
  | op :: ops => cu' ← collect_operand op cu; collect_operands ops cu'
  end.

(** Modelled from the spec: [collector_unit_t::dispatch] is declared in
    the header and defined in opndcoll_rfu.cc, which is not among the
    sources.  The specification has dispatch hand the instruction to the
    output register, make the unit free and reset [not_ready] to
    all-zero. *)
Definition dispatch (cu : collector_unit_t) : collector_unit_t :=
  {| m_free := true; m_cuid := m_cuid cu; m_warp_id := m_warp_id cu;
     m_warp := None; m_output_register := None;
     m_src_op := m_src_op cu; m_not_ready := 0;
     m_num_banks := m_num_banks cu;
     m_bank_warp_shift := m_bank_warp_shift cu;
     m_num_banks_per_sched := m_num_banks_per_sched cu;
     m_sub_core_model := m_sub_core_model cu; m_reg_id := m_reg_id cu |}.

(** Bitwise order on masks: every bit set in [a] is set in [b]. *)
Definition mask_le (a b : Z) : Prop :=
  ∀ i, Z.testbit a i = true → Z.testbit b i = true.

Lemma mask_le_refl a : mask_le a a.
Proof. by intros i. Qed.

Lemma mask_le_trans a b c : mask_le a b → mask_le b c → mask_le a c.
Proof. intros H1 H2 i Hi. by apply H2, H1. Qed.

Lemma clearbit_mask_le a op : mask_le (Z.clearbit a op) a.
Proof.
  intros i. destruct (decide (i = op)) as [->|Hne].
  - rewrite Z.clearbit_eq. done.
  - rewrite Z.clearbit_neq by done. done.
Qed.

Lemma with_not_ready_same cu : with_not_ready cu (m_not_ready cu) = cu.
Proof. by destruct cu. Qed.

Lemma collect_operand_Some op cu cu' :
  collect_operand op cu = Some cu' →
  0 ≤ op < MAX_REG_OPERANDS * 2
  ∧ m_not_ready cu' = Z.clearbit (m_not_ready cu) op
  ∧ with_not_ready cu' (m_not_ready cu) = cu.
Proof.
  unfold collect_operand.
  destruct (0 <=? op) eqn:H0; simpl; [|done].
  destruct (op <? MAX_REG_OPERANDS * 2) eqn:H1; simpl; [|done].
  intros [= <-]. split; [lia|]. split; [done|]. by destruct cu.
Qed.

Lemma collect_operands_Some ops : ∀ cu cu',
  collect_operands ops cu = Some cu' →
  mask_le (m_not_ready cu') (m_not_ready cu)
  ∧ with_not_ready cu' (m_not_ready cu) = cu.
Proof.
  induction ops as [|op ops IH]; intros cu cu'; simpl.
  - intros [= <-]. split; [apply mask_le_refl|apply with_not_ready_same].
  - destruct (collect_operand op cu) as [cu1|] eqn:E; simpl; [|done].
    intros H. apply IH in H as [Hle Hsame].
    apply collect_operand_Some in E as (_ & Hm & Hs).
    split.
    + eapply mask_le_trans; [done|]. rewrite Hm. apply clearbit_mask_le.
    + rewrite <- Hs. rewrite <- Hsame at 2. done.
Qed.

Lemma collect_operands_total ops cu :
  Forall (λ op, 0 ≤ op < MAX_REG_OPERANDS * 2) ops →
  is_Some (collect_operands ops cu).
Proof.
  intros H. revert cu. induction H as [|op ops Hop _ IH]; intros cu; simpl.
  - by eexists.
  - unfold collect_operand.
    replace ((0 <=? op) && (op <? MAX_REG_OPERANDS * 2)) with true
      by (symmetry; apply andb_true_iff; lia).
    simpl. apply IH.
Qed.
End WithOperands.

Definition sample_cu : collector_unit_t :=
  {| m_free := false; m_cuid := 2; m_warp_id := 5; m_warp := Some 16;
     m_output_register := Some 1; m_src_op := [];
     m_not_ready := 11; m_num_banks := 16; m_bank_warp_shift := 5;
     m_num_banks_per_sched := 4; m_sub_core_model := false; m_reg_id := 0 |}.

(** C8: [collect_operand(op)] clears bit [op] of [m_not_ready], and that
    only: the mask shrinks bitwise with every operand collected and the
    other members stay as they are; a position of the bitset is always
    accepted; dispatch leaves the mask all-zero. *)
Theorem collect_operand_monotone (MAX_REG_OPERANDS : Z) :
  (∀ op cu, 0 ≤ op < MAX_REG_OPERANDS * 2 →
     collect_operand MAX_REG_OPERANDS op cu
     = Some (with_not_ready cu (Z.clearbit (m_not_ready cu) op)))
  ∧ (∀ op cu cu', collect_operand MAX_REG_OPERANDS op cu = Some cu' →
       (∀ i, Z.testbit (m_not_ready cu') i
             = Z.testbit (m_not_ready cu) i && negb (i =? op))
       ∧ mask_le (m_not_ready cu') (m_not_ready cu)
       ∧ with_not_ready cu' (m_not_ready cu) = cu)
  ∧ (∀ ops cu cu', collect_operands MAX_REG_OPERANDS ops cu = Some cu' →
       mask_le (m_not_ready cu') (m_not_ready cu)
       ∧ with_not_ready cu' (m_not_ready cu) = cu
       ∧ m_not_ready (dispatch cu') = 0
       ∧ m_free (dispatch cu') = true)
  ∧ (∀ ops cu, Forall (λ op, 0 ≤ op < MAX_REG_OPERANDS * 2) ops →
       is_Some (collect_operands MAX_REG_OPERANDS ops cu)).
Proof.
  split; [|split; [|split]].
  - intros op cu Hop. unfold collect_operand.
    replace ((0 <=? op) && (op <? MAX_REG_OPERANDS * 2)) with true
      by (symmetry; apply andb_true_iff; lia).
    done.
  - intros op cu cu' H.
    apply collect_operand_Some in H as (Hop & Hm & Hs).
    split; [|split; [|done]].
    + intros i. rewrite Hm. rewrite Z.clearbit_eqb.
      f_equal. f_equal. apply Z.eqb_sym.
    + rewrite Hm. apply clearbit_mask_le.
  - intros ops cu cu' H. apply collect_operands_Some in H as [H1 H2]. done.
  - intros ops cu H. by apply collect_operands_total.
Qed.

Lemma collect_operand_monotone_witness :
  ∃ cu', collect_operands 32 [0; 3; 1] sample_cu = Some cu'
         ∧ mask_le (m_not_ready cu') (m_not_ready sample_cu)
         ∧ m_not_ready cu' = 0.
Proof.
  destruct (collect_operand_monotone 32) as (_ & _ & H & _).
  destruct (collect_operands 32 [0; 3; 1] sample_cu) as [cu'|] eqn:E;
    [|vm_compute in E; discriminate].
  exists cu'. split; [reflexivity|]. split; [by apply (H _ _ _ E)|].
  vm_compute in E. by injection E as <-.
Defined.

(** ** Collecting operands in any order *)

Lemma clearbit_comm x a b :
  Z.clearbit (Z.clearbit x a) b = Z.clearbit (Z.clearbit x b) a.
Proof.
  apply Z.bits_inj'. intros i _. rewrite !Z.clearbit_eqb.
  by rewrite <- !andb_assoc, (andb_comm (negb (a =? i))).
Qed.

Lemma clearbit_idem x a : Z.clearbit (Z.clearbit x a) a = Z.clearbit x a.
Proof.
  apply Z.bits_inj'. intros i _. rewrite !Z.clearbit_eqb.
  by rewrite <- andb_assoc, andb_diag.
Qed.

(** X5: the order in which two operands are collected does not matter,
    an operand collected twice is collected once, and
    [collect_operand(op)] throws exactly when [op] is no position of the
    bitset. *)
Theorem collect_operand_order (MAX_REG_OPERANDS : Z) (a b : Z)
    (cu : collector_unit_t) :
  (collect_operand MAX_REG_OPERANDS a cu
     ≫= collect_operand MAX_REG_OPERANDS b)
  = (collect_operand MAX_REG_OPERANDS b cu
       ≫= collect_operand MAX_REG_OPERANDS a)
  ∧ (collect_operand MAX_REG_OPERANDS a cu
       ≫= collect_operand MAX_REG_OPERANDS a)
    = collect_operand MAX_REG_OPERANDS a cu
  ∧ (collect_operand MAX_REG_OPERANDS a cu = None
     ↔ ¬ (0 ≤ a < MAX_REG_OPERANDS * 2)).
Proof.
  assert (Hin : ∀ op, (0 <=? op) && (op <? MAX_REG_OPERANDS * 2) = true
                      ↔ 0 ≤ op < MAX_REG_OPERANDS * 2).
  { intros op. rewrite andb_true_iff, Z.leb_le, Z.ltb_lt. done. }
  unfold collect_operand. split; [|split].
  - destruct ((0 <=? a) && (a <? MAX_REG_OPERANDS * 2)) eqn:Ha;
      destruct ((0 <=? b) && (b <? MAX_REG_OPERANDS * 2)) eqn:Hb; simpl;
      rewrite ?Ha, ?Hb; simpl; try done.
    unfold with_not_ready. simpl. by rewrite clearbit_comm.
  - destruct ((0 <=? a) && (a <? MAX_REG_OPERANDS * 2)) eqn:Ha; simpl;
      rewrite ?Ha; simpl; [|done].
    unfold with_not_ready. simpl. by rewrite clearbit_idem.
  - destruct ((0 <=? a) && (a <? MAX_REG_OPERANDS * 2)) eqn:Ha.
    + apply Hin in Ha. split; [done|]. intros H. by exfalso.
    + split; [|done]. intros _ H. apply Hin in H. congruence.
Qed.

End CollectorUnit.

(* ================================================================== *)
(** * opndcoll_rfu.hpp: dispatch units *)
(* ================================================================== *)

Module DispatchUnit.

Section WithReady.
(** The collector units: [ready()] is declared in the header and defined
    in opndcoll_rfu.cc, so it is any predicate on a unit. *)
Context {collector_unit_t : Type}.
Variable ready : collector_unit_t → bool.

(** [class dispatch_unit_t]; the vector [*m_collector_units] is shared
    with the unit that owns it and is passed along. All counters are
    [unsigned]. *)
Record dispatch_unit_t := {
  m_num_collectors : Z;
  m_last_cu : Z;
  m_next_cu : Z;
  m_sub_core_model : bool;
  m_num_warp_scheds : Z
}.

Definition with_last_cu (du : dispatch_unit_t) (c : Z) : dispatch_unit_t :=
  {| m_num_collectors := m_num_collectors du; m_last_cu := c;
     m_next_cu := m_next_cu du; m_sub_core_model := m_sub_core_model du;
     m_num_warp_scheds := m_num_warp_scheds du |}.

(** for (n = 0; n < m_num_collectors; n++) { c = ...; if ready ... }
    with [fuel] iterations left; the result is the unit updated and the
    index of the collector unit returned, [None] for NULL. *)
Fixpoint find_ready_loop (fuel : nat) (n : Z) (rr_increment : Z)
    (du : dispatch_unit_t) (cus : list collector_unit_t)
  : option (dispatch_unit_t * option Z) :=
  match fuel with
  | O => Some (du, None)
  | S fuel =>
      let c := wrap32 (m_last_cu du + n + rr_increment)
                 mod m_num_collectors du in
      cu ← cus !! Z.to_nat c;
      if ready cu then Some (with_last_cu du c, Some c)
      else find_ready_loop fuel (n + 1) rr_increment du cus
  end.

(** [find_ready()]; the outer [None] is a division by zero or an index
    outside the vector. *)
Definition find_ready (du : dispatch_unit_t) (cus : list collector_unit_t)
  : option (dispatch_unit_t * option Z) :=
  check (negb (m_num_warp_scheds du =? 0));;
  let cusPerSched := m_num_collectors du / m_num_warp_scheds du in
  rr_increment ←
    (if m_sub_core_model du
     then check (negb (cusPerSched =? 0));;
          Some (wrap32 (cusPerSched - m_last_cu du mod cusPerSched))
     else Some 1);
  find_ready_loop (Z.to_nat (m_num_collectors du)) 0 rr_increment du cus.

(** The rotation step and the order of the scan, as the claim words
    them. *)
Definition rr_inc (du : dispatch_unit_t) : Z :=
  if m_sub_core_model du
  then m_num_collectors du / m_num_warp_scheds du
       - m_last_cu du mod (m_num_collectors du / m_num_warp_scheds du)
  else 1.

Definition scan_order (du : dispatch_unit_t) : list Z :=
  (λ n, (m_last_cu du + n + rr_inc du) mod m_num_collectors du)
    <$> seqZ 0 (m_num_collectors du).

Definition ready_at (cus : list collector_unit_t) (c : Z) : bool :=
  match cus !! Z.to_nat c with Some cu => ready cu | None => false end.

Definition first_ready (du : dispatch_unit_t)
    (cus : list collector_unit_t) : option Z :=
  List.find (ready_at cus) (scan_order du).

(** A dispatch unit over its vector, with counters that do not wrap. *)
Record du_wf (du : dispatch_unit_t) (cus : list collector_unit_t) : Prop := {
  wf_size : m_num_collectors du = Z.of_nat (length cus);
  wf_scheds : 0 < m_num_warp_scheds du;
  wf_sub_core :
    m_sub_core_model du = true → m_num_warp_scheds du ≤ m_num_collectors du;
  wf_last : 0 ≤ m_last_cu du;
  wf_no_wrap : m_last_cu du + 2 * m_num_collectors du ≤ UINT_MOD
}.

Lemma rr_inc_bounds du cus :
  du_wf du cus → 1 ≤ rr_inc du ≤ Z.max 1 (m_num_collectors du).
Proof.
  intros [Hsz Hs Hsub Hl Hw]. unfold rr_inc.
  destruct (m_sub_core_model du); [|lia].
  specialize (Hsub eq_refl).
  set (N := m_num_collectors du) in *.
  set (S := m_num_warp_scheds du) in *.
  assert (1 ≤ N / S) by (apply Z.div_le_lower_bound; lia).
  assert (N / S ≤ N) by (apply Z.div_le_upper_bound; nia).
  pose proof (Z.mod_pos_bound (m_last_cu du) (N / S)). lia.
Qed.

Lemma find_ready_loop_spec du cus (Hwf : du_wf du cus) fuel : ∀ n,
  0 ≤ n → n + Z.of_nat fuel ≤ m_num_collectors du →
  find_ready_loop fuel n (rr_inc du) du cus
  = Some match List.find (ready_at cus)
                 ((λ m, (m_last_cu du + m + rr_inc du)
                          mod m_num_collectors du)
                    <$> seqZ n (Z.of_nat fuel)) with
         | Some c => (with_last_cu du c, Some c)
         | None => (du, None)
         end.
Proof.
  pose proof (rr_inc_bounds du cus Hwf) as Hinc.
  destruct Hwf as [Hsz Hs Hsub Hl Hw].
  induction fuel as [|fuel IH]; intros n Hn Hle; [done|].
  rewrite Nat2Z.inj_succ, seqZ_cons by lia. simpl.
  unfold wrap32. rewrite (Z.mod_small (_ + _ + _) UINT_MOD) by lia.
  set (c := (m_last_cu du + n + rr_inc du) mod m_num_collectors du).
  assert (0 ≤ c < m_num_collectors du) as Hc
    by (apply Z.mod_pos_bound; lia).
  destruct (lookup_lt_is_Some_2 cus (Z.to_nat c)) as [cu Hcu]; [lia|].
  unfold ready_at at 1. rewrite Hcu. simpl.
  destruct (ready cu); [done|].
  rewrite IH by lia. by replace (Z.pred (Z.succ (Z.of_nat fuel)))
    with (Z.of_nat fuel) by lia.
Qed.

Lemma scan_order_covers du cus c :
  du_wf du cus → 0 ≤ c < m_num_collectors du → c ∈ scan_order du.
Proof.
  intros Hwf Hc. unfold scan_order.
  set (N := m_num_collectors du) in *.
  apply list_elem_of_fmap.
  exists ((c - m_last_cu du - rr_inc du) mod N). split.
  - rewrite Z.add_comm, Z.add_assoc, Z.add_comm.
    rewrite Z.add_mod_idemp_l by lia.
    replace (c - m_last_cu du - rr_inc du + (rr_inc du + m_last_cu du))
      with c by lia.
    by rewrite Z.mod_small.
  - apply elem_of_seqZ.
    pose proof (Z.mod_pos_bound (c - m_last_cu du - rr_inc du) N). lia.
Qed.

Lemma first_ready_None du cus :
  du_wf du cus →
  first_ready du cus = None ↔ ∀ cu, cu ∈ cus → ready cu = false.
Proof.
  intros Hwf. unfold first_ready. split.
  - intros Hnone cu Hcu.
    apply list_elem_of_lookup in Hcu as [i Hi].
    assert (Z.of_nat i ∈ scan_order du) as Hmem.
    { eapply scan_order_covers; [done|].
      apply lookup_lt_Some in Hi. destruct Hwf. lia. }
    apply list_elem_of_In in Hmem.
    pose proof (List.find_none _ _ Hnone _ Hmem) as H.
    unfold ready_at in H. by rewrite Nat2Z.id, Hi in H.
  - intros Hall. destruct (List.find _ _) as [c|] eqn:E; [|done].
    apply List.find_some in E as [_ E]. unfold ready_at in E.
    destruct (cus !! Z.to_nat c) as [cu|] eqn:Hc; [|done].
    rewrite Hall in E; [done|]. by eapply list_elem_of_lookup_2.
Qed.

Lemma first_ready_Some du cus c :
  first_ready du cus = Some c →
  ∃ k, scan_order du !! k = Some c ∧ ready_at cus c = true
       ∧ ∀ j c', (j < k)%nat → scan_order du !! j = Some c' →
                 ready_at cus c' = false.
Proof.
  unfold first_ready. generalize (scan_order du) as l.
  induction l as [|x l IH]; simpl; [done|].
  destruct (ready_at cus x) eqn:Hx.
  - intros [= <-]. exists 0%nat. split; [done|]. split; [done|]. lia.
  - intros H. apply IH in H as (k & Hk & Hr & Hlt).
    exists (S k). split; [done|]. split; [done|].
    intros [|j] c' Hj; simpl; [by intros [= <-]|].
    apply Hlt. lia.
Qed.
End WithReady.

(** Four collector units of which the third and the fourth are ready; two
    schedulers. *)
Definition sample_du (sub_core : bool) (last : Z) : dispatch_unit_t :=
  {| m_num_collectors := 4; m_last_cu := last; m_next_cu := 0;
     m_sub_core_model := sub_core; m_num_warp_scheds := 2 |}.

Definition sample_cus : list bool := [false; false; true; true].

Lemma sample_du_wf sub_core :
  du_wf (sample_du sub_core 2) sample_cus.
Proof.
  split; simpl; try done; unfold UINT_MOD; lia.
Qed.

(** C4: [find_ready] scans the collector units in the order
    c = (last_cu + n + inc) mod N for n = 0 .. N-1, with
    inc = cusPerSched - last_cu mod cusPerSched in sub-core mode and 1
    otherwise, returns the first one that is ready and records it in
    [m_last_cu] (the index returned is the new [m_last_cu]; on NULL
    [m_last_cu] stays; no other member changes), and returns NULL exactly
    when no collector unit is ready. *)
Theorem find_ready_scan {collector_unit_t : Type}
    (ready : collector_unit_t → bool)
    (du : dispatch_unit_t) (cus : list collector_unit_t) :
  du_wf du cus →
  ∃ du' r,
    find_ready ready du cus = Some (du', r)
    ∧ r = first_ready ready du cus
    ∧ du' = match r with Some c => with_last_cu du c | None => du end
    ∧ m_last_cu du' = match r with Some c => c | None => m_last_cu du end
    ∧ (m_num_collectors du' = m_num_collectors du
       ∧ m_next_cu du' = m_next_cu du
       ∧ m_sub_core_model du' = m_sub_core_model du
       ∧ m_num_warp_scheds du' = m_num_warp_scheds du)
    ∧ (∀ c, r = Some c →
         ∃ k, scan_order du !! k = Some c ∧ ready_at ready cus c = true
              ∧ ∀ j c', (j < k)%nat → scan_order du !! j = Some c' →
                        ready_at ready cus c' = false)
    ∧ (r = None ↔ ∀ cu, cu ∈ cus → ready cu = false).
Proof.
  intros Hwf.
  exists (match first_ready ready du cus with
          | Some c => with_last_cu du c | None => du end),
         (first_ready ready du cus).
  split; [|split; [done|split; [done|split; [|split; [|split]]]]].
  - pose proof (rr_inc_bounds du cus Hwf) as Hinc.
    pose proof (find_ready_loop_spec ready du cus Hwf
                  (Z.to_nat (m_num_collectors du)) 0) as Hloop.
    destruct Hwf as [Hsz Hs Hsub Hl Hw].
    unfold find_ready.
    replace (m_num_warp_scheds du =? 0) with false
      by (symmetry; apply Z.eqb_neq; lia). simpl.
    assert (Hrr : (if m_sub_core_model du
                   then check (negb (m_num_collectors du
                                       / m_num_warp_scheds du =? 0));;
                        Some (wrap32 (m_num_collectors du
                                        / m_num_warp_scheds du
                                      - m_last_cu du
                                        mod (m_num_collectors du
                                               / m_num_warp_scheds du)))
                   else Some 1) = Some (rr_inc du)).
    { unfold rr_inc in *. destruct (m_sub_core_model du); [|done].
      specialize (Hsub eq_refl).
      assert (1 ≤ m_num_collectors du / m_num_warp_scheds du)
        by (apply Z.div_le_lower_bound; lia).
      replace (_ / _ =? 0) with false by (symmetry; apply Z.eqb_neq; lia).
      simpl. unfold wrap32. rewrite Z.mod_small; [done|]. lia. }
    rewrite Hrr. simpl. rewrite Hloop by lia.
    rewrite Z2Nat.id by lia. unfold first_ready, scan_order.
    clear Hloop.
    match goal with
    | |- context [List.find ?f ?l] => by destruct (List.find f l)
    end.
  - by destruct (first_ready ready du cus).
  - by destruct (first_ready ready du cus).
  - intros c Hc. by apply first_ready_Some.
  - by apply first_ready_None.
Qed.

Lemma find_ready_scan_witness :
  (∃ du', find_ready id (sample_du true 2) sample_cus = Some (du', Some 2)
          ∧ m_last_cu du' = 2
          ∧ du' = {| m_num_collectors := 4; m_last_cu := 2; m_next_cu := 0;
                     m_sub_core_model := true; m_num_warp_scheds := 2 |})
  ∧ (∃ du', find_ready id (sample_du false 2) sample_cus = Some (du', Some 3)
            ∧ m_last_cu du' = 3
            ∧ du' = {| m_num_collectors := 4; m_last_cu := 3; m_next_cu := 0;
                       m_sub_core_model := false; m_num_warp_scheds := 2 |}).
Proof.
  split.
  - destruct (find_ready_scan id (sample_du true 2) sample_cus
                (sample_du_wf true))
      as (du' & r & Hf & -> & _ & Hl & (H1 & H2 & H3 & H4) & _).
    exists du'. split; [exact Hf|]. split; [exact Hl|].
    destruct du'; simpl in *. by subst.
  - destruct (find_ready_scan id (sample_du false 2) sample_cus
                (sample_du_wf false))
      as (du' & r & Hf & -> & _ & Hl & (H1 & H2 & H3 & H4) & _).
    exists du'. split; [exact Hf|]. split; [exact Hl|].
    destruct du'; simpl in *. by subst.
Defined.

(** ** The rotation of [find_ready] *)

(** [dispatch_unit_t(cus)]: m_last_cu = 0; m_num_collectors =
    cus->size(); m_next_cu = 0;  the two members that only [init] sets
    hold what they held. *)
Definition dispatch_unit_new {A} (cus : list A) (sub_core : bool) (scheds : Z)
  : dispatch_unit_t :=
  {| m_num_collectors := wrap32 (Z.of_nat (length cus)); m_last_cu := 0;
     m_next_cu := 0; m_sub_core_model := sub_core;
     m_num_warp_scheds := scheds |}.

(** [init(sub_core_model, num_warp_scheds)] *)
Definition init (sub_core_model : bool) (num_warp_scheds : Z)
    (du : dispatch_unit_t) : dispatch_unit_t :=
  {| m_num_collectors := m_num_collectors du; m_last_cu := m_last_cu du;
     m_next_cu := m_next_cu du; m_sub_core_model := sub_core_model;
     m_num_warp_scheds := num_warp_scheds |}.

(** The scan as a rotation that starts at [start]. *)
Definition rotation (start N : Z) : list Z :=
  (λ n, (start + n) mod N) <$> seqZ 0 N.

Lemma scan_order_rotation du :
  scan_order du = rotation (m_last_cu du + rr_inc du) (m_num_collectors du).
Proof.
  unfold scan_order, rotation. apply list_fmap_ext. intros _ n _.
  f_equal. lia.
Qed.

Lemma rotation_inj start N x y :
  0 ≤ x < N → 0 ≤ y < N → (start + x) mod N = (start + y) mod N → x = y.
Proof.
  intros Hx Hy H.
  assert (Hd : (x - y) mod N = 0).
  { replace (x - y) with ((start + x) - (start + y)) by lia.
    rewrite Zminus_mod, H, Z.sub_diag. apply Z.mod_0_l. lia. }
  apply Z.mod_divide in Hd as [k Hk]; [|lia].
  assert (k = 0) by nia. lia.
Qed.

Lemma rotation_perm start N : 0 ≤ N → rotation start N ≡ₚ seqZ 0 N.
Proof.
  intros HN. unfold rotation.
  apply submseteq_length_Permutation;
    [|by rewrite length_fmap].
  apply NoDup_submseteq.
  - apply NoDup_fmap_2_strong; [|apply NoDup_seqZ].
    intros x y Hx%elem_of_seqZ Hy%elem_of_seqZ. apply rotation_inj; lia.
  - intros c (n & -> & Hn%elem_of_seqZ)%list_elem_of_fmap.
    apply elem_of_seqZ. pose proof (Z.mod_pos_bound (start + n) N). lia.
Qed.

Lemma find_ready_first {collector_unit_t : Type}
    (ready : collector_unit_t → bool) du cus :
  du_wf du cus →
  find_ready ready du cus
  = Some match first_ready ready du cus with
         | Some c => (with_last_cu du c, Some c)
         | None => (du, None)
         end.
Proof.
  intros Hwf.
  pose proof (rr_inc_bounds du cus Hwf) as Hinc.
  pose proof (find_ready_loop_spec ready du cus Hwf
                (Z.to_nat (m_num_collectors du)) 0) as Hloop.
  destruct Hwf as [Hsz Hs Hsub Hl Hw].
  unfold find_ready.
  replace (m_num_warp_scheds du =? 0) with false
    by (symmetry; apply Z.eqb_neq; lia).
  simpl.
  assert (Hrr : (if m_sub_core_model du
                 then check (negb (m_num_collectors du
                                     / m_num_warp_scheds du =? 0));;
                      Some (wrap32 (m_num_collectors du
                                      / m_num_warp_scheds du
                                    - m_last_cu du
                                      mod (m_num_collectors du
                                             / m_num_warp_scheds du)))
                 else Some 1) = Some (rr_inc du)).
  { unfold rr_inc in *. destruct (m_sub_core_model du); [|done].
    specialize (Hsub eq_refl).
    assert (1 ≤ m_num_collectors du / m_num_warp_scheds du)
      by (apply Z.div_le_lower_bound; lia).
    replace (_ / _ =? 0) with false by (symmetry; apply Z.eqb_neq; lia).
    simpl. unfold wrap32. rewrite Z.mod_small; [done|]. lia. }
  rewrite Hrr. simpl. rewrite Hloop by lia.
  rewrite Z2Nat.id by lia. done.
Qed.

Lemma first_ready_range {collector_unit_t : Type}
    (ready : collector_unit_t → bool) du cus c :
  du_wf du cus → first_ready ready du cus = Some c →
  0 ≤ c < m_num_collectors du ∧ ready_at ready cus c = true.
Proof.
  intros Hwf H. unfold first_ready in H.
  apply List.find_some in H as [Hin Hr]. split; [|done].
  apply list_elem_of_In in Hin. unfold scan_order in Hin.
  apply list_elem_of_fmap in Hin as (n & -> & Hn%elem_of_seqZ).
  apply Z.mod_pos_bound. lia.
Qed.

(** A ready collector unit at the head of the scan is the one handed
    out. *)
Lemma find_ready_head {collector_unit_t : Type}
    (ready : collector_unit_t → bool) du cus c :
  du_wf du cus → head (scan_order du) = Some c →
  ready_at ready cus c = true →
  ∃ du', find_ready ready du cus = Some (du', Some c) ∧ m_last_cu du' = c.
Proof.
  intros Hwf Hh Hr. rewrite find_ready_first by done. unfold first_ready.
  destruct (scan_order du) as [|x l]; [done|].
  simpl in Hh. injection Hh as ->. simpl. rewrite Hr. by eexists.
Qed.

(** X6: one call of [find_ready] looks at every collector unit once:
    what it returns is the first ready unit of a list that holds each of
    0, 1, ..., N-1 once, a rotation of them. *)
Theorem scan_visits_each_once {collector_unit_t : Type}
    (ready : collector_unit_t → bool)
    (du : dispatch_unit_t) (cus : list collector_unit_t) :
  du_wf du cus →
  ∃ order,
    order ≡ₚ seqZ 0 (Z.of_nat (length cus))
    ∧ NoDup order
    ∧ length order = length cus
    ∧ order = rotation (m_last_cu du + rr_inc du) (Z.of_nat (length cus))
    ∧ ∃ du', find_ready ready du cus
             = Some (du', List.find (ready_at ready cus) order).
Proof.
  intros Hwf. exists (scan_order du).
  pose proof (find_ready_first ready du cus Hwf) as Hf.
  destruct Hwf as [Hsz _ _ _ _].
  assert (Hp : scan_order du ≡ₚ seqZ 0 (Z.of_nat (length cus))).
  { rewrite scan_order_rotation, Hsz. apply rotation_perm. lia. }
  split; [done|]. split; [|split; [|split]].
  - rewrite Hp. apply NoDup_seqZ.
  - rewrite Hp, length_seqZ. lia.
  - by rewrite scan_order_rotation, Hsz.
  - rewrite Hf. unfold first_ready.
    destruct (List.find _ _); by eexists.
Qed.

(** X7: the collector unit that [find_ready] hands out is a ready unit of
    the vector, and without sub-cores it is the last one the next call
    looks at, which starts with its successor: round robin. *)
Theorem round_robin_last {collector_unit_t : Type}
    (ready : collector_unit_t → bool)
    (du du' : dispatch_unit_t) (cus : list collector_unit_t) (c : Z) :
  du_wf du cus → 3 * m_num_collectors du ≤ UINT_MOD →
  find_ready ready du cus = Some (du', Some c) →
  0 ≤ c < Z.of_nat (length cus)
  ∧ ready_at ready cus c = true
  ∧ m_last_cu du' = c
  ∧ du_wf du' cus
  ∧ (m_sub_core_model du = false →
     head (scan_order du') = Some ((c + 1) mod Z.of_nat (length cus))
     ∧ last (scan_order du') = Some c).
Proof.
  intros Hwf H3 H. rewrite (find_ready_first ready du cus Hwf) in H.
  destruct (first_ready ready du cus) as [c'|] eqn:Hf; [|done].
  injection H as <- <-.
  destruct (first_ready_range ready du cus c' Hwf Hf) as [Hc Hr].
  destruct Hwf as [Hsz Hs Hsub Hl Hw]. rewrite <- Hsz.
  split; [done|]. split; [done|]. split; [done|]. split.
  { split; simpl; try done; lia. }
  intros Hsc. rewrite scan_order_rotation. unfold rr_inc. simpl.
  rewrite Hsc. unfold rotation.
  set (N := m_num_collectors du) in *.
  split.
  - rewrite seqZ_cons by lia. simpl. f_equal. f_equal. lia.
  - replace (seqZ 0 N) with (seqZ 0 (N - 1) ++ [N - 1]).
    + rewrite fmap_app. simpl. rewrite last_snoc. f_equal.
      replace (c' + 1 + (N - 1)) with (c' + 1 * N) by lia.
      rewrite Z.mod_add by lia. apply Z.mod_small. lia.
    + replace N with ((N - 1) + 1) at 3 by lia.
      rewrite seqZ_app by lia. by f_equal.
Qed.

(** X8: in sub-core mode, with the collector units divided evenly among
    the schedulers, a scan begins at the first collector unit of a
    scheduler, the one after the scheduler of [m_last_cu]: when that
    collector unit is ready, [find_ready] hands it out. *)
Theorem sub_core_scan_start {collector_unit_t : Type}
    (ready : collector_unit_t → bool)
    (du : dispatch_unit_t) (cus : list collector_unit_t) :
  du_wf du cus → m_sub_core_model du = true →
  m_num_collectors du mod m_num_warp_scheds du = 0 →
  let cusPerSched := m_num_collectors du / m_num_warp_scheds du in
  let start :=
    cusPerSched * ((m_last_cu du / cusPerSched + 1) mod m_num_warp_scheds du) in
  head (scan_order du) = Some start
  ∧ (ready_at ready cus start = true →
     ∃ du', find_ready ready du cus = Some (du', Some start)
            ∧ m_last_cu du' = start).
Proof.
  intros Hwf Hsc Hdiv cps start.
  assert (Hhead : head (scan_order du) = Some start);
    [|split; [done|by apply find_ready_head]].
  unfold start. clear start.
  pose proof (rr_inc_bounds du cus Hwf) as Hinc.
  destruct Hwf as [Hsz Hs Hsub Hl Hw]. specialize (Hsub Hsc).
  set (N := m_num_collectors du) in *. set (S := m_num_warp_scheds du) in *.
  assert (HN : N = cps * S).
  { unfold cps. rewrite Z.mul_comm. apply Z.div_exact; [lia|done]. }
  assert (Hcps : 1 ≤ cps) by (apply Z.div_le_lower_bound; lia).
  rewrite scan_order_rotation. unfold rotation, rr_inc. rewrite Hsc.
  fold N S cps. rewrite seqZ_cons by lia. simpl. f_equal.
  rewrite Z.add_0_r.
  replace (m_last_cu du + (cps - m_last_cu du mod cps))
    with (cps * (m_last_cu du / cps + 1)).
  - rewrite HN. apply Z.mul_mod_distr_l; lia.
  - pose proof (Z.div_mod (m_last_cu du) cps ltac:(lia)). lia.
Qed.

(** X9: a dispatch unit as its constructor and [init] leave it starts
    its first scan at collector unit 1, or in sub-core mode at the first
    collector unit of the second scheduler, and hands that one out when
    it is ready; collector unit 0 comes last without sub-cores. *)
Theorem fresh_unit_scan {collector_unit_t : Type}
    (ready : collector_unit_t → bool)
    (cus : list collector_unit_t) (sub_core g1 : bool) (scheds g2 : Z) :
  let du := init sub_core scheds (dispatch_unit_new cus g1 g2) in
  let N := Z.of_nat (length cus) in
  let start := if sub_core then (N / scheds) mod N else 1 mod N in
  0 < N → 2 * N ≤ UINT_MOD → 0 < scheds →
  (sub_core = true → scheds ≤ N) →
  du_wf du cus
  ∧ head (scan_order du) = Some start
  ∧ (sub_core = false → last (scan_order du) = Some 0)
  ∧ (ready_at ready cus start = true →
     ∃ du', find_ready ready du cus = Some (du', Some start)
            ∧ m_last_cu du' = start).
Proof.
  intros du N start HN Hw Hs Hsub.
  assert (HNw : wrap32 N = N) by (apply Z.mod_small; lia).
  assert (Hwf : du_wf du cus).
  { split; unfold du; cbn -[wrap32 Z.of_nat UINT_MOD Z.mul]; fold N;
      rewrite ?HNw; try done; try lia. }
  split; [done|].
  assert (Hrest : head (scan_order du) = Some start
                  ∧ (sub_core = false → last (scan_order du) = Some 0));
    [|destruct Hrest as [Hh Hl];
      split; [done|split; [done|by apply find_ready_head]]].
  unfold start. clear start.
  rewrite scan_order_rotation. unfold rotation, rr_inc.
  unfold du; cbn -[wrap32 Z.of_nat UINT_MOD Z.mul Z.div Z.modulo seqZ].
  fold N. rewrite HNw. split.
  - rewrite seqZ_cons by lia. simpl. f_equal.
    destruct sub_core; [|done].
    specialize (Hsub eq_refl).
    assert (1 ≤ N / scheds) by (apply Z.div_le_lower_bound; lia).
    rewrite Z.mod_0_l by lia. f_equal. lia.
  - intros ->. replace (seqZ 0 N) with (seqZ 0 (N - 1) ++ [N - 1]).
    + rewrite fmap_app. simpl. rewrite last_snoc. f_equal.
      replace (0 + 1 + (N - 1)) with (0 + 1 * N) by lia.
      rewrite Z.mod_add by lia. apply Z.mod_0_l. lia.
    + replace N with ((N - 1) + 1) at 3 by lia.
      rewrite seqZ_app by lia. by f_equal.
Qed.

Lemma scan_visits_each_once_witness :
  ∃ order du',
    order ≡ₚ [0; 1; 2; 3] ∧ order = [3; 0; 1; 2]
    ∧ find_ready id (sample_du false 2) sample_cus = Some (du', Some 3).
Proof.
  destruct (scan_visits_each_once id (sample_du false 2) sample_cus
              (sample_du_wf false)) as (order & Hp & _ & _ & Ho & du' & Hf).
  exists order, du'. split; [exact Hp|]. split; [exact Ho|].
  rewrite Hf, Ho. reflexivity.
Defined.

Lemma round_robin_last_witness :
  head (scan_order (with_last_cu (sample_du false 2) 3)) = Some 0
  ∧ last (scan_order (with_last_cu (sample_du false 2) 3)) = Some 3.
Proof.
  assert (H3 : 3 * m_num_collectors (sample_du false 2) ≤ UINT_MOD)
    by (vm_compute; discriminate).
  destruct (round_robin_last id (sample_du false 2)
              (with_last_cu (sample_du false 2) 3) sample_cus 3
              (sample_du_wf false) H3 eq_refl) as (_ & _ & _ & _ & H).
  exact (H eq_refl).
Defined.

Lemma sample_du1_wf : du_wf (sample_du true 1) sample_cus.
Proof. split; simpl; try done; unfold UINT_MOD; lia. Qed.

Lemma sub_core_scan_start_witness :
  head (scan_order (sample_du true 2)) = Some 0
  ∧ ∃ du', find_ready id (sample_du true 1) sample_cus = Some (du', Some 2)
           ∧ m_last_cu du' = 2.
Proof.
  split.
  - exact (proj1 (sub_core_scan_start id (sample_du true 2) sample_cus
                    (sample_du_wf true) eq_refl eq_refl)).
  - exact (proj2 (sub_core_scan_start id (sample_du true 1) sample_cus
                    sample_du1_wf eq_refl eq_refl) eq_refl).
Defined.

Lemma fresh_unit_scan_witness :
  scan_order (init false 2 (dispatch_unit_new sample_cus true 0))
  = [1; 2; 3; 0]
  ∧ du_wf (init true 2 (dispatch_unit_new sample_cus false 7)) sample_cus
  ∧ head (scan_order (init true 2 (dispatch_unit_new sample_cus false 7)))
    = Some 2.
Proof.
  split; [reflexivity|].
  assert (H2 : 2 * 4 ≤ UINT_MOD) by (vm_compute; discriminate).
  destruct (fresh_unit_scan id sample_cus true false 2 7
              ltac:(reflexivity) H2 ltac:(reflexivity)
              ltac:(intros _; vm_compute; discriminate)) as (Hwf & Hh & _).
  split; [exact Hwf|exact Hh].
Defined.

End DispatchUnit.

(* ================================================================== *)
(** * The C library calls the sources rely on *)
(* ================================================================== *)

Module Libc.

Definition INT_MAX : Z := 2 ^ 31 - 1.
Definition INT_MIN : Z := - 2 ^ 31.
Definition LONG_MAX : Z := 2 ^ 63 - 1.
Definition LONG_MIN : Z := - 2 ^ 63.
Definition ULLONG_MAX : Z := 2 ^ 64 - 1.

(** Conversion to [int] and to [unsigned long long]. *)
Definition to_int (x : Z) : Z := (x + 2 ^ 31) mod 2 ^ 32 - 2 ^ 31.
Definition to_ull (x : Z) : Z := x mod 2 ^ 64.

Definition is_space (a : ascii) : bool :=
  let n := Z.of_N (Ascii.N_of_ascii a) in
  (n =? 32) || ((9 <=? n) && (n <=? 13)).

Definition digit_of (a : ascii) : option Z :=
  let n := Z.of_N (Ascii.N_of_ascii a) in
  if (48 <=? n) && (n <=? 57) then Some (n - 48) else None.

Fixpoint skip_space (s : string) : string :=
  match s with
  | String a s' => if is_space a then skip_space s' else s
  | EmptyString => s
  end.

(** The value of the longest prefix of decimal digits. *)
Fixpoint digits_value (s : string) (acc : Z) : Z :=
  match s with
  | String a s' =>
      match digit_of a with
      | Some d => digits_value s' (10 * acc + d)
      | None => acc
      end
  | EmptyString => acc
  end.

(** [strtol(s, NULL, 10)]: white space, an optional sign, digits; the
    value saturates at the ends of [long]. *)
Definition strtol (s : string) : Z :=
  let v :=
    match skip_space s with
    | String "-"%char s' => - digits_value s' 0
    | String "+"%char s' => digits_value s' 0
    | s' => digits_value s' 0
    end in
  Z.max LONG_MIN (Z.min LONG_MAX v).

(** [atoi(s)] is [(int) strtol(s, NULL, 10)]; a value outside [int] is
    left undefined by the C standard, the conversion here is the one of
    the GNU C library. *)
Definition atoi (s : string) : Z := to_int (strtol s).

Lemma to_int_range x : INT_MIN ≤ to_int x ≤ INT_MAX.
Proof.
  unfold to_int, INT_MIN, INT_MAX.
  pose proof (Z.mod_pos_bound (x + 2 ^ 31) (2 ^ 32)). lia.
Qed.

Lemma atoi_range s : INT_MIN ≤ atoi s ≤ INT_MAX.
Proof. apply to_int_range. Qed.

Lemma to_ull_small x : 0 ≤ x ≤ INT_MAX → to_ull x = x.
Proof.
  unfold to_ull, INT_MAX. intros H. apply Z.mod_small. lia.
Qed.

(** ** Reading back a number written in decimal *)

Lemma digit_of_pretty_N_char (x : N) :
  (x < 10)%N → digit_of (pretty_N_char x) = Some (Z.of_N x).
Proof.
  intros H.
  assert (x = 0 ∨ x = 1 ∨ x = 2 ∨ x = 3 ∨ x = 4 ∨ x = 5 ∨ x = 6 ∨ x = 7
          ∨ x = 8 ∨ x = 9)%N as Hx by lia.
  repeat destruct Hx as [->|Hx]; try reflexivity. by subst.
Qed.

(** The digits [pretty_N_go] writes in front of [s] are read back as its
    number. *)
Lemma digits_value_pretty_N_go (x : N) :
  ∃ k : Z, 0 ≤ k ∧ ∀ s acc,
    digits_value (pretty_N_go x s) acc
    = digits_value s (acc * 10 ^ k + Z.of_N x).
Proof.
  induction (N.lt_wf_0 x) as [x _ IH].
  destruct (decide (x = 0)%N) as [->|Hx].
  - exists 0. split; [done|]. intros s acc. rewrite pretty_N_go_0.
    f_equal. lia.
  - destruct (IH (x `div` 10)%N) as (k & Hk & IHk).
    { apply N.div_lt; lia. }
    exists (k + 1). split; [lia|]. intros s acc.
    rewrite pretty_N_go_step by lia. rewrite IHk. simpl.
    rewrite digit_of_pretty_N_char by (apply N.mod_lt; lia).
    f_equal. rewrite Z.pow_add_r by lia.
    rewrite N2Z.inj_div, N2Z.inj_mod.
    pose proof (Z.div_mod (Z.of_N x) 10). change (Z.of_N 10) with 10. lia.
Qed.

Definition starts_digit (s : string) : Prop :=
  match s with
  | String a _ => is_Some (digit_of a)
  | EmptyString => False
  end.

Lemma pretty_N_go_starts_digit (x : N) : ∀ s,
  (0 < x)%N ∨ starts_digit s → starts_digit (pretty_N_go x s).
Proof.
  induction (N.lt_wf_0 x) as [x _ IH]. intros s H.
  destruct (decide (x = 0)%N) as [->|Hx].
  - rewrite pretty_N_go_0. destruct H; [lia|done].
  - rewrite pretty_N_go_step by lia. apply IH.
    + apply N.div_lt; lia.
    + right. simpl. rewrite digit_of_pretty_N_char by (apply N.mod_lt; lia).
      by eexists.
Qed.

Lemma strtol_starts_digit (s : string) :
  starts_digit s → strtol s = Z.max LONG_MIN (Z.min LONG_MAX (digits_value s 0)).
Proof.
  destruct s as [|a s]; [done|]. intros [d Hd]. unfold strtol.
  assert (Hsp : is_space a = false).
  { unfold digit_of in Hd. unfold is_space.
    destruct (_ && _) eqn:E; [|done].
    apply andb_true_iff in E as [E1 E2].
    apply Z.leb_le in E1, E2.
    apply orb_false_iff. split; [apply Z.eqb_neq; lia|].
    apply andb_false_iff. right. apply Z.leb_gt. lia. }
  simpl. rewrite Hsp.
  assert (a ≠ "-"%char ∧ a ≠ "+"%char) as [H1 H2].
  { split; intros ->; vm_compute in Hd; discriminate. }
  repeat case_match; try done; by simplify_eq.
Qed.

Lemma pretty_positive_value (p : positive) :
  starts_digit (pretty p) ∧ digits_value (pretty p) 0 = Z.pos p.
Proof.
  unfold pretty, pretty_positive, pretty, pretty_N.
  destruct (decide (N.pos p = 0)%N); [done|]. split.
  - apply pretty_N_go_starts_digit. left. lia.
  - destruct (digits_value_pretty_N_go (N.pos p)) as (k & _ & H).
    rewrite H. simpl. done.
Qed.

(** [strtol] reads the decimal form of an integer back, up to the ends of
    [long]. *)
Lemma strtol_pretty (n : Z) :
  strtol (pretty n) = Z.max LONG_MIN (Z.min LONG_MAX n).
Proof.
  destruct n as [|p|p].
  - reflexivity.
  - destruct (pretty_positive_value p) as [H1 H2].
    change (pretty (Z.pos p)) with (pretty p).
    by rewrite strtol_starts_digit, H2.
  - destruct (pretty_positive_value p) as [H1 H2].
    change (pretty (Z.neg p)) with (String "-" (pretty p)).
    unfold strtol. simpl. by rewrite H2.
Qed.

Lemma atoi_pretty (n : Z) :
  INT_MIN ≤ n ≤ INT_MAX → atoi (pretty n) = n.
Proof.
  intros H. unfold atoi. rewrite strtol_pretty.
  unfold to_int, INT_MIN, INT_MAX, LONG_MIN, LONG_MAX in *.
  rewrite Z.max_r, Z.min_r by lia.
  rewrite Z.mod_small by lia. lia.
Qed.

End Libc.

(* ================================================================== *)
(** * bridge/main.cc: the command loop *)
(* ================================================================== *)

Module Bridge.
Import Libc.

(** [enum class command_type]; a value that is none of the two
    enumerators is [undefined_command]. *)
Inductive command_type :=
| cpu_gpu_mem_copy
| kernel_launch
| undefined_command (code : Z).

Record trace_command := {
  command_string : string;
  m_type : command_type
}.

Definition is_memcpy (c : trace_command) : bool :=
  match m_type c with cpu_gpu_mem_copy => true | _ => false end.
Definition is_kernel (c : trace_command) : bool :=
  match m_type c with kernel_launch => true | _ => false end.

(** ** The cycle cap read from the environment

    sim_config->gpu_max_cycle_opt = (unsigned long long)-1;
    if (getenv("CYCLES") && atoi(getenv("CYCLES")) > 0)
      sim_config->gpu_max_cycle_opt = atoi(getenv("CYCLES")); *)
Definition gpu_max_cycle_opt (getenv : string → option string) : Z :=
  match getenv "CYCLES"%string with
  | Some s => if 0 <? atoi s then to_ull (atoi s) else to_ull (-1)
  | None => to_ull (-1)
  end.

Definition max_cycle_notice : string :=
  "GPGPU-Sim: ** break due to reaching the maximum cycles (or instructions) **".
Definition exit_notice_1 : string :=
  "GPGPU-Sim: *** simulation thread exiting ***".
Definition exit_notice_2 : string := "GPGPU-Sim: *** exit detected ***".

Section WithGpu.
(** The performance model [trace_gpgpu_sim_bridge], the trace parser and
    the kernel objects are defined outside the sources at hand: their
    states are abstract and their member functions are parameters. *)
Context {gpu kernel_trace_t kernel : Type}.

(** trace parser *)
Variable parse_memcpy_info : string → Z * Z.
Variable parse_kernel_info : string → kernel_trace_t.
(** [create_kernel_info] wraps the constructors of
    [trace_function_info] and [trace_kernel_info_t]. *)
Variable create_kernel_info : kernel_trace_t → kernel.
Variable get_uid : kernel → Z.
Variable get_name : kernel → string.
Variable get_cuda_stream_id : kernel → Z.
Variable was_launched : kernel → bool.
Variable set_launched : kernel → kernel.

(** performance model *)
Variable perf_memcpy_to_gpu : Z → Z → gpu → gpu.
Variable active_ : gpu → bool.
(** [cycle()] followed by [deadlock_check()]; [None] when the watchdog
    aborts. *)
Variable cycle_and_check : gpu → option gpu.
Variable finished_kernel : gpu → Z * gpu.
Variable cycle_insn_cta_max_hit : gpu → bool.
Variable can_start_kernel : gpu → bool.
Variable launch : kernel → gpu → gpu.
Variable stop_all_running_kernels : gpu → gpu.
Variable gpu_sim_cycle : gpu → Z.
Variable update_stats : gpu → gpu.
(** The lines [gpgpu_context::print_simulation_time] writes. *)
Variable print_simulation_time : gpu → list string.

(** The data members of [class accelsim_bridge], and what it printed. *)
Record accelsim_bridge := {
  silent : bool;
  window_size : nat;
  commandlist : list trace_command;
  kernels_info : list kernel;
  busy_streams : list Z;
  command_idx : nat;
  m_gpgpu_sim : gpu;
  stdout : list string
}.

Definition with_gpu (b : accelsim_bridge) (g : gpu) : accelsim_bridge :=
  {| silent := silent b; window_size := window_size b;
     commandlist := commandlist b; kernels_info := kernels_info b;
     busy_streams := busy_streams b; command_idx := command_idx b;
     m_gpgpu_sim := g; stdout := stdout b |}.

Definition with_kernels (b : accelsim_bridge) (ks : list kernel)
  : accelsim_bridge :=
  {| silent := silent b; window_size := window_size b;
     commandlist := commandlist b; kernels_info := ks;
     busy_streams := busy_streams b; command_idx := command_idx b;
     m_gpgpu_sim := m_gpgpu_sim b; stdout := stdout b |}.

Definition with_busy_streams (b : accelsim_bridge) (bs : list Z)
  : accelsim_bridge :=
  {| silent := silent b; window_size := window_size b;
     commandlist := commandlist b; kernels_info := kernels_info b;
     busy_streams := bs; command_idx := command_idx b;
     m_gpgpu_sim := m_gpgpu_sim b; stdout := stdout b |}.

Definition with_command_idx (b : accelsim_bridge) (i : nat)
  : accelsim_bridge :=
  {| silent := silent b; window_size := window_size b;
     commandlist := commandlist b; kernels_info := kernels_info b;
     busy_streams := busy_streams b; command_idx := i;
     m_gpgpu_sim := m_gpgpu_sim b; stdout := stdout b |}.

Definition print (line : string) (b : accelsim_bridge) : accelsim_bridge :=
  {| silent := silent b; window_size := window_size b;
     commandlist := commandlist b; kernels_info := kernels_info b;
     busy_streams := busy_streams b; command_idx := command_idx b;
     m_gpgpu_sim := m_gpgpu_sim b; stdout := stdout b ++ [line] |}.

Definition print_lines (lines : list string) (b : accelsim_bridge)
  : accelsim_bridge :=
  foldl (λ b line, print line b) b lines.

Definition limit_reached (b : accelsim_bridge) : bool :=
  cycle_insn_cta_max_hit (m_gpgpu_sim b).
Definition active (b : accelsim_bridge) : bool := active_ (m_gpgpu_sim b).

(** [commands_left()] and [kernels_left()] are declared in main.hpp; they
    stand for the loop condition they replaced,
    i < commandlist.size() || !kernels_info.empty(). *)
Definition commands_left (b : accelsim_bridge) : bool :=
  (command_idx b <? length (commandlist b))%nat.
Definition kernels_left (b : accelsim_bridge) : bool :=
  negb (length (kernels_info b) =? 0)%nat.

(** One turn of the loop of [process_commands]. *)
Definition process_command (cmd : trace_command) (b : accelsim_bridge)
  : outcome accelsim_bridge :=
  match m_type cmd with
  | cpu_gpu_mem_copy =>
      let '(addre, Bcount) := parse_memcpy_info (command_string cmd) in
      let b := print ("launching memcpy command : " +:+ command_string cmd) b in
      let b := with_gpu b (perf_memcpy_to_gpu addre Bcount (m_gpgpu_sim b)) in
      Done (with_command_idx b (S (command_idx b)))
  | kernel_launch =>
      let kernel_trace_info := parse_kernel_info (command_string cmd) in
      let kernel_info := create_kernel_info kernel_trace_info in
      let b := with_kernels b (kernels_info b ++ [kernel_info]) in
      let b := print ("Header info loaded for kernel command : "
                      +:+ command_string cmd) b in
      Done (with_command_idx b (S (command_idx b)))
  | undefined_command _ => Thrown "undefined command"
  end.

Definition fill_guard (b : accelsim_bridge) : bool :=
  (length (kernels_info b) <? window_size b)%nat
  && (command_idx b <? length (commandlist b))%nat.

Fixpoint process_commands_loop (fuel : nat) (b : accelsim_bridge)
  : outcome accelsim_bridge :=
  match fuel with
  | O => Timeout
  | S fuel =>
      if fill_guard b then
        match commandlist b !! command_idx b with
        | Some cmd =>
            bind (process_command cmd b) (process_commands_loop fuel)
        | None => Aborted
        end
      else Done b
  end.

(** [process_commands()]: the loop takes a command at every turn, so the
    commands that are left bound its turns. *)
Definition process_commands (b : accelsim_bridge) : outcome accelsim_bridge :=
  process_commands_loop (S (length (commandlist b) - command_idx b)) b.

(** [launch_kernels()], over the kernels from the [j]-th on. *)
Definition stream_busy (b : accelsim_bridge) (k : kernel) : bool :=
  existsb (Z.eqb (get_cuda_stream_id k)) (busy_streams b).

Definition launch_kernel (j : nat) (k : kernel) (b : accelsim_bridge)
  : accelsim_bridge :=
  if negb (stream_busy b k) && can_start_kernel (m_gpgpu_sim b)
     && negb (was_launched k)
  then
    let b := print ("launching kernel name: " +:+ get_name k
                    +:+ " uid: " +:+ pretty (get_uid k)) b in
    let b := with_gpu b (launch k (m_gpgpu_sim b)) in
    let b := with_kernels b (<[j := set_launched k]> (kernels_info b)) in
    with_busy_streams b (busy_streams b ++ [get_cuda_stream_id k])
  else b.

Definition launch_kernels (b : accelsim_bridge) : accelsim_bridge :=
  foldl (λ b j, match kernels_info b !! j with
                | Some k => launch_kernel j k b
                | None => b
                end)
        b (seq 0 (length (kernels_info b))).

(** [cycle()] *)
Definition cycle (b : accelsim_bridge) : outcome accelsim_bridge :=
  if active b then
    match cycle_and_check (m_gpgpu_sim b) with
    | Some g => Done (with_gpu b g)
    | None => Aborted
    end
  else if limit_reached b
  then Done (with_gpu b (stop_all_running_kernels (m_gpgpu_sim b)))
  else Done b.

(** do { if (!active()) break; cycle();
         finished_kernel_uid = get_finished_kernel_uid();
         if (finished_kernel_uid) break; } while (true); *)
Fixpoint cycle_loop (fuel : nat) (b : accelsim_bridge)
  : outcome (accelsim_bridge * Z) :=
  match fuel with
  | O => Timeout
  | S fuel =>
      if negb (active b) then Done (b, 0)
      else
        bind (cycle b) (λ b,
          let '(uid, g) := finished_kernel (m_gpgpu_sim b) in
          let b := with_gpu b g in
          if negb (uid =? 0) then Done (b, uid) else cycle_loop fuel b)
  end.

(** busy_streams.erase of the first entry equal to the stream *)
Fixpoint erase_stream (s : Z) (bs : list Z) : list Z :=
  match bs with
  | [] => []
  | x :: bs => if x =? s then bs else x :: erase_stream s bs
  end.

(** The loop of [cleanup_finished_kernel]; [found] is k != NULL. *)
Fixpoint cleanup_loop (fuel j : nat) (uid : Z) (found : bool)
    (b : accelsim_bridge) : outcome (accelsim_bridge * bool) :=
  match fuel with
  | O => Timeout
  | S fuel =>
      match kernels_info b !! j with
      | None => Done (b, found)
      | Some k =>
          if (get_uid k =? uid) || limit_reached b || negb (active b)
          then
            let b := with_busy_streams b
                       (erase_stream (get_cuda_stream_id k) (busy_streams b)) in
            let b := with_kernels b (delete j (kernels_info b)) in
            if negb (limit_reached b) && active b then Done (b, true)
            else cleanup_loop fuel (S j) uid true b
          else cleanup_loop fuel (S j) uid true b
      end
  end.

Definition cleanup_finished_kernel (finished_kernel_uid : Z)
    (b : accelsim_bridge) : outcome accelsim_bridge :=
  bind
    (if negb (finished_kernel_uid =? 0) || limit_reached b || negb (active b)
     then
       bind (cleanup_loop (S (length (kernels_info b))) 0
               finished_kernel_uid false b)
            (λ '(b, found), if found then Done b else Aborted)
     else Done b)
    (λ b,
       if negb (silent b) && (0 <? gpu_sim_cycle (m_gpgpu_sim b))
       then
         let b := with_gpu b (update_stats (m_gpgpu_sim b)) in
         Done (print_lines (print_simulation_time (m_gpgpu_sim b)) b)
       else Done b).

(** The body of the loop of [run_to_completion] up to the test of the
    cap. *)
Definition run_body (cycles : nat) (b : accelsim_bridge)
  : outcome accelsim_bridge :=
  bind (process_commands b) (λ b,
    let b := launch_kernels b in
    bind (cycle_loop cycles b) (λ '(b, finished_kernel_uid),
      cleanup_finished_kernel finished_kernel_uid b)).

Fixpoint run_loop (fuel cycles : nat) (b : accelsim_bridge)
  : outcome accelsim_bridge :=
  match fuel with
  | O => Timeout
  | S fuel =>
      if commands_left b || kernels_left b then
        bind (run_body cycles b) (λ b,
          if limit_reached b
          then Done (print max_cycle_notice b)   (* break *)
          else run_loop fuel cycles b)
      else Done b
  end.

(** [run_to_completion()]: [fuel] bounds the turns of the outer loop,
    [cycles] those of every inner one. *)
Definition run_to_completion (fuel cycles : nat) (b : accelsim_bridge)
  : outcome accelsim_bridge :=
  bind (run_loop fuel cycles b) (λ b,
    Done (print exit_notice_2 (print exit_notice_1 b))).

(** ** What [process_commands] does to a list of commands taken *)

Definition command_ok (c : trace_command) : bool :=
  is_memcpy c || is_kernel c.

(** The memory copies of [cs] handed to the performance model, first to
    last. *)
Definition memcpy_effect (cs : list trace_command) (g : gpu) : gpu :=
  foldl (λ g c, let '(addre, Bcount) :=
                  parse_memcpy_info (command_string c) in
                perf_memcpy_to_gpu addre Bcount g)
        g (List.filter is_memcpy cs).

(** The kernels of [cs], one [kernel_info] for each launch. *)
Definition new_kernels (cs : list trace_command) : list kernel :=
  (λ c, create_kernel_info (parse_kernel_info (command_string c)))
    <$> List.filter is_kernel cs.

(** [b'] is [b] after the commands [cs] were taken in order, each one
    while the window was not full. *)
Record consumed (b : accelsim_bridge) (cs : list trace_command)
    (b' : accelsim_bridge) : Prop := {
  cons_list : commandlist b' = commandlist b;
  cons_window : window_size b' = window_size b;
  cons_busy : busy_streams b' = busy_streams b;
  cons_order :
    drop (command_idx b) (commandlist b)
    = cs ++ drop (command_idx b') (commandlist b);
  cons_idx : command_idx b' = (command_idx b + length cs)%nat;
  cons_ok : Forall (λ c, command_ok c = true) cs;
  cons_kernels : kernels_info b' = kernels_info b ++ new_kernels cs;
  cons_gpu : m_gpgpu_sim b' = memcpy_effect cs (m_gpgpu_sim b);
  cons_room : ∀ i, (i < length cs)%nat →
    (length (kernels_info b) + length (new_kernels (take i cs))
     < window_size b)%nat
}.

Definition fill_spec (b : accelsim_bridge) (o : outcome accelsim_bridge)
  : Prop :=
  match o with
  | Done b' =>
    ∃ cs, consumed b cs b'
          ∧ ((window_size b' ≤ length (kernels_info b'))%nat
             ∨ (length (commandlist b') ≤ command_idx b')%nat)
  | Thrown what =>
      what = "undefined command"%string
      ∧ ∃ cs b' cmd, consumed b cs b' ∧ fill_guard b' = true
          ∧ commandlist b !! command_idx b' = Some cmd
          ∧ command_ok cmd = false
  | Aborted | Timeout => False
  end.

Lemma fill_guard_false b :
fill_guard b = false →
(window_size b ≤ length (kernels_info b))%nat
∨ (length (commandlist b) ≤ command_idx b)%nat.
Proof.
unfold fill_guard. intros H. apply andb_false_iff in H as [H|H];
  apply Nat.ltb_ge in H; [by left|by right].
Qed.

Lemma consumed_nil b : consumed b [] b.
Proof.
  split; simpl; [done|done|done|done|lia|constructor| | |].
  - unfold new_kernels. simpl. by rewrite app_nil_r.
  - done.
  - intros i Hi. lia.
Qed.

(** One command taken in front of [cs]. *)
Lemma consumed_cons b cmd b1 cs b' :
  fill_guard b = true →
  commandlist b !! command_idx b = Some cmd →
  process_command cmd b = Done b1 →
  consumed b1 cs b' →
  consumed b (cmd :: cs) b'.
Proof.
  intros Hg Hcmd Hstep [Hl Hw Hb Ho Hi Hok Hk Hgpu Hroom].
  unfold fill_guard in Hg. apply andb_true_iff in Hg as [Hg1 Hg2].
  apply Nat.ltb_lt in Hg1, Hg2.
  assert (Hb1 : commandlist b1 = commandlist b ∧ window_size b1 = window_size b
                ∧ busy_streams b1 = busy_streams b
                ∧ command_idx b1 = S (command_idx b)
                ∧ command_ok cmd = true
                ∧ kernels_info b1 = kernels_info b ++ new_kernels [cmd]
                ∧ m_gpgpu_sim b1 = memcpy_effect [cmd] (m_gpgpu_sim b)).
  { unfold process_command, command_ok, new_kernels, memcpy_effect,
      is_memcpy, is_kernel in *.
    simpl. destruct (m_type cmd); simpl in *.
    - destruct (parse_memcpy_info _) as [addre Bcount].
      injection Hstep as <-. simpl. by rewrite app_nil_r.
    - injection Hstep as <-. simpl. done.
    - done. }
  destruct Hb1 as (El & Ew & Eb & Ei & Eok & Ek & Eg).
  split.
  - congruence.
  - congruence.
  - congruence.
  - rewrite (drop_S _ _ _ Hcmd). simpl. f_equal.
    rewrite <- Ei, <- El. rewrite Ho. by rewrite El.
  - rewrite Hi, Ei. simpl. lia.
  - by constructor.
  - rewrite Hk, Ek. unfold new_kernels. simpl.
    destruct (is_kernel cmd); simpl; by rewrite <- ?app_assoc.
  - rewrite Hgpu, Eg. unfold memcpy_effect. simpl.
    destruct (is_memcpy cmd); simpl; done.
  - intros [|i] Hlt; simpl.
    + unfold new_kernels. simpl. lia.
    + simpl in Hlt. assert (Hi' : (i < length cs)%nat) by lia.
      specialize (Hroom i Hi').
      rewrite Ek, Ew, length_app in Hroom.
      unfold new_kernels in *. simpl in *.
      destruct (is_kernel cmd); rewrite ?length_fmap in *; simpl in *; lia.
Qed.

Lemma process_commands_loop_spec fuel : ∀ b,
  (length (commandlist b) - command_idx b < fuel)%nat →
  fill_spec b (process_commands_loop fuel b).
Proof.
  induction fuel as [|fuel IH]; intros b Hfuel; [lia|]. simpl.
  destruct (fill_guard b) eqn:Hg.
  - pose proof Hg as Hg'. unfold fill_guard in Hg'.
    apply andb_true_iff in Hg' as [_ Hidx]. apply Nat.ltb_lt in Hidx.
    destruct (lookup_lt_is_Some_2 _ _ Hidx) as [cmd Hcmd].
    rewrite Hcmd.
    destruct (process_command cmd b) as [b1| | |] eqn:Hstep; simpl.
    + assert (Hb1 : commandlist b1 = commandlist b
                    ∧ command_idx b1 = S (command_idx b)).
      { unfold process_command in Hstep. destruct (m_type cmd); [| |done].
        - destruct (parse_memcpy_info _). by injection Hstep as <-.
        - by injection Hstep as <-. }
      destruct Hb1 as [El Ei].
      assert (Hfuel1 : (length (commandlist b1) - command_idx b1 < fuel)%nat)
        by (rewrite El, Ei; lia).
      specialize (IH b1 Hfuel1).
      destruct (process_commands_loop fuel b1) as [b'|what| |]; simpl in *;
        try done.
      * destruct IH as (cs & Hcs & Hg2). exists (cmd :: cs).
        split; [by eapply consumed_cons|done].
      * destruct IH as (-> & cs & b' & cmd' & Hcs & Hg2 & Hc' & Hbad).
        split; [done|]. exists (cmd :: cs), b', cmd'.
        split; [by eapply consumed_cons|]. split; [done|].
        by rewrite <- El.
    + assert (what = "undefined command"%string ∧ command_ok cmd = false)
        as [-> Hbad].
      { unfold process_command, command_ok, is_memcpy, is_kernel in *.
        destruct (m_type cmd); simpl in *.
        - by destruct (parse_memcpy_info _).
        - done.
        - by injection Hstep as <-. }
      split; [done|]. exists [], b, cmd.
      split; [apply consumed_nil|done].
    + unfold process_command in Hstep. destruct (m_type cmd); try done.
      by destruct (parse_memcpy_info _).
    + unfold process_command in Hstep. destruct (m_type cmd); try done.
      by destruct (parse_memcpy_info _).
  - exists []. split; [apply consumed_nil|by apply fill_guard_false].
Qed.

(** C5: [process_commands] takes the commands in order, each one while
    the window holds fewer than [window_size] kernels and commands remain:
    a memory copy goes to [perf_memcpy_to_gpu] and not into the window, a
    kernel launch appends one [kernel_info], any other command throws
    "undefined command"; on a normal return the window is full or the
    cursor is at the end of the list. *)
Theorem process_commands_fill (b : accelsim_bridge) :
fill_spec b (process_commands b)
∧ (∀ cmd, fill_guard b = true →
     commandlist b !! command_idx b = Some cmd →
     match m_type cmd with
     | cpu_gpu_mem_copy =>
         ∃ b1, process_command cmd b = Done b1
               ∧ kernels_info b1 = kernels_info b
               ∧ m_gpgpu_sim b1
                 = perf_memcpy_to_gpu
                     (fst (parse_memcpy_info (command_string cmd)))
                     (snd (parse_memcpy_info (command_string cmd)))
                     (m_gpgpu_sim b)
               ∧ command_idx b1 = S (command_idx b)
     | kernel_launch =>
         ∃ b1, process_command cmd b = Done b1
               ∧ kernels_info b1
                 = kernels_info b
                   ++ [create_kernel_info
                         (parse_kernel_info (command_string cmd))]
               ∧ m_gpgpu_sim b1 = m_gpgpu_sim b
               ∧ command_idx b1 = S (command_idx b)
     | undefined_command _ =>
         process_commands b = Thrown "undefined command"
     end).
Proof.
split.
- apply process_commands_loop_spec. lia.
- intros cmd Hg Hcmd. destruct (m_type cmd) eqn:Ht.
  + unfold process_command. rewrite Ht.
    destruct (parse_memcpy_info _) as [addre Bcount]. by eexists.
  + unfold process_command. rewrite Ht. by eexists.
  + unfold process_commands. simpl. rewrite Hg, Hcmd.
    unfold process_command. by rewrite Ht.
Qed.

(** C6: with CYCLES set to the decimal form of an integer n with
    0 < n <= INT_MAX the cap is n (and so it is for any string that [atoi]
    reads as n > 0); unset, or set to the decimal form of an integer from
    INT_MIN to 0 (or to any string that [atoi] reads as zero or less), it
    is (unsigned long long)-1; and a turn of the loop of
    [run_to_completion] that ends with the cap hit prints the notice,
    leaves the loop and returns normally after the two closing lines. *)
Theorem cycle_cap (getenv : string → option string) :
(∀ n, getenv "CYCLES"%string = Some (pretty n) → 0 < n ≤ INT_MAX →
   gpu_max_cycle_opt getenv = n)
∧ (∀ s n, getenv "CYCLES"%string = Some s → atoi s = n → 0 < n →
     gpu_max_cycle_opt getenv = n)
∧ (getenv "CYCLES"%string = None
   ∨ (∃ n, getenv "CYCLES"%string = Some (pretty n) ∧ INT_MIN ≤ n ≤ 0)
   ∨ (∃ s, getenv "CYCLES"%string = Some s ∧ atoi s ≤ 0) →
   gpu_max_cycle_opt getenv = ULLONG_MAX)
∧ (∀ fuel cycles b b1,
     commands_left b || kernels_left b = true →
     run_body cycles b = Done b1 →
     limit_reached b1 = true →
     run_to_completion (S fuel) cycles b
     = Done (print exit_notice_2
               (print exit_notice_1 (print max_cycle_notice b1)))
     ∧ ∀ b', run_to_completion (S fuel) cycles b = Done b' →
         stdout b' = stdout b1
                     ++ [max_cycle_notice; exit_notice_1; exit_notice_2]).
Proof.
assert (Hpos : ∀ s n, getenv "CYCLES"%string = Some s → atoi s = n → 0 < n →
                 gpu_max_cycle_opt getenv = n).
{ intros s n Hs Hn Hpos. unfold gpu_max_cycle_opt. rewrite Hs, Hn.
  replace (0 <? n) with true by (symmetry; apply Z.ltb_lt; lia).
  apply to_ull_small. pose proof (atoi_range s). lia. }
assert (Hneg : ∀ s, getenv "CYCLES"%string = Some s → atoi s ≤ 0 →
                 gpu_max_cycle_opt getenv = ULLONG_MAX).
{ intros s Hs Hle. unfold gpu_max_cycle_opt. rewrite Hs.
  by replace (0 <? atoi s) with false by (symmetry; apply Z.ltb_ge; lia). }
split; [|split; [done|split]].
- intros n Hs Hn. apply (Hpos (pretty n) n Hs); [|lia].
  apply atoi_pretty. unfold INT_MIN. lia.
- intros [H|[(n & Hs & Hn)|(s & Hs & Hle)]].
  + unfold gpu_max_cycle_opt. by rewrite H.
  + apply (Hneg (pretty n) Hs). rewrite atoi_pretty by (unfold INT_MAX; lia). lia.
  + by apply (Hneg s).
- intros fuel cycles b b1 Hleft Hbody Hhit.
  assert (Hrun : run_to_completion (S fuel) cycles b
                 = Done (print exit_notice_2
                           (print exit_notice_1 (print max_cycle_notice b1)))).
  { unfold run_to_completion. simpl. rewrite Hleft, Hbody. simpl.
    by rewrite Hhit. }
  split; [done|]. intros b' Hb'. rewrite Hrun in Hb'. injection Hb' as <-.
  simpl. by rewrite <- !app_assoc.
Qed.
(** ** Further properties of the command loop *)

(** The fields of the bridge that only [process_commands] moves. *)
Definition same_commands (b b' : accelsim_bridge) : Prop :=
  commandlist b' = commandlist b ∧ command_idx b' = command_idx b
  ∧ window_size b' = window_size b ∧ silent b' = silent b.

Lemma new_kernels_app cs1 cs2 :
  new_kernels (cs1 ++ cs2) = new_kernels cs1 ++ new_kernels cs2.
Proof. unfold new_kernels. by rewrite List.filter_app, fmap_app. Qed.

Lemma new_kernels_length_one c : (length (new_kernels [c]) ≤ 1)%nat.
Proof. unfold new_kernels. simpl. destruct (is_kernel c); simpl; lia. Qed.

Lemma process_commands_Done b b' :
  process_commands b = Done b' →
  ∃ cs, consumed b cs b'
        ∧ ((window_size b' ≤ length (kernels_info b'))%nat
           ∨ (length (commandlist b') ≤ command_idx b')%nat).
Proof.
  intros H.
  pose proof (process_commands_loop_spec
                (S (length (commandlist b) - command_idx b)) b) as Hs.
  unfold process_commands in H. rewrite H in Hs. apply Hs. lia.
Qed.

(** X10: [process_commands] fills the window once: a second call right
    after the first changes nothing, the window never grows past
    [window_size] (or past what it held), and the cursor never moves
    back. *)
Theorem process_commands_settles (b b' : accelsim_bridge) :
  process_commands b = Done b' →
  process_commands b' = Done b'
  ∧ (length (kernels_info b')
     ≤ Nat.max (length (kernels_info b)) (window_size b))%nat
  ∧ (command_idx b ≤ command_idx b')%nat
  ∧ commandlist b' = commandlist b.
Proof.
  intros H. apply process_commands_Done in H as (cs & Hc & Hfull).
  destruct Hc as [Hl Hw Hb Ho Hi Hok Hk Hgpu Hroom].
  split; [|split; [|split; [lia|done]]].
  - unfold process_commands. simpl.
    replace (fill_guard b') with false; [done|].
    symmetry. unfold fill_guard. apply andb_false_iff.
    destruct Hfull; [left|right]; by apply Nat.ltb_ge.
  - rewrite Hk, length_app.
    destruct (decide (cs = [])) as [->|Hne]; [simpl; lia|].
    assert (Hlen : (0 < length cs)%nat) by (destruct cs; simpl; [done|lia]).
    specialize (Hroom (length cs - 1)%nat ltac:(lia)).
    rewrite <- (take_drop (length cs - 1) cs) at 1.
    rewrite new_kernels_app, length_app.
    assert (Hd : ∃ c, drop (length cs - 1) cs = [c]).
    { destruct (drop (length cs - 1) cs) as [|c [|c' l]] eqn:E.
      - apply (f_equal length) in E. rewrite length_drop in E. simpl in E. lia.
      - by exists c.
      - apply (f_equal length) in E. rewrite length_drop in E. simpl in E. lia. }
    destruct Hd as [c ->]. pose proof (new_kernels_length_one c). lia.
Qed.

(** *** [launch_kernels] *)

Definition launch_step (b : accelsim_bridge) (j : nat) : accelsim_bridge :=
  match kernels_info b !! j with
  | Some k => launch_kernel j k b
  | None => b
  end.

(** What a kernel must be for [launch_kernels] to pass it by. *)
Definition held_back (b : accelsim_bridge) (k : kernel) : Prop :=
  was_launched k = true ∨ stream_busy b k = true.

Record launched (b b' : accelsim_bridge) : Prop := {
  la_commands : same_commands b b';
  la_length : length (kernels_info b') = length (kernels_info b);
  la_prefix : busy_streams b `prefix_of` busy_streams b';
  la_nodup : NoDup (busy_streams b) → NoDup (busy_streams b');
  la_held : ∀ j k, kernels_info b !! j = Some k → held_back b k →
                   kernels_info b' !! j = Some k
}.

Lemma stream_busy_elem b k :
  stream_busy b k = true ↔ get_cuda_stream_id k ∈ busy_streams b.
Proof.
  unfold stream_busy. rewrite existsb_exists. split.
  - intros (s & Hs & Heq). apply Z.eqb_eq in Heq as ->.
    by apply list_elem_of_In.
  - intros H. exists (get_cuda_stream_id k).
    split; [by apply list_elem_of_In|apply Z.eqb_refl].
Qed.

Lemma launched_refl b : launched b b.
Proof. by split. Qed.

Lemma launched_trans b1 b2 b3 :
  launched b1 b2 → launched b2 b3 → launched b1 b3.
Proof.
  intros [[? [? [? ?]]] Hl1 Hp1 Hn1 Hh1] [[? [? [? ?]]] Hl2 Hp2 Hn2 Hh2].
  split.
  - repeat split; congruence.
  - congruence.
  - by etrans.
  - auto.
  - intros j k Hj Hk. apply Hh2; [by apply Hh1|].
    destruct Hk as [Hk|Hk]; [by left|right].
    apply stream_busy_elem. apply stream_busy_elem in Hk.
    destruct Hp1 as [l ->]. apply elem_of_app. by left.
Qed.

Lemma launch_step_launched b j : launched b (launch_step b j).
Proof.
  unfold launch_step. destruct (kernels_info b !! j) as [k|] eqn:Hk;
    [|apply launched_refl].
  unfold launch_kernel.
  destruct (stream_busy b k) eqn:Hbusy; simpl; [apply launched_refl|].
  destruct (can_start_kernel _); simpl; [|apply launched_refl].
  destruct (was_launched k) eqn:Hwas; simpl; [apply launched_refl|].
  split; simpl.
  - done.
  - by rewrite length_insert.
  - by apply prefix_app_r.
  - intros Hnd. apply NoDup_app. split; [done|]. split.
    + intros s Hs [->|Hin%elem_of_nil]%elem_of_cons; [|done].
      apply stream_busy_elem in Hs. congruence.
    + apply NoDup_singleton.
  - intros j' k' Hj' Hheld. destruct (decide (j = j')) as [->|Hne].
    + rewrite Hk in Hj'. injection Hj' as <-.
      destruct Hheld; congruence.
    + by rewrite list_lookup_insert_ne.
Qed.

Lemma launch_steps_launched l : ∀ b, launched b (foldl launch_step b l).
Proof.
  induction l as [|j l IH]; intros b; [apply launched_refl|]. simpl.
  eapply launched_trans; [apply launch_step_launched|apply IH].
Qed.

(** X11: [launch_kernels] keeps the commands, the cursor and the size of
    the window; it only adds streams to [busy_streams], never one that is
    there already; and a kernel that was launched before, or whose stream
    is busy, is passed by. *)
Theorem launch_kernels_streams (b : accelsim_bridge) :
  same_commands b (launch_kernels b)
  ∧ length (kernels_info (launch_kernels b)) = length (kernels_info b)
  ∧ busy_streams b `prefix_of` busy_streams (launch_kernels b)
  ∧ (NoDup (busy_streams b) → NoDup (busy_streams (launch_kernels b)))
  ∧ (∀ j k, kernels_info b !! j = Some k →
            was_launched k = true ∨ stream_busy b k = true →
            kernels_info (launch_kernels b) !! j = Some k).
Proof.
  destruct (launch_steps_launched (seq 0 (length (kernels_info b))) b)
    as [H1 H2 H3 H4 H5].
  done.
Qed.

(** *** [cleanup_finished_kernel] *)

(** Whether a call enters the branch that removes kernels. *)
Definition cleanup_due (uid : Z) (b : accelsim_bridge) : bool :=
  negb (uid =? 0) || limit_reached b || negb (active b).

(** What the call does after the branch: the statistics. *)
Definition stats_step (b : accelsim_bridge) : accelsim_bridge :=
  if negb (silent b) && (0 <? gpu_sim_cycle (m_gpgpu_sim b))
  then print_lines (print_simulation_time (update_stats (m_gpgpu_sim b)))
         (with_gpu b (update_stats (m_gpgpu_sim b)))
  else b.

Lemma print_lines_window lines : ∀ b,
  kernels_info (print_lines lines b) = kernels_info b
  ∧ busy_streams (print_lines lines b) = busy_streams b
  ∧ same_commands b (print_lines lines b)
  ∧ m_gpgpu_sim (print_lines lines b) = m_gpgpu_sim b.
Proof.
  unfold print_lines.
  induction lines as [|line lines IH]; intros b; simpl; [done|].
  destruct (IH (print line b)) as (H1 & H2 & (H3 & H4 & H5 & H6) & H7).
  rewrite H1, H2, H7. unfold same_commands. by rewrite H3, H4, H5, H6.
Qed.

Lemma cleanup_finished_kernel_eq uid b :
  cleanup_finished_kernel uid b
  = bind (if cleanup_due uid b
          then bind (cleanup_loop (S (length (kernels_info b))) 0 uid false b)
                    (λ '(b, found), if found then Done b else Aborted)
          else Done b)
         (λ b, Done (stats_step b)).
Proof.
  unfold cleanup_finished_kernel, cleanup_due, stats_step.
  match goal with
  | |- bind ?x _ = _ => destruct x as [b1| | |]; simpl; try done
  end.
  by destruct (_ && _).
Qed.

Lemma stats_step_window b :
  kernels_info (stats_step b) = kernels_info b
  ∧ busy_streams (stats_step b) = busy_streams b
  ∧ same_commands b (stats_step b).
Proof.
  unfold stats_step. destruct (_ && _); [|done].
  destruct (print_lines_window
              (print_simulation_time (update_stats (m_gpgpu_sim b)))
              (with_gpu b (update_stats (m_gpgpu_sim b))))
    as (-> & -> & H & _).
  done.
Qed.

Lemma erase_stream_absent s bs : s ∉ bs → erase_stream s bs = bs.
Proof.
  induction bs as [|y bs IH]; simpl; [done|].
  intros [Hne Hs]%not_elem_of_cons.
  replace (y =? s) with false by (symmetry; apply Z.eqb_neq; congruence).
  by rewrite IH.
Qed.

Lemma erase_stream_split s l1 l2 :
  s ∉ l1 → erase_stream s (l1 ++ s :: l2) = l1 ++ l2.
Proof.
  induction l1 as [|y l1 IH]; simpl.
  - intros _. by rewrite Z.eqb_refl.
  - intros [Hne Hs]%not_elem_of_cons.
    replace (y =? s) with false by (symmetry; apply Z.eqb_neq; congruence).
    by rewrite IH.
Qed.

(** The kernels at the odd positions of the window, and those at the even
    ones. *)
Fixpoint odd_positions (ks : list kernel) : list kernel :=
  match ks with
  | _ :: k :: ks => k :: odd_positions ks
  | _ => []
  end.

Fixpoint even_positions (ks : list kernel) : list kernel :=
  match ks with
  | k :: _ :: ks => k :: even_positions ks
  | k :: [] => [k]
  | [] => []
  end.

Definition release (bs : list Z) (ks : list kernel) : list Z :=
  foldl (λ bs k, erase_stream (get_cuda_stream_id k) bs) bs ks.

(** The bridge but for its window and its busy streams. *)
Definition same_but_window (b b' : accelsim_bridge) : Prop :=
  same_commands b b' ∧ m_gpgpu_sim b' = m_gpgpu_sim b ∧ stdout b' = stdout b.

Lemma cleanup_loop_all uid fuel : ∀ pre l found b,
  limit_reached b || negb (active b) = true →
  kernels_info b = pre ++ l → (length l < fuel)%nat →
  ∃ b', cleanup_loop fuel (length pre) uid found b
        = Done (b', found || negb (length l =? 0)%nat)
        ∧ kernels_info b' = pre ++ odd_positions l
        ∧ busy_streams b'
          = release (busy_streams b) (even_positions l)
        ∧ same_but_window b b'.
Proof.
  induction fuel as [|fuel IH]; intros pre l found b Hcap Hk Hfuel; [lia|].
  simpl. destruct l as [|x l1].
  - rewrite lookup_ge_None_2 by (rewrite Hk, length_app; simpl; lia).
    exists b. simpl. rewrite orb_false_r, app_nil_r. rewrite app_nil_r in Hk.
    by repeat split.
  - rewrite Hk, list_lookup_middle by done.
    replace ((get_uid x =? uid) || limit_reached b || negb (active b))
      with true
      by (rewrite <- orb_assoc, Hcap; by destruct (get_uid x =? uid)).
    set (b1 := with_kernels
                 (with_busy_streams b
                    (erase_stream (get_cuda_stream_id x) (busy_streams b)))
                 (delete (length pre) (pre ++ x :: l1))).
    assert (Hcap1 : limit_reached b1 || negb (active b1) = true) by done.
    replace (negb (limit_reached b1) && active b1) with false
      by (destruct (limit_reached b1), (active b1); done).
    assert (Hk1 : kernels_info b1 = pre ++ l1).
    { unfold b1. simpl. clear. induction pre as [|p pre IH]; [done|].
      simpl. by rewrite IH. }
    rewrite orb_true_r.
    destruct l1 as [|y l2].
    + destruct fuel as [|fuel]; [simpl in Hfuel; lia|]. cbn [cleanup_loop].
      rewrite lookup_ge_None_2 by (rewrite Hk1, length_app; simpl; lia).
      exists b1. split; [done|]. split; [done|]. by split.
    + destruct (IH (pre ++ [y]) l2 true b1 Hcap1) as (b' & Hb' & Hks & Hbs & Hs).
      { by rewrite Hk1, <- app_assoc. }
      { simpl in Hfuel. lia. }
      exists b'. rewrite length_app in Hb'. simpl in Hb'.
      rewrite Nat.add_1_r in Hb'. rewrite Hb'. simpl.
      split; [done|]. split; [by rewrite Hks, <- app_assoc|].
      split; [by rewrite Hbs|].
      destruct Hs as ((? & ? & ? & ?) & ? & ?). by repeat split.
Qed.

Lemma cleanup_loop_none uid fuel : ∀ j found b,
  limit_reached b = false → active b = true →
  (length (kernels_info b) - j < fuel)%nat →
  (∀ i k, (j ≤ i)%nat → kernels_info b !! i = Some k → get_uid k ≠ uid) →
  cleanup_loop fuel j uid found b
  = Done (b, found || (j <? length (kernels_info b))%nat).
Proof.
  induction fuel as [|fuel IH]; intros j found b Hl Ha Hfuel Hno; [lia|].
  simpl. destruct (kernels_info b !! j) as [k|] eqn:Hk.
  - replace (get_uid k =? uid) with false
      by (symmetry; apply Z.eqb_neq; by eapply Hno).
    rewrite Hl, Ha. simpl.
    rewrite IH; [|done|done| |].
    + f_equal. f_equal. rewrite orb_true_l.
      apply lookup_lt_Some in Hk.
      replace (j <? length (kernels_info b))%nat with true
        by (symmetry; by apply Nat.ltb_lt).
      by rewrite orb_true_r.
    + apply lookup_lt_Some in Hk. lia.
    + intros i k' Hi. apply Hno. lia.
  - apply lookup_ge_None in Hk.
    replace (j <? length (kernels_info b))%nat with false
      by (symmetry; by apply Nat.ltb_ge).
    by rewrite orb_false_r.
Qed.

Lemma cleanup_loop_first uid fuel : ∀ j found b i k,
  limit_reached b = false → active b = true →
  (i - j < fuel)%nat → (j ≤ i)%nat →
  kernels_info b !! i = Some k → get_uid k = uid →
  (∀ i' k', (j ≤ i' < i)%nat → kernels_info b !! i' = Some k' →
            get_uid k' ≠ uid) →
  cleanup_loop fuel j uid found b
  = Done (with_kernels
            (with_busy_streams b
               (erase_stream (get_cuda_stream_id k) (busy_streams b)))
            (delete i (kernels_info b)), true).
Proof.
  induction fuel as [|fuel IH]; intros j found b i k Hl Ha Hfuel Hji Hk Hu Hno;
    [lia|].
  simpl. destruct (decide (j = i)) as [->|Hne].
  - rewrite Hk, Hu, Z.eqb_refl. simpl.
    unfold limit_reached, active in *. simpl. by rewrite Hl, Ha.
  - assert (Hj : is_Some (kernels_info b !! j)).
    { apply lookup_lt_is_Some. apply lookup_lt_Some in Hk. lia. }
    destruct Hj as [kj Hkj]. rewrite Hkj.
    replace (get_uid kj =? uid) with false
      by (symmetry; apply Z.eqb_neq; eapply Hno; [|done]; lia).
    rewrite Hl, Ha. simpl.
    apply IH; try done; try lia.
    intros i' k' Hi'. apply Hno. lia.
Qed.

Lemma elem_of_erase_stream s x bs : x ∈ erase_stream s bs → x ∈ bs.
Proof.
  induction bs as [|y bs IH]; simpl; [done|].
  destruct (y =? s); [by right|].
  intros [->|H]%elem_of_cons; [by left|right; by apply IH].
Qed.

Lemma erase_stream_NoDup s bs :
  NoDup bs → NoDup (erase_stream s bs) ∧ s ∉ erase_stream s bs.
Proof.
  induction bs as [|y bs IH]; simpl; intros Hnd.
  - split; [constructor|]. by intros ?%elem_of_nil.
  - apply NoDup_cons in Hnd as [Hy Hnd].
    destruct (y =? s) eqn:E.
    + apply Z.eqb_eq in E as ->. done.
    + apply Z.eqb_neq in E. destruct (IH Hnd) as [IH1 IH2]. split.
      * apply NoDup_cons. split; [|done].
        intros H. by apply elem_of_erase_stream in H.
      * intros [?|?]%elem_of_cons; [congruence|done].
Qed.

(** X12: when a kernel finishes while the performance model stays active
    below the cap, the first kernel of the window with the finished uid
    is removed, and that one only; one entry of its stream leaves
    [busy_streams], which frees the stream when no stream is listed
    twice. *)
Theorem cleanup_removes_finished (uid : Z) (b : accelsim_bridge)
    (i : nat) (k : kernel) :
  active b = true → limit_reached b = false → uid ≠ 0 →
  kernels_info b !! i = Some k → get_uid k = uid →
  (∀ i' k', (i' < i)%nat → kernels_info b !! i' = Some k' →
            get_uid k' ≠ uid) →
  cleanup_finished_kernel uid b
  = Done (stats_step
            (with_kernels
               (with_busy_streams b
                  (erase_stream (get_cuda_stream_id k) (busy_streams b)))
               (delete i (kernels_info b))))
  ∧ ∃ b', cleanup_finished_kernel uid b = Done b'
      ∧ kernels_info b' = delete i (kernels_info b)
      ∧ (∀ l1 l2, busy_streams b = l1 ++ get_cuda_stream_id k :: l2 →
           get_cuda_stream_id k ∉ l1 → busy_streams b' = l1 ++ l2)
      ∧ (get_cuda_stream_id k ∉ busy_streams b →
         busy_streams b' = busy_streams b)
      ∧ (NoDup (busy_streams b) → get_cuda_stream_id k ∉ busy_streams b')
      ∧ commandlist b' = commandlist b ∧ command_idx b' = command_idx b.
Proof.
  intros Ha Hl Hu Hk Hkid Hfirst.
  assert (Heq : cleanup_finished_kernel uid b
    = Done (stats_step
              (with_kernels
                 (with_busy_streams b
                    (erase_stream (get_cuda_stream_id k) (busy_streams b)))
                 (delete i (kernels_info b))))).
  { rewrite cleanup_finished_kernel_eq. unfold cleanup_due.
    replace (uid =? 0) with false by (symmetry; by apply Z.eqb_neq).
    rewrite (cleanup_loop_first uid _ 0%nat false b i k); try done.
    + apply lookup_lt_Some in Hk. lia.
    + lia.
    + intros i' k' Hi'. apply Hfirst. lia. }
  split; [done|]. eexists. split; [exact Heq|].
  match goal with
  | |- context [stats_step ?x] =>
      destruct (stats_step_window x) as (-> & -> & (Hc & Hi & _))
  end.
  simpl in *. split; [done|]. split; [|split; [|split; [|done]]].
  - intros l1 l2 -> Hl1. by apply erase_stream_split.
  - apply erase_stream_absent.
  - intros Hnd. by apply erase_stream_NoDup.
Qed.

(** X13: a finished uid that no kernel of the window carries goes
    unnoticed: when the window is not empty the assertion on [k] holds,
    and the window and the busy streams stay as they are. *)
Theorem cleanup_unknown_uid (uid : Z) (b : accelsim_bridge) :
  active b = true → limit_reached b = false → uid ≠ 0 →
  kernels_info b ≠ [] →
  (∀ i k, kernels_info b !! i = Some k → get_uid k ≠ uid) →
  cleanup_finished_kernel uid b = Done (stats_step b)
  ∧ ∃ b', cleanup_finished_kernel uid b = Done b'
      ∧ kernels_info b' = kernels_info b
      ∧ busy_streams b' = busy_streams b
      ∧ commandlist b' = commandlist b ∧ command_idx b' = command_idx b.
Proof.
  intros Ha Hl Hu Hne Hno.
  assert (Heq : cleanup_finished_kernel uid b = Done (stats_step b)).
  { rewrite cleanup_finished_kernel_eq.
    unfold cleanup_due.
    replace (uid =? 0) with false by (symmetry; by apply Z.eqb_neq).
    rewrite cleanup_loop_none; try done; [|lia|by intros i k _; apply Hno].
    simpl.
    replace (0 <? length (kernels_info b))%nat with true; [done|].
    symmetry. apply Nat.ltb_lt. destruct (kernels_info b); simpl; [done|lia]. }
  split; [done|]. eexists. split; [exact Heq|].
  by destruct (stats_step_window b) as (-> & -> & (-> & -> & _)).
Qed.

(** X14: at the cap, or when the performance model is idle, the loop
    removes the kernel it stands on and steps over the one that moves into
    its place: the kernels at the even positions of the window go, those
    at the odd positions stay. *)
Theorem cleanup_at_cap (uid : Z) (b : accelsim_bridge) :
  limit_reached b = true ∨ active b = false →
  kernels_info b ≠ [] →
  ∃ b', cleanup_finished_kernel uid b = Done (stats_step b')
        ∧ kernels_info b' = odd_positions (kernels_info b)
        ∧ busy_streams b'
          = release (busy_streams b) (even_positions (kernels_info b))
        ∧ same_but_window b b'
        ∧ ∃ b'', cleanup_finished_kernel uid b = Done b''
            ∧ kernels_info b'' = odd_positions (kernels_info b)
            ∧ busy_streams b''
              = release (busy_streams b) (even_positions (kernels_info b))
            ∧ commandlist b'' = commandlist b
            ∧ command_idx b'' = command_idx b.
Proof.
  intros Hcap Hne.
  assert (Hc : limit_reached b || negb (active b) = true)
    by (destruct Hcap as [-> | ->]; [done|apply orb_true_r]).
  rewrite cleanup_finished_kernel_eq. unfold cleanup_due.
  rewrite <- orb_assoc, Hc, orb_true_r.
  destruct (cleanup_loop_all uid (S (length (kernels_info b))) []
              (kernels_info b) false b Hc eq_refl) as (b' & Hb' & Hks & Hbs & Hs);
    [lia|].
  simpl length in Hb'. rewrite Hb'. simpl.
  replace (length (kernels_info b) =? 0)%nat with false
    by (symmetry; apply Nat.eqb_neq; destruct (kernels_info b); simpl; [done|lia]).
  simpl. exists b'. do 4 (split; [done|]).
  eexists. split; [done|].
  destruct (stats_step_window b') as (-> & -> & (-> & -> & _)).
  destruct Hs as ((-> & -> & _) & _). done.
Qed.

(** *** The loops around the performance model *)



Lemma new_kernels_memcpy cs :
  Forall (λ c, is_memcpy c = true) cs → new_kernels cs = [].
Proof.
  unfold new_kernels. induction 1 as [|c cs Hc _ IH]; [done|]. simpl.
  replace (is_kernel c) with false; [done|].
  unfold is_memcpy, is_kernel in *. by destruct (m_type c).
Qed.

Lemma cleanup_empty_window uid b :
  kernels_info b = [] → cleanup_due uid b = true →
  cleanup_finished_kernel uid b = Aborted.
Proof.
  intros Hk Hd. rewrite cleanup_finished_kernel_eq, Hd. simpl. by rewrite Hk.
Qed.

(** X16: a trace whose commands that are left are all memory copies ends
    in the failed assertion of [cleanup_finished_kernel] when the
    performance model is idle after the copies: no kernel enters the
    window, the cycle loop comes back at once with uid 0, and the cleanup
    that is due finds no kernel. *)
Theorem memcpy_only_trace_fatal (fuel cycles : nat) (b : accelsim_bridge) :
  kernels_info b = [] → (0 < window_size b)%nat →
  (command_idx b < length (commandlist b))%nat →
  Forall (λ c, is_memcpy c = true) (drop (command_idx b) (commandlist b)) →
  active_ (memcpy_effect (drop (command_idx b) (commandlist b))
                         (m_gpgpu_sim b)) = false →
  run_to_completion (S fuel) (S cycles) b = Aborted.
Proof.
  intros Hk Hw Hidx Hall Hidle.
  unfold run_to_completion. cbn [run_loop].
  replace (commands_left b) with true
    by (symmetry; by apply Nat.ltb_lt).
  cbn [orb]. unfold run_body.
  pose proof (process_commands_loop_spec
                (S (length (commandlist b) - command_idx b)) b
                ltac:(lia)) as Hs.
  fold (process_commands b) in Hs.
  destruct (process_commands b) as [b1|what| |] eqn:Hp; simpl in Hs;
    [| |done|done].
  - destruct Hs as (cs & [Hl Hwin Hb Ho Hi Hok Hks Hgpu Hroom] & Hfull).
    assert (Hcs : Forall (λ c, is_memcpy c = true) cs).
    { rewrite Ho in Hall. by apply Forall_app in Hall as [? _]. }
    assert (Hk1 : kernels_info b1 = []).
    { by rewrite Hks, Hk, new_kernels_memcpy. }
    assert (Hrest : cs = drop (command_idx b) (commandlist b)).
    { destruct Hfull as [Hfull|Hfull]; [rewrite Hk1, Hwin in Hfull; simpl in Hfull; lia|].
      rewrite Ho. rewrite (drop_ge (commandlist b) (command_idx b1)).
      - by rewrite app_nil_r.
      - by rewrite <- Hl. }
    assert (Ha1 : active b1 = false).
    { unfold active. by rewrite Hgpu, Hrest. }
    simpl. unfold launch_kernels. rewrite Hk1. simpl. rewrite Ha1. simpl.
    rewrite cleanup_empty_window; [done|done|].
    unfold cleanup_due. by rewrite Ha1, orb_true_r.
  - destruct Hs as (_ & cs & b' & cmd & [Hl Hwin Hb Ho Hi Hok Hks Hgpu Hroom]
                    & _ & Hcmd & Hbad).
    exfalso. rewrite Forall_forall in Hall.
    assert (Hin : cmd ∈ drop (command_idx b) (commandlist b)).
    { apply (list_elem_of_lookup_2 _ (length cs)). rewrite lookup_drop.
      by rewrite <- Hi. }
    apply Hall in Hin. unfold command_ok in Hbad. by rewrite Hin in Hbad.
Qed.

End WithGpu.

Arguments accelsim_bridge : clear implicits.

(** ** A small performance model for the closed instances

    The model counts the cycles a launched kernel still needs, the cycles
    simulated, and logs the memory copies; it stops being active when the
    cap of [sample_cap] cycles is hit. *)
Record sample_gpu := {
  remaining : nat;
  elapsed : Z;
  copies : list (Z * Z)
}.

Definition sample_cap : Z := 2.

Definition sample_max_hit (g : sample_gpu) : bool := sample_cap <=? elapsed g.
Definition sample_active (g : sample_gpu) : bool :=
  (0 <? remaining g)%nat && negb (sample_max_hit g).
Definition sample_cycle (g : sample_gpu) : option sample_gpu :=
  Some {| remaining := pred (remaining g); elapsed := elapsed g + 1;
          copies := copies g |}.
Definition sample_finished (g : sample_gpu) : Z * sample_gpu :=
  (if (remaining g =? 0)%nat then 1 else 0, g).
Definition sample_launch (k : string * bool) (g : sample_gpu) : sample_gpu :=
  {| remaining := 5; elapsed := elapsed g; copies := copies g |}.
Definition sample_memcpy (addr count : Z) (g : sample_gpu) : sample_gpu :=
  {| remaining := remaining g; elapsed := elapsed g;
     copies := copies g ++ [(addr, count)] |}.
Definition sample_parse_memcpy (s : string) : Z * Z :=
  (4096, Z.of_nat (String.length s)).

Definition sample_bridge (cmds : list trace_command)
  : accelsim_bridge sample_gpu (string * bool) :=
  {| silent := true; window_size := 1; commandlist := cmds;
     kernels_info := []; busy_streams := []; command_idx := 0;
     m_gpgpu_sim := {| remaining := 0; elapsed := 0; copies := [] |};
     stdout := [] |}.

Definition sample_commands : list trace_command :=
  [ {| command_string := "MemcpyHtoD,0x1000,64"; m_type := cpu_gpu_mem_copy |};
    {| command_string := "kernel-1.traceg"; m_type := kernel_launch |};
    {| command_string := "kernel-2.traceg"; m_type := kernel_launch |} ].

Lemma process_commands_fill_witness :
  ∃ b', process_commands sample_parse_memcpy id (λ s, (s, false)) sample_memcpy
          (sample_bridge sample_commands) = Done b'
        ∧ command_idx b' = 2%nat
        ∧ kernels_info b' = [("kernel-1.traceg"%string, false)]
        ∧ copies (m_gpgpu_sim b') = [(4096, 20)].
Proof.
  pose proof (process_commands_fill sample_parse_memcpy id (λ s, (s, false))
                sample_memcpy (sample_bridge sample_commands)) as [H _].
  destruct (process_commands _ _ _ _ _) as [b'| | |] eqn:E; try done.
  exists b'. split; [done|]. vm_compute in E. by injection E as <-.
Defined.

Definition sample_getenv (value : option string) (name : string)
  : option string :=
  if String.eqb name "CYCLES" then value else None.

Definition sample_run (fuel cycles : nat) :=
  run_to_completion sample_parse_memcpy id (λ s, (s, false))
    (λ _, 1) fst (λ _, 0) snd (λ k, (fst k, true))
    sample_memcpy sample_active sample_cycle sample_finished sample_max_hit
    (λ _, true) sample_launch id elapsed id (λ _, [])
    fuel cycles (sample_bridge sample_commands).

Lemma cycle_cap_witness :
  gpu_max_cycle_opt (sample_getenv (Some (pretty 5000))) = 5000
  ∧ gpu_max_cycle_opt (sample_getenv (Some " 12 cycles"%string)) = 12
  ∧ gpu_max_cycle_opt (sample_getenv (Some (pretty 0))) = ULLONG_MAX
  ∧ gpu_max_cycle_opt (sample_getenv (Some (pretty (-7)))) = ULLONG_MAX
  ∧ gpu_max_cycle_opt (sample_getenv None) = ULLONG_MAX
  ∧ ∃ b', sample_run 1 10 = Done b'
          ∧ stdout b' = [ "launching memcpy command : MemcpyHtoD,0x1000,64";
                          "Header info loaded for kernel command : kernel-1.traceg";
                          "launching kernel name: kernel-1.traceg uid: 1";
                          max_cycle_notice; exit_notice_1; exit_notice_2 ]%string
          ∧ command_idx b' = 2%nat.
Proof.
  pose proof (λ getenv,
    cycle_cap (gpu := sample_gpu) (kernel := string * bool)
      sample_parse_memcpy id (λ s, (s, false))
      (λ _, 1) fst (λ _, 0) snd (λ k, (fst k, true))
      sample_memcpy sample_active sample_cycle sample_finished sample_max_hit
      (λ _, true) sample_launch id elapsed id (λ _, [])
      getenv) as H.
  split; [|split; [|split; [|split; [|split]]]].
  - apply (proj1 (H (sample_getenv (Some (pretty 5000))))); [reflexivity|].
    unfold INT_MAX. lia.
  - apply (proj1 (proj2 (H (sample_getenv (Some " 12 cycles"%string))))
             " 12 cycles"%string); [reflexivity|reflexivity|lia].
  - apply (proj1 (proj2 (proj2 (H (sample_getenv (Some (pretty 0))))))).
    right. left. exists 0. split; [reflexivity|]. unfold INT_MIN. lia.
  - apply (proj1 (proj2 (proj2 (H (sample_getenv (Some (pretty (-7)))))))).
    right. left. exists (-7). split; [reflexivity|]. unfold INT_MIN. lia.
  - apply (proj1 (proj2 (proj2 (H (sample_getenv None))))). by left.
  - pose proof (proj2 (proj2 (proj2 (H (sample_getenv None))))) as Hrun.
    unfold sample_run.
    eassert (E : run_body sample_parse_memcpy id (λ s, (s, false))
                   (λ _, 1) fst (λ _, 0) snd (λ k, (fst k, true))
                   sample_memcpy sample_active sample_cycle sample_finished sample_max_hit
                   (λ _, true) sample_launch id elapsed id (λ _, [])
                   10 (sample_bridge sample_commands) = Done _)
      by (vm_compute; reflexivity).
    destruct (Hrun 0%nat 10%nat (sample_bridge sample_commands) _
                eq_refl E eq_refl) as [Hdone Hout].
    eexists. split; [exact Hdone|]. split.
    + rewrite (Hout _ Hdone). reflexivity.
    + reflexivity.
Defined.

(** C6 as stated fails: CYCLES=4294967297 is a positive integer, and the
    cap becomes 1, the value [atoi] hands back; with CYCLES=2147483648 the
    cap stays unlimited. *)
Lemma cycle_cap_counterexample :
  ¬ (∀ (getenv : string → option string) (n : Z),
       getenv "CYCLES"%string = Some (pretty n) → 0 < n →
       gpu_max_cycle_opt getenv = n).
Proof.
  intros H.
  specialize (H (sample_getenv (Some (pretty 4294967297))) 4294967297
                eq_refl eq_refl).
  vm_compute in H. discriminate.
Qed.

(** ** A window of kernels for the closed instances

    The kernels are their uids, each on the stream of its own number; the
    state of the performance model is the pair of [active()] and
    [cycle_insn_cta_max_hit()]. *)
Definition window_bridge (g : bool * bool) (ks bs : list Z)
  : accelsim_bridge (bool * bool) Z :=
  {| silent := true; window_size := 4; commandlist := [];
     kernels_info := ks; busy_streams := bs; command_idx := 0;
     m_gpgpu_sim := g; stdout := [] |}.

Definition window_cleanup (uid : Z) (b : accelsim_bridge (bool * bool) Z) :=
  cleanup_finished_kernel id id fst snd (λ _, 0) id (λ _, []) uid b.

Lemma process_commands_settles_witness :
  ∃ b', process_commands sample_parse_memcpy id (λ s, (s, false))
          sample_memcpy (sample_bridge sample_commands) = Done b'
        ∧ process_commands sample_parse_memcpy id (λ s, (s, false))
            sample_memcpy b' = Done b'
        ∧ (length (kernels_info b') ≤ 1)%nat.
Proof.
  destruct (process_commands sample_parse_memcpy id (λ s, (s, false))
              sample_memcpy (sample_bridge sample_commands))
    as [b'| | |] eqn:E; try (vm_compute in E; discriminate).
  destruct (process_commands_settles sample_parse_memcpy id (λ s, (s, false))
              sample_memcpy (sample_bridge sample_commands) b' E)
    as (H1 & H2 & _).
  exists b'. split; [reflexivity|]. split; [exact H1|exact H2].
Defined.

Lemma cleanup_removes_finished_witness :
  window_cleanup 7 (window_bridge (true, false) [5; 7; 9] [5; 7])
  = Done (window_bridge (true, false) [5; 9] [5]).
Proof.
  refine (proj1 (cleanup_removes_finished id id fst snd (λ _, 0) id (λ _, []) 7
                   (window_bridge (true, false) [5; 7; 9] [5; 7]) 1 7
                   eq_refl eq_refl _ eq_refl eq_refl _)).
  - discriminate.
  - intros [|i'] k' Hi Hk; [injection Hk as <-; discriminate|lia].
Defined.

Lemma cleanup_unknown_uid_witness :
  window_cleanup 8 (window_bridge (true, false) [5; 7; 9] [5; 7])
  = Done (window_bridge (true, false) [5; 7; 9] [5; 7]).
Proof.
  refine (proj1 (cleanup_unknown_uid id id fst snd (λ _, 0) id (λ _, []) 8
                   (window_bridge (true, false) [5; 7; 9] [5; 7])
                   eq_refl eq_refl _ _ _)).
  - discriminate.
  - discriminate.
  - intros [|[|[|i]]] k Hk; try discriminate;
      injection Hk as <-; discriminate.
Defined.

Lemma cleanup_at_cap_witness :
  ∃ b'', window_cleanup 0 (window_bridge (true, true) [5; 7; 9] [5; 7; 9])
         = Done b''
         ∧ kernels_info b'' = [7] ∧ busy_streams b'' = [7].
Proof.
  destruct (cleanup_at_cap id id fst snd (λ _, 0) id (λ _, []) 0
              (window_bridge (true, true) [5; 7; 9] [5; 7; 9])
              (or_introl eq_refl))
    as (_ & _ & _ & _ & _ & b'' & H & Hk & Hb & _).
  - discriminate.
  - exists b''. split; [exact H|]. split; [exact Hk|exact Hb].
Defined.



(** A trace of one memory copy, and a performance model that is idle. *)
Definition memcpy_bridge : accelsim_bridge unit Z :=
  {| silent := true; window_size := 1;
     commandlist := [ {| command_string := "MemcpyHtoD,0x1000,64";
                         m_type := cpu_gpu_mem_copy |} ];
     kernels_info := []; busy_streams := []; command_idx := 0;
     m_gpgpu_sim := tt; stdout := [] |}.

Lemma memcpy_only_trace_fatal_witness :
  run_to_completion sample_parse_memcpy (λ _, 0) id id (λ _, EmptyString) id
    (λ _, false) id
    (λ _ _ g, g) (λ _, false) Some (λ g, (0, g)) (λ _, false) (λ _, true)
    (λ _ g, g) id (λ _, 0) id (λ _, []) 1 1 memcpy_bridge
  = Aborted.
Proof.
  apply (memcpy_only_trace_fatal (gpu := unit) (kernel := Z)
           sample_parse_memcpy (λ _, 0) id id (λ _, EmptyString) id
           (λ _, false) id
           (λ _ _ g, g) (λ _, false) Some (λ g, (0, g)) (λ _, false)
           (λ _, true) (λ _ g, g) id (λ _, 0) id (λ _, []) 0 0
           memcpy_bridge).
  - reflexivity.
  - vm_compute. lia.
  - vm_compute. lia.
  - repeat constructor.
  - reflexivity.
Defined.

End Bridge.

(* ================================================================== *)
(** * [std::map<int, V>]: association lists sorted by key *)
(* ================================================================== *)

Module StdMap.

Abbreviation t V := (list (Z * V)) (only parsing).

Section Ops.
Context {V : Type}.

Fixpoint find (k : Z) (m : t V) : option V :=
  match m with
  | [] => None
  | (k', v) :: m => if k =? k' then Some v else find k m
  end.

Definition count (k : Z) (m : t V) : Z :=
  match find k m with Some _ => 1 | None => 0 end.

(** m[k] = v *)
Fixpoint insert (k : Z) (v : V) (m : t V) : t V :=
  match m with
  | [] => [(k, v)]
  | (k', v') :: m' =>
      if k <? k' then (k, v) :: m
      else if k =? k' then (k, v) :: m'
      else (k', v') :: insert k v m'
  end.

(** The value read through [m[k]]: a key that is absent reads as the
    value-initialised [d]. *)
Definition at_ (d : V) (k : Z) (m : t V) : V := default d (find k m).

Definition keys (m : t V) : list Z := fst <$> m.
Definition size (m : t V) : Z := Z.of_nat (length m).

(** Keys strictly increasing, as every map built by [insert] has them. *)
Definition sorted (m : t V) : Prop := StronglySorted Z.lt (keys m).

Lemma find_insert_eq k v m : find k (insert k v m) = Some v.
Proof.
  induction m as [|[k' v'] m IH]; simpl.
  - by rewrite Z.eqb_refl.
  - destruct (k <? k') eqn:Hlt; simpl; [by rewrite Z.eqb_refl|].
    destruct (k =? k') eqn:Heq; simpl; [by rewrite Z.eqb_refl|].
    by rewrite Heq.
Qed.

Lemma find_insert_ne k k' v m : k ≠ k' → find k' (insert k v m) = find k' m.
Proof.
  intros Hne. induction m as [|[k1 v1] m IH]; simpl.
  - by replace (k' =? k) with false by (symmetry; apply Z.eqb_neq; lia).
  - destruct (k <? k1) eqn:Hlt; simpl.
    + by replace (k' =? k) with false by (symmetry; apply Z.eqb_neq; lia).
    + destruct (k =? k1) eqn:Heq; simpl.
      * apply Z.eqb_eq in Heq as <-.
        by replace (k' =? k) with false by (symmetry; apply Z.eqb_neq; lia).
      * by rewrite IH.
Qed.

Lemma find_Some_elem k v m : find k m = Some v → (k, v) ∈ m.
Proof.
  induction m as [|[k' v'] m IH]; simpl; [done|].
  destruct (k =? k') eqn:Heq.
  - apply Z.eqb_eq in Heq as <-. intros [= <-]. by left.
  - intros H. right. by apply IH.
Qed.

Lemma sorted_cons k v m :
  sorted ((k, v) :: m) → sorted m ∧ ∀ k' v', (k', v') ∈ m → k < k'.
Proof.
  unfold sorted, keys. simpl. intros H.
  apply StronglySorted_inv in H as [Hs Hall]. split; [done|].
  intros k' v' Hin. rewrite List.Forall_forall in Hall. apply Hall.
  apply list_elem_of_In, list_elem_of_fmap. by exists (k', v').
Qed.

Lemma elem_find k v m : sorted m → (k, v) ∈ m → find k m = Some v.
Proof.
  induction m as [|[k' v'] m IH]; intros Hs Hin.
  - by apply elem_of_nil in Hin.
  - apply sorted_cons in Hs as [Hs Hlt]. simpl.
    apply elem_of_cons in Hin as [[= <- <-]|Hin].
    + by rewrite Z.eqb_refl.
    + specialize (Hlt _ _ Hin).
      replace (k =? k') with false by (symmetry; apply Z.eqb_neq; lia).
      by apply IH.
Qed.

Lemma elem_insert k v m e :
  e ∈ insert k v m → e = (k, v) ∨ e ∈ m.
Proof.
  induction m as [|[k' v'] m IH]; simpl.
  - intros [-> | H]%elem_of_cons; [by left|by right].
  - destruct (k <? k'); [|destruct (k =? k')].
    + intros [-> | H]%elem_of_cons; [by left|by right].
    + intros [-> | H]%elem_of_cons; [by left|right; by right].
    + intros [-> | H]%elem_of_cons; [right; by left|].
      destruct (IH H) as [-> | ?]; [by left|right; by right].
Qed.

Lemma insert_sorted k v m : sorted m → sorted (insert k v m).
Proof.
  unfold sorted, keys. induction m as [|[k' v'] m IH]; intros Hs; simpl.
  - repeat constructor.
  - rewrite fmap_cons in Hs. apply StronglySorted_inv in Hs as [Hs Hall].
    simpl in Hall. rewrite List.Forall_forall in Hall.
    destruct (k <? k') eqn:Hlt; [|destruct (k =? k') eqn:Heq].
    + apply Z.ltb_lt in Hlt. rewrite !fmap_cons. simpl.
      constructor; [by constructor; [|apply List.Forall_forall]|].
      constructor; [done|]. apply List.Forall_forall. intros x Hx.
      specialize (Hall x Hx). lia.
    + apply Z.eqb_eq in Heq as ->. rewrite fmap_cons. simpl.
      constructor; [done|by apply List.Forall_forall].
    + apply Z.ltb_ge in Hlt. apply Z.eqb_neq in Heq.
      rewrite fmap_cons. simpl. constructor; [by apply IH|].
      apply List.Forall_forall. intros x Hx.
      apply list_elem_of_In, list_elem_of_fmap in Hx as ([k1 v1] & -> & Hin).
      apply elem_insert in Hin as [[= -> ->] | Hin]; simpl; [lia|].
      apply Hall, list_elem_of_In, list_elem_of_fmap. by exists (k1, v1).
Qed.

(** Writing under a key that is there keeps the keys. *)
Lemma keys_insert_present k v m :
  sorted m → is_Some (find k m) → keys (insert k v m) = keys m.
Proof.
  unfold sorted, keys. induction m as [|[k' v'] m IH];
    [by intros _ [? ?]|].
  rewrite fmap_cons. intros [Hs Hall]%StronglySorted_inv.
  simpl in Hall. rewrite List.Forall_forall in Hall. simpl.
  destruct (k =? k') eqn:Heq.
  - apply Z.eqb_eq in Heq as ->. by rewrite Z.ltb_irrefl.
  - intros [x Hx]. destruct (k <? k') eqn:Hlt.
    + exfalso. apply Z.ltb_lt in Hlt. apply find_Some_elem in Hx.
      assert (Hin : k ∈ fst <$> m)
        by (apply list_elem_of_fmap; by exists (k, x)).
      apply list_elem_of_In, Hall in Hin. lia.
    + rewrite fmap_cons. simpl. f_equal. apply IH; [done|by exists x].
Qed.

Lemma elem_keys_find k m : k ∈ keys m → is_Some (find k m).
Proof.
  unfold keys. induction m as [|[k' v'] m IH].
  - by intros ?%elem_of_nil.
  - rewrite fmap_cons. simpl. destruct (k =? k') eqn:Heq; [by eexists|].
    apply Z.eqb_neq in Heq.
    intros [? | ?]%elem_of_cons; [done|by apply IH].
Qed.

End Ops.

End StdMap.

(* ================================================================== *)
(** * anynet.cpp: the topology file *)
(* ================================================================== *)

Module AnyNet.
Import Libc.

Inductive ParseState := HEAD_TYPE | HEAD_ID | BODY_TYPE | BODY_ID | LINK_WEIGHT.
Inductive ParseType := NODE | ROUTER | UNKNOWN.

(** A link: the output port (-1 until [_BuildNet] numbers it) and the
    latency. *)
Abbreviation link := (Z * Z)%type.
Abbreviation links := (StdMap.t (StdMap.t link)).

(** [node_list], [router_list[NODE]] and [router_list[ROUTER]]. *)
Record netlist := {
  node_list : StdMap.t Z;
  to_nodes : links;
  to_routers : links
}.

Definition empty_netlist : netlist :=
  {| node_list := []; to_nodes := []; to_routers := [] |}.

(** router_list[t]; the vector has the two entries NODE and ROUTER. *)
Definition router_list (t : ParseType) (n : netlist) : outcome links :=
  match t with
  | NODE => Done (to_nodes n)
  | ROUTER => Done (to_routers n)
  | UNKNOWN => Aborted
  end.

Definition set_router_list (t : ParseType) (m : links) (n : netlist)
  : outcome netlist :=
  match t with
  | NODE => Done {| node_list := node_list n; to_nodes := m;
                    to_routers := to_routers n |}
  | ROUTER => Done {| node_list := node_list n; to_nodes := to_nodes n;
                      to_routers := m |}
  | UNKNOWN => Aborted
  end.

Definition set_node_list (m : StdMap.t Z) (n : netlist) : netlist :=
  {| node_list := m; to_nodes := to_nodes n; to_routers := to_routers n |}.

(** if (m.count(id) == 0) m[id] = map(); *)
Definition init_router (id : Z) (m : links) : links :=
  if StdMap.count id m =? 0 then StdMap.insert id [] m else m.

(** if (router_list[NODE].count(id) == 0) ...;
    if (router_list[ROUTER].count(id) == 0) ...; *)
Definition init_router_structures (id : Z) (n : netlist) : netlist :=
  {| node_list := node_list n;
     to_nodes := init_router id (to_nodes n);
     to_routers := init_router id (to_routers n) |}.

(** m[a][b] = v *)
Definition set_link (a b : Z) (v : link) (m : links) : links :=
  StdMap.insert a (StdMap.insert b v (StdMap.at_ [] a m)) m.

(** m[a][b].second = w *)
Definition set_latency (a b : Z) (w : Z) (m : links) : links :=
  let inner := StdMap.at_ [] a m in
  let l := StdMap.at_ (0, 0) b inner in
  StdMap.insert a (StdMap.insert b (fst l, w) inner) m.

(** The variables of [readFile] that live for one line. *)
Record line_vars := {
  state : ParseState;
  head_id : Z;
  head_type : ParseType;
  body_type : ParseType;
  body_id : Z;
  link_weight : Z
}.

Definition line_start : line_vars :=
  {| state := HEAD_TYPE; head_id := -1; head_type := UNKNOWN;
     body_type := UNKNOWN; body_id := -1; link_weight := 1 |}.

Definition type_of_word (temp : string) : outcome ParseType :=
  if String.eqb temp "router" then Done ROUTER
  else if String.eqb temp "node" then Done NODE
  else Aborted.

(** case BODY_TYPE *)
Definition on_body_type (temp : string) (v : line_vars) (n : netlist)
  : outcome (line_vars * netlist) :=
  ty ← type_of_word temp;
  Done ({| state := BODY_ID; head_id := head_id v; head_type := head_type v;
           body_type := ty; body_id := body_id v;
           link_weight := link_weight v |}, n).

(** case BODY_ID *)
Definition on_body_id (temp : string) (v : line_vars) (n : netlist)
  : outcome (line_vars * netlist) :=
  let body_id := atoi temp in
  let n := match body_type v with
           | ROUTER => init_router_structures body_id n
           | _ => n
           end in
  let v' := {| state := LINK_WEIGHT; head_id := head_id v;
               head_type := head_type v; body_type := body_type v;
               body_id := body_id; link_weight := link_weight v |} in
  match head_type v, body_type v with
  | NODE, NODE => Aborted
  | NODE, ROUTER =>
      if negb (StdMap.count (head_id v) (node_list n) =? 0)
         && negb (StdMap.at_ 0 (head_id v) (node_list n) =? body_id)
      then Aborted
      else
        let n := set_node_list
                   (StdMap.insert (head_id v) body_id (node_list n)) n in
        n ← set_router_list NODE
              (set_link body_id (head_id v) (-1, 1) (to_nodes n)) n;
        Done (v', n)
  | ROUTER, NODE =>
      if negb (StdMap.count body_id (node_list n) =? 0)
         && negb (StdMap.at_ 0 body_id (node_list n) =? head_id v)
      then Aborted
      else
        let n := set_node_list
                   (StdMap.insert body_id (head_id v) (node_list n)) n in
        n ← set_router_list NODE
              (set_link (head_id v) body_id (-1, 1) (to_nodes n)) n;
        Done (v', n)
  | ROUTER, ROUTER =>
      let m := set_link (head_id v) body_id (-1, 1) (to_routers n) in
      let m := if StdMap.count (head_id v) (StdMap.at_ [] body_id m) =? 0
               then set_link body_id (head_id v) (-1, 1) m
               else m in
      n ← set_router_list ROUTER m n;
      Done (v', n)
  | _, _ => Done (v', n)
  end.

(** The body of the switch for one word that is not empty. *)
Definition on_word (temp : string) (v : line_vars) (n : netlist)
  : outcome (line_vars * netlist) :=
  match state v with
  | HEAD_TYPE =>
      ty ← type_of_word temp;
      Done ({| state := HEAD_ID; head_id := head_id v; head_type := ty;
               body_type := body_type v; body_id := body_id v;
               link_weight := link_weight v |}, n)
  | HEAD_ID =>
      let head_id := atoi temp in
      Done ({| state := BODY_TYPE; head_id := head_id;
               head_type := head_type v; body_type := body_type v;
               body_id := body_id v; link_weight := link_weight v |},
            init_router_structures head_id n)
  | LINK_WEIGHT =>
      if String.eqb temp "router" || String.eqb temp "node"
      then on_body_type temp v n     (* falls through to BODY_TYPE *)
      else
        let link_weight := atoi temp in
        m ← router_list (head_type v) n;
        n ← set_router_list (head_type v)
              (set_latency (head_id v) (body_id v) link_weight m) n;
        Done ({| state := LINK_WEIGHT; head_id := head_id v;
                 head_type := head_type v; body_type := body_type v;
                 body_id := body_id v; link_weight := link_weight |}, n)
  | BODY_TYPE => on_body_type temp v n
  | BODY_ID => on_body_id temp v n
  end.

(** The words of a line: the do-while loop cuts the line at every " "
    ([line.find(" ", pos)], [line.substr(pos, next_pos - pos)]) and skips
    the empty pieces. *)
Fixpoint split_space (line : string) (cur : string) : list string :=
  match line with
  | EmptyString => [cur]
  | String a rest =>
      if Ascii.eqb a " " then cur :: split_space rest ""
      else split_space rest (cur +:+ String a "")
  end.

Definition words (line : string) : list string :=
  List.filter (λ temp, negb (String.eqb temp "")) (split_space line "").

Fixpoint parse_words (ws : list string) (v : line_vars) (n : netlist)
  : outcome netlist :=
  match ws with
  | [] => Done n
  | temp :: ws => '(v, n) ← on_word temp v n; parse_words ws v n
  end.

(** One turn of the loop over the lines of the file. *)
Definition parse_line (line : string) (n : netlist) : outcome netlist :=
  if String.eqb line "" then Done n
  else parse_words (words line) line_start n.

Fixpoint parse_lines (lines : list string) (n : netlist) : outcome netlist :=
  match lines with
  | [] => Done n
  | line :: lines => n ← parse_line line n; parse_lines lines n
  end.

(** The two checks that end [readFile]: both maps have the same number of
    routers, and the node numbers are 0, 1, 2, ... *)
Definition netlist_checks (n : netlist) : bool :=
  (StdMap.size (to_nodes n) =? StdMap.size (to_routers n))
  && bool_decide (StdMap.keys (node_list n)
                  = seqZ 0 (StdMap.size (node_list n))).

(** [readFile()] over the lines of the network file. *)
Definition readFile (lines : list string) : outcome netlist :=
  n ← parse_lines lines empty_netlist;
  if netlist_checks n then Done n else Aborted.

(** The latency of the channel from router [a] to router [b]. *)
Definition router_latency (a b : Z) (n : netlist) : option Z :=
  snd <$> StdMap.find b (StdMap.at_ [] a (to_routers n)).

Definition node_latency (r d : Z) (n : netlist) : option Z :=
  snd <$> StdMap.find d (StdMap.at_ [] r (to_nodes n)).

(** ** [_ComputeSize] and [_BuildNet]: sizes and output ports *)

Definition _size (n : netlist) : Z := StdMap.size (to_routers n).
Definition _nodes (n : netlist) : Z := StdMap.size (node_list n).

Definition in_range (size i : Z) : bool := (0 <=? i) && (i <? size).

(** The links of one router numbered from [outport] on, in the order of
    the map: (m)[link].first = outport[node]; outport[node]++; *)
Fixpoint number_ports (outport : Z) (m : StdMap.t link) : StdMap.t link :=
  match m with
  | [] => []
  | (k, (_, lat)) :: m => (k, (outport, lat)) :: number_ports (outport + 1) m
  end.

(** The first loop of [_BuildNet]: the injection and ejection channels of
    every router of [router_list[0]]; the router must be in
    [router_list[1]] and be an index of [outport] and [_routers], its
    nodes must be indices of [_inject] and [_eject]. *)
Fixpoint number_node_ports (size nodes : Z) (rt : links) (m : links)
  : outcome links :=
  match m with
  | [] => Done []
  | (node, ns) :: m =>
      _ ← must (StdMap.find node rt);
      _ ← must (assert_ (in_range size node));
      _ ← must (assert_ (forallb (in_range nodes) (StdMap.keys ns)));
      m' ← number_node_ports size nodes rt m;
      Done ((node, number_ports 0 ns) :: m')
  end.

(** The second loop: the channels between routers, numbered after the
    node channels of the router. *)
Fixpoint number_router_ports (size : Z) (m : links) (rt : links) : outcome links :=
  match m with
  | [] => Done rt
  | (node, ns) :: m =>
      rs ← must (StdMap.find node rt);
      _ ← must (assert_ (forallb (in_range size) (StdMap.keys rs)));
      number_router_ports size m
        (StdMap.insert node (number_ports (StdMap.size ns) rs) rt)
  end.

Definition _BuildNet (n : netlist) : outcome netlist :=
  tn ← number_node_ports (_size n) (_nodes n) (to_routers n) (to_nodes n);
  tr ← number_router_ports (_size n) (to_nodes n) (to_routers n);
  Done {| node_list := node_list n; to_nodes := tn; to_routers := tr |}.

(** ** [route]: the shortest paths from one router *)

(** new int[size], every element [v]; a read or a write outside the array
    is fatal. *)
Definition new_array (size v : Z) : gmap Z Z :=
  list_to_map ((λ i, (i, v)) <$> seqZ 0 size).

Definition array_set (a : gmap Z Z) (i v : Z) : outcome (gmap Z Z) :=
  _ ← must (a !! i); Done (<[i := v]> a).

(** [int] addition; an overflow is undefined. *)
Definition int_add (a b : Z) : outcome Z :=
  if (INT_MIN <=? a + b) && (a + b <=? INT_MAX) then Done (a + b) else Aborted.

(** The scan for the closest router of [rlist]. *)
Fixpoint find_min (dist : gmap Z Z) (rlist : list Z) (min_dist min_cand : Z)
  : outcome Z :=
  match rlist with
  | [] => Done min_cand
  | i :: rlist =>
      di ← must (dist !! i);
      if di <? min_dist then find_min dist rlist di i
      else find_min dist rlist min_dist min_cand
  end.

(** rlist.erase(min_cand) *)
Definition erase (k : Z) (rlist : list Z) : list Z :=
  List.filter (λ i, negb (i =? k)) rlist.

(** The loop over the neighbours of [min_cand]. *)
Fixpoint relax (min_cand : Z) (nbrs : StdMap.t link) (dist prev : gmap Z Z)
  : outcome (gmap Z Z * gmap Z Z) :=
  match nbrs with
  | [] => Done (dist, prev)
  | (i, (_, lat)) :: nbrs =>
      d ← must (dist !! min_cand);
      new_dist ← int_add d lat;
      di ← must (dist !! i);
      if new_dist <? di
      then relax min_cand nbrs (<[i := new_dist]> dist) (<[i := min_cand]> prev)
      else relax min_cand nbrs dist prev
  end.

(** while (!rlist.empty()) { ... }; reading [router_list[1][min_cand]]
    of a router that is absent yields the empty map. *)
Fixpoint dijkstra (fuel : nat) (rt : links) (dist prev : gmap Z Z)
    (rlist : list Z) : outcome (gmap Z Z * gmap Z Z) :=
  match fuel with
  | O => Timeout
  | S fuel =>
      match rlist with
      | [] => Done (dist, prev)
      | _ =>
          min_cand ← find_min dist rlist INT_MAX (-1);
          '(dist, prev) ← relax min_cand (StdMap.at_ [] min_cand rt) dist prev;
          dijkstra fuel rt dist prev (erase min_cand rlist)
      end
  end.

(** while (prev[neighbor] != r_start) { assert(...);
      distance += router_list[1][prev[neighbor]][neighbor].second;
      neighbor = prev[neighbor]; }
    distance += router_list[1][prev[neighbor]][neighbor].second; *)
Fixpoint first_hop (fuel : nat) (rt : links) (prev : gmap Z Z)
    (r_start neighbor distance : Z) : outcome (Z * Z) :=
  match fuel with
  | O => Timeout
  | S fuel =>
      p ← must (prev !! neighbor);
      let lat := snd (StdMap.at_ (0, 0) neighbor (StdMap.at_ [] p rt)) in
      if negb (p =? r_start) then
        _ ← must (assert_ (0 <? StdMap.count p (StdMap.at_ [] neighbor rt)));
        distance ← int_add distance lat;
        first_hop fuel rt prev r_start p distance
      else
        distance ← int_add distance lat;
        Done (neighbor, distance)
  end.

(** routing_table[r_start][iter->first] = port, for the nodes of a
    router *)
Definition set_ports (port : option Z) (ns : StdMap.t link) (row : StdMap.t Z)
  : StdMap.t Z :=
  foldl (λ row '(node, (p, _)), StdMap.insert node (default p port) row) row ns.

(** The body of the loop that turns [prev] into a row of the table. *)
Definition route_row (fuel : nat) (n : netlist) (prev : gmap Z Z)
    (r_start i : Z) (row : StdMap.t Z) : outcome (StdMap.t Z) :=
  p ← must (prev !! i);
  if p =? -1 then
    _ ← must (assert_ (i =? r_start));
    Done (set_ports None (StdMap.at_ [] i (to_nodes n)) row)
  else
    '(neighbor, _) ← first_hop fuel (to_routers n) prev r_start i 0;
    _ ← must (assert_ (negb (StdMap.count neighbor
                              (StdMap.at_ [] r_start (to_routers n)) =? 0)));
    let port := fst (StdMap.at_ (0, 0) neighbor
                       (StdMap.at_ [] r_start (to_routers n))) in
    Done (set_ports (Some port) (StdMap.at_ [] i (to_nodes n)) row).

Fixpoint route_rows (fuel : nat) (n : netlist) (prev : gmap Z Z)
    (r_start : Z) (routers : list Z) (row : StdMap.t Z)
  : outcome (StdMap.t Z) :=
  match routers with
  | [] => Done row
  | i :: routers =>
      row ← route_row fuel n prev r_start i row;
      route_rows fuel n prev r_start routers row
  end.

(** [route(r_start)]: the row [routing_table[r_start]]; [fuel] bounds the
    turns of each of the two while loops. *)
Definition route (fuel : nat) (n : netlist) (r_start : Z)
  : outcome (StdMap.t Z) :=
  let dist := new_array (_size n) INT_MAX in
  let prev := new_array (_size n) (-1) in
  let rlist := seqZ 0 (_size n) in
  dist ← array_set dist r_start 0;
  '(dist, prev) ← dijkstra fuel (to_routers n) dist prev rlist;
  route_rows fuel n prev r_start (seqZ 0 (_size n)) [].

(** [buildRoutingTable()]: routing_table[i] for i = 0 .. _size - 1 *)
Fixpoint route_all (fuel : nat) (n : netlist) (routers : list Z)
  : outcome (list (StdMap.t Z)) :=
  match routers with
  | [] => Done []
  | i :: routers =>
      row ← route fuel n i;
      rows ← route_all fuel n routers;
      Done (row :: rows)
  end.

Definition buildRoutingTable (fuel : nat) (n : netlist)
  : outcome (list (StdMap.t Z)) :=
  route_all fuel n (seqZ 0 (_size n)).

(** The network built from the lines of a file. *)
Definition build (fuel : nat) (lines : list string)
  : outcome (netlist * list (StdMap.t Z)) :=
  n ← readFile lines;
  n ← _BuildNet n;
  table ← buildRoutingTable fuel n;
  Done (n, table).

(** ** Paths of the router graph *)

(** The channel from router [u] to router [v] has latency [w]. *)
Definition edge (rt : links) (u v w : Z) : Prop :=
  ∃ port, StdMap.find v (StdMap.at_ [] u rt) = Some (port, w).

(** A walk along channels from [u] to [v] of total latency [c]. *)
Inductive path (rt : links) : Z → Z → Z → Prop :=
| path_nil u : path rt u u 0
| path_cons u v x w c : edge rt u v w → path rt v x c → path rt u x (w + c).

(** [c] is the least total latency of a walk from [u] to [v]: the
    distance Dijkstra's algorithm is to find. *)
Definition shortest (rt : links) (u v c : Z) : Prop :=
  path rt u v c ∧ ∀ c', path rt u v c' → c ≤ c'.

(** ** Following the table

    [min_anynet]: out_port = global_routing_table[r->GetID()][f->dest],
    after the assertion that the entry is there; -1 at injection. *)
Definition min_anynet (table : list (StdMap.t Z)) (r dest : Z) (inject : bool)
  : outcome Z :=
  if inject then Done (-1)
  else
    _ ← must (assert_ (0 <=? r));
    row ← must (table !! Z.to_nat r);
    must (StdMap.find dest row).

(** What hangs on output port [q] of router [cur]: [_BuildNet] adds the
    ejection channels of the router first and its channels to other
    routers next, each under the port number it stores in the link. *)
Definition ports (m : StdMap.t link) : list Z := (λ e, fst (snd e)) <$> m.
Definition port_is (q : Z) (e : Z * link) : bool := fst (snd e) =? q.

Definition node_at_port (n : netlist) (cur q : Z) : option Z :=
  fst <$> List.find (port_is q) (StdMap.at_ [] cur (to_nodes n)).

Definition router_at_port (n : netlist) (cur q : Z) : option (Z * Z) :=
  (λ e, (fst e, snd (snd e)))
    <$> List.find (port_is q) (StdMap.at_ [] cur (to_routers n)).

(** A flit for node [d] at router [cur] takes the port of the table until
    it is ejected; the result is the latency of the channels between
    routers it crossed. *)
Fixpoint follow (hops : nat) (n : netlist) (table : list (StdMap.t Z))
    (cur d latency : Z) : outcome Z :=
  match hops with
  | O => Timeout
  | S hops =>
      q ← min_anynet table cur d false;
      match node_at_port n cur q with
      | Some d' => if d' =? d then Done latency else Aborted
      | None =>
          '(next, w) ← must (router_at_port n cur q);
          follow hops n table next d (latency + w)
      end
  end.

(** The largest latency for which [_size] hops still fit an [int]. *)
Definition max_latency (n : netlist) : Z := (INT_MAX - 1) / _size n.

(** The topologies [route] is written for: routers numbered from 0, every
    channel to a router of the network and with a channel back, latencies
    of at least one cycle that cannot overflow, every router reachable,
    and every node on one router. *)
Record topology_ok (n : netlist) : Prop := {
  ok_sorted : StdMap.sorted (to_routers n);
  ok_routers : StdMap.keys (to_routers n) = seqZ 0 (_size n);
  ok_links_sorted : ∀ u, StdMap.sorted (StdMap.at_ [] u (to_routers n));
  ok_range : ∀ u v w, edge (to_routers n) u v w → 0 ≤ v < _size n;
  ok_latency : ∀ u v w, edge (to_routers n) u v w → 1 ≤ w ≤ max_latency n;
  ok_back : ∀ u v w, edge (to_routers n) u v w →
                     ∃ w', edge (to_routers n) v u w';
  ok_connected : ∀ u v, 0 ≤ u < _size n → 0 ≤ v < _size n →
                        ∃ c, path (to_routers n) u v c;
  ok_nodes_sorted : ∀ i, StdMap.sorted (StdMap.at_ [] i (to_nodes n));
  ok_node_once : ∀ i j d, 0 ≤ i < _size n → 0 ≤ j < _size n →
      is_Some (StdMap.find d (StdMap.at_ [] i (to_nodes n))) →
      is_Some (StdMap.find d (StdMap.at_ [] j (to_nodes n))) → i = j;
  ok_ports : ∀ u, NoDup (ports (StdMap.at_ [] u (to_nodes n))
                         ++ ports (StdMap.at_ [] u (to_routers n)))
}.

(** What [std::map] keeps of the two tables of links: the routers in
    increasing order, and the links of each router in increasing order. *)
Definition links_sorted (m : links) : Prop :=
  StdMap.sorted m ∧ Forall (λ e, StdMap.sorted (snd e)) m.

Definition net_sorted (n : netlist) : Prop :=
  links_sorted (to_nodes n) ∧ links_sorted (to_routers n).

(** What [readFile] and [_BuildNet] do not check of the channels: the
    latencies, the channel back that [route] asserts, that every router
    can be reached, and that a node hangs on one router. *)
Record channels_ok (n : netlist) : Prop := {
  ch_latency : ∀ u v w, edge (to_routers n) u v w → 1 ≤ w ≤ max_latency n;
  ch_back : ∀ u v w, edge (to_routers n) u v w →
                     ∃ w', edge (to_routers n) v u w';
  ch_connected : ∀ u v, 0 ≤ u < _size n → 0 ≤ v < _size n →
                        ∃ c, path (to_routers n) u v c;
  ch_node_once : ∀ i j d, 0 ≤ i < _size n → 0 ≤ j < _size n →
      is_Some (StdMap.find d (StdMap.at_ [] i (to_nodes n))) →
      is_Some (StdMap.find d (StdMap.at_ [] j (to_nodes n))) → i = j
}.

(** [_BuildNet] on the links of one router of [router_list[0]]. *)
Definition number_all (e : Z * StdMap.t link) : Z * StdMap.t link :=
  (fst e, number_ports 0 (snd e)).

Lemma path_snoc rt a u v c w :
  path rt a u c → edge rt u v w → path rt a v (c + w).
Proof.
  induction 1 as [u|a b u w' c' He Hp IH]; intros Hedge.
  - replace (0 + w) with (w + 0) by lia. econstructor; [done|constructor].
  - replace (w' + c' + w) with (w' + (c' + w)) by lia.
    econstructor; [done|by apply IH].
Qed.

Lemma path_app rt a b c x y :
  path rt a b x → path rt b c y → path rt a c (x + y).
Proof.
  induction 1 as [u|a b' u w' c' He Hp IH]; intros H2; [done|].
  replace (w' + c' + y) with (w' + (c' + y)) by lia.
  econstructor; [done|by apply IH].
Qed.

Lemma shortest_unique rt u v c c' :
  shortest rt u v c → shortest rt u v c' → c = c'.
Proof. intros [H1 H2] [H3 H4]. specialize (H2 _ H3). specialize (H4 _ H1). lia. Qed.

Lemma new_array_lookup size v i :
  new_array size v !! i = if in_range size i then Some v else None.
Proof.
  unfold new_array.
  assert (H : ∀ l : list Z, (list_to_map ((λ i, (i, v)) <$> l) : gmap Z Z) !! i
              = if bool_decide (i ∈ l) then Some v else None).
  { induction l as [|x l IH]; [done|].
    rewrite fmap_cons, list_to_map_cons. simpl fst; simpl snd.
    destruct (decide (x = i)) as [->|Hne].
    - rewrite lookup_insert_eq. rewrite bool_decide_eq_true_2; [done|by left].
    - rewrite lookup_insert_ne by done. rewrite IH.
      destruct (bool_decide (i ∈ l)) eqn:E.
      + apply bool_decide_eq_true in E.
        rewrite bool_decide_eq_true_2; [done|by right].
      + apply bool_decide_eq_false in E.
        rewrite bool_decide_eq_false_2; [done|].
        intros [?|?]%elem_of_cons; congruence. }
  etrans; [apply (H (seqZ 0 size))|]. unfold in_range.
  destruct (bool_decide _) eqn:E.
  - apply bool_decide_eq_true, elem_of_seqZ in E.
    by replace ((0 <=? i) && (i <? size)) with true
      by (symmetry; apply andb_true_iff; lia).
  - apply bool_decide_eq_false in E. rewrite elem_of_seqZ in E.
    by replace ((0 <=? i) && (i <? size)) with false
      by (symmetry; apply andb_false_iff; lia).
Qed.

Lemma edge_functional rt u v w w' : edge rt u v w → edge rt u v w' → w = w'.
Proof. intros [p H] [p' H']. congruence. Qed.

Lemma find_keys {V} k (v : V) m : StdMap.find k m = Some v → k ∈ StdMap.keys m.
Proof.
  intros H. apply StdMap.find_Some_elem in H.
  apply list_elem_of_fmap. by exists (k, v).
Qed.

Lemma sorted_keys_NoDup {V} (m : StdMap.t V) :
  StdMap.sorted m → NoDup (StdMap.keys m).
Proof.
  unfold StdMap.sorted. generalize (StdMap.keys m) as l.
  induction l as [|x l IH]; intros Hs; [constructor|].
  apply StronglySorted_inv in Hs as [Hs Hall]. constructor; [|by apply IH].
  intros Hin. rewrite List.Forall_forall in Hall.
  apply list_elem_of_In, Hall in Hin. lia.
Qed.

(** ** [find_min] and [erase] *)

Lemma find_min_spec dist : ∀ l md mc,
  (∀ i, i ∈ l → is_Some (dist !! i)) →
  ∃ c, find_min dist l md mc = Done c
       ∧ ((c = mc ∧ ∀ i di, i ∈ l → dist !! i = Some di → md ≤ di)
          ∨ (∃ dc, c ∈ l ∧ dist !! c = Some dc ∧ dc < md
                   ∧ ∀ i di, i ∈ l → dist !! i = Some di → dc ≤ di)).
Proof.
  induction l as [|i l IH]; intros md mc Hdom; simpl.
  - exists mc. split; [done|]. left. split; [done|].
    intros i di Hi. by apply elem_of_nil in Hi.
  - destruct (Hdom i) as [di Hdi]; [by left|]. rewrite Hdi. simpl.
    assert (Hdom' : ∀ j, j ∈ l → is_Some (dist !! j))
      by (intros j Hj; apply Hdom; by right).
    destruct (di <? md) eqn:Hlt.
    + apply Z.ltb_lt in Hlt.
      destruct (IH di i Hdom') as (c & -> & [[-> Hall]|(dc & Hc & Hdc & Hlt' & Hall)]).
      * exists i. split; [done|]. right. exists di.
        split; [by left|]. split; [done|]. split; [done|].
        intros j dj [->|Hj]%elem_of_cons Hdj; [|by eapply Hall].
        rewrite Hdi in Hdj. injection Hdj as <-. lia.
      * exists c. split; [done|]. right. exists dc.
        split; [by right|]. split; [done|]. split; [lia|].
        intros j dj [->|Hj]%elem_of_cons Hdj; [|by eapply Hall].
        rewrite Hdi in Hdj. injection Hdj as <-. lia.
    + apply Z.ltb_ge in Hlt.
      destruct (IH md mc Hdom') as (c & -> & [[-> Hall]|(dc & Hc & Hdc & Hlt' & Hall)]).
      * exists mc. split; [done|]. left. split; [done|].
        intros j dj [->|Hj]%elem_of_cons Hdj; [|by eapply Hall].
        rewrite Hdi in Hdj. injection Hdj as <-. lia.
      * exists c. split; [done|]. right. exists dc.
        split; [by right|]. split; [done|]. split; [done|].
        intros j dj [->|Hj]%elem_of_cons Hdj; [|by eapply Hall].
        rewrite Hdi in Hdj. injection Hdj as <-. lia.
Qed.

Lemma elem_of_erase k l i : i ∈ erase k l ↔ i ∈ l ∧ i ≠ k.
Proof.
  unfold erase. rewrite list_elem_of_In, List.filter_In, <- list_elem_of_In.
  rewrite negb_true_iff, Z.eqb_neq. done.
Qed.

Lemma NoDup_erase k l : NoDup l → NoDup (erase k l).
Proof.
  induction 1 as [|x l Hx Hnd IH]; [constructor|].
  unfold erase in *. simpl. destruct (negb (x =? k)); [|done].
  constructor; [|done]. intros Hin. apply Hx.
  by apply (elem_of_erase k l x) in Hin as [? _].
Qed.

Lemma length_erase k l :
  NoDup l → k ∈ l → S (length (erase k l)) = length l.
Proof.
  unfold erase. induction 1 as [|x l Hx Hnd IH]; intros Hk.
  - by apply elem_of_nil in Hk.
  - simpl. destruct (x =? k) eqn:E; simpl.
    + apply Z.eqb_eq in E as ->. f_equal.
      clear IH Hk. induction l as [|y l IH]; [done|]. simpl.
      apply not_elem_of_cons in Hx as [Hne Hx].
      replace (y =? k) with false by (symmetry; apply Z.eqb_neq; lia).
      simpl. f_equal. apply IH; [done|]. by apply NoDup_cons_1_2 in Hnd.
    + f_equal. apply IH. apply elem_of_cons in Hk as [->|Hk]; [|done].
      by rewrite Z.eqb_refl in E.
Qed.

Lemma set_ports_find port ns : ∀ row d,
  StdMap.sorted ns →
  StdMap.find d (set_ports port ns row)
  = match StdMap.find d ns with
    | Some (p, _) => Some (default p port)
    | None => StdMap.find d row
    end.
Proof.
  unfold set_ports.
  induction ns as [|[k [p l]] ns IH]; intros row d Hs; [done|].
  apply StdMap.sorted_cons in Hs as [Hs Hlt]. simpl.
  rewrite IH by done. destruct (d =? k) eqn:E.
  - apply Z.eqb_eq in E as ->.
    destruct (StdMap.find k ns) as [[p' l']|] eqn:Hf.
    + apply StdMap.find_Some_elem, Hlt in Hf. lia.
    + apply StdMap.find_insert_eq.
  - destruct (StdMap.find d ns) as [[p' l']|]; [done|].
    apply StdMap.find_insert_ne. apply Z.eqb_neq in E. lia.
Qed.

(** ** The invariant of the loop of [route] *)

Section Dijkstra.
Variable n : netlist.
Hypothesis Hok : topology_ok n.
Variable r : Z.
Hypothesis Hr : 0 ≤ r < _size n.

Abbreviation rt := (to_routers n).
Abbreviation size := (_size n).
Abbreviation L := (max_latency n).

(** Routers taken out of [rlist]. *)
Definition visited (U : list Z) (s : Z) : Prop := 0 ≤ s < size ∧ s ∉ U.

(** [R s x] tells which channels out of visited routers have been
    relaxed: all of them between two turns of the loop, all but the
    neighbours still to come inside the loop over the neighbours. *)
Record inv (R : Z → Z → Prop) (dist prev : gmap Z Z) (U : list Z) : Prop := {
  inv_dom_d : ∀ i, is_Some (dist !! i) ↔ 0 ≤ i < size;
  inv_dom_p : ∀ i, is_Some (prev !! i) ↔ 0 ≤ i < size;
  inv_U : ∀ i, i ∈ U → 0 ≤ i < size;
  inv_nodup : NoDup U;
  inv_len : Z.of_nat (length U) ≤ size;
  inv_r : dist !! r = Some 0 ∧ prev !! r = Some (-1);
  inv_init : r ∈ U → ∀ v, v ≠ r → 0 ≤ v < size → dist !! v = Some INT_MAX;
  inv_tree : ∀ v d, v ≠ r → dist !! v = Some d →
    (d = INT_MAX ∧ prev !! v = Some (-1))
    ∨ (∃ u du w, prev !! v = Some u ∧ visited U u ∧ edge rt u v w
                 ∧ dist !! u = Some du ∧ d = du + w);
  inv_le : ∀ s x ds dx, visited U s → x ∈ U →
    dist !! s = Some ds → dist !! x = Some dx → ds ≤ dx;
  inv_relaxed : ∀ s x w ds dx, R s x → visited U s → edge rt s x w →
    dist !! s = Some ds → dist !! x = Some dx → dx ≤ ds + w;
  inv_bound : ∀ s ds, visited U s → dist !! s = Some ds →
    0 ≤ ds ≤ (size - Z.of_nat (length U) - 1) * L
}.

Lemma size_L : 0 ≤ L ∧ size * L ≤ INT_MAX - 1.
Proof.
  unfold max_latency. split.
  - apply Z.div_pos; [unfold INT_MAX|]; lia.
  - apply Z.mul_div_le. lia.
Qed.

Lemma visited_dec U s : 0 ≤ s < size → visited U s ∨ s ∈ U.
Proof.
  intros Hs. destruct (decide (s ∈ U)); [by right|by left].
Qed.

(** A walk from a visited router to one of [rlist] crosses the border. *)
Lemma path_cross U a b c :
  path rt a b c → visited U a → b ∈ U →
  ∃ s y w, visited U s ∧ y ∈ U ∧ edge rt s y w.
Proof.
  induction 1 as [u|a v b w c He Hp IH]; intros Ha Hb.
  - by destruct Ha.
  - destruct (visited_dec U v) as [Hv|Hv].
    + by eapply ok_range.
    + by apply IH.
    + by exists a, v, w.
Qed.

(** The loop over the neighbours of the router [u] just taken. *)
Lemma relax_inv u du U :
  visited U u → visited U r →
  ∀ rest dist prev,
    (∀ v l, (v, l) ∈ rest → edge rt u v (snd l)) →
    NoDup (StdMap.keys rest) →
    inv (λ s x, s = u → x ∉ StdMap.keys rest) dist prev U →
    dist !! u = Some du →
    (∀ s ds, visited U s → dist !! s = Some ds → ds ≤ du) →
    ∃ dist' prev', relax u rest dist prev = Done (dist', prev')
                   ∧ inv (λ _ _, True) dist' prev' U.
Proof.
  intros Hu Hvr. pose proof size_L as [HL0 HL].
  induction rest as [|[v [p w]] rest IH]; intros dist prev Hsub Hnd Hinv Hdu Hmax.
  - exists dist, prev. split; [done|].
    destruct Hinv. split; try done.
    intros s x w ds dx _ Hs He. eapply inv_relaxed0; [|done|done].
    intros _ Hin. by apply elem_of_nil in Hin.
  - simpl. rewrite Hdu. simpl.
    assert (Hedge : edge rt u v w) by (apply (Hsub v (p, w)); by left).
    pose proof (ok_range n Hok _ _ _ Hedge) as Hv.
    pose proof (ok_latency n Hok _ _ _ Hedge) as Hw.
    pose proof (inv_bound _ _ _ _ Hinv u du Hu Hdu) as Hbu.
    pose proof (inv_len _ _ _ _ Hinv) as Hlen.
    assert (Hsum : 0 ≤ du + w ≤ INT_MAX - 1) by nia.
    unfold int_add. unfold INT_MIN, INT_MAX in *.
    replace ((- 2 ^ 31 <=? du + w) && (du + w <=? 2 ^ 31 - 1)) with true
      by (symmetry; apply andb_true_iff; lia).
    simpl.
    destruct (proj2 (inv_dom_d _ _ _ _ Hinv v) Hv) as [dv Hdv].
    rewrite Hdv. simpl.
    apply NoDup_cons in Hnd as [Hvrest Hnd]. simpl in Hvrest.
    assert (Hsub' : ∀ v' l, (v', l) ∈ rest → edge rt u v' (snd l))
      by (intros v' l Hin; apply Hsub; by right).
    destruct (du + w <? dv) eqn:Hlt.
    + apply Z.ltb_lt in Hlt.
      assert (HvU : v ∈ U).
      { destruct (visited_dec U v Hv) as [Hvis|]; [|done].
        specialize (Hmax v dv Hvis Hdv). lia. }
      assert (Hvu : v ≠ u) by (intros ->; by destruct Hu).
      assert (Hvr' : v ≠ r) by (intros ->; by destruct Hvr).
      assert (Hvis_ne : ∀ s, visited U s → s ≠ v)
        by (intros s [_ Hs] ->; done).
      apply IH; [done|done| |by rewrite lookup_insert_ne|].
      * destruct Hinv. split; try done.
        -- intros i. rewrite lookup_insert_is_Some. rewrite inv_dom_d0.
           split; [intros [->|[_ ?]]; done|]. intros Hi.
           destruct (decide (v = i)); [by left|by right].
        -- intros i. rewrite lookup_insert_is_Some. rewrite inv_dom_p0.
           split; [intros [->|[_ ?]]; done|]. intros Hi.
           destruct (decide (v = i)); [by left|by right].
        -- destruct inv_r0. by rewrite !lookup_insert_ne.
        -- intros Hin. by destruct Hvr.
        -- intros x d Hx. destruct (decide (x = v)) as [->|Hne].
           ++ rewrite !lookup_insert_eq. intros [= <-]. right.
              exists u, du, w. rewrite lookup_insert_ne by done. done.
           ++ rewrite !lookup_insert_ne by done. intros Hd.
              destruct (inv_tree0 x d Hx Hd)
                as [?|(u' & du' & w' & ? & Hvis & ? & ? & ?)]; [by left|].
              right. exists u', du', w'.
              rewrite lookup_insert_ne by (apply not_eq_sym; by apply Hvis_ne).
              done.
        -- intros s x ds dx Hs Hx.
           rewrite (lookup_insert_ne _ v s) by (apply not_eq_sym; by apply Hvis_ne).
           intros Hds. destruct (decide (x = v)) as [->|Hne].
           ++ rewrite lookup_insert_eq. intros [= <-].
              specialize (Hmax s ds Hs Hds). lia.
           ++ rewrite lookup_insert_ne by done. by eapply inv_le0.
        -- intros s x w' ds dx HR Hs He.
           rewrite (lookup_insert_ne _ v s) by (apply not_eq_sym; by apply Hvis_ne).
           intros Hds. destruct (decide (x = v)) as [->|Hne].
           ++ rewrite lookup_insert_eq. intros [= <-].
              destruct (decide (s = u)) as [->|Hsu].
              ** rewrite (edge_functional _ _ _ _ _ He Hedge).
                 rewrite Hdu in Hds. injection Hds as <-. lia.
              ** assert (dv ≤ ds + w'); [|lia].
                 by eapply (inv_relaxed0 s v w' ds dv).
           ++ rewrite lookup_insert_ne by done. intros Hdx.
              eapply (inv_relaxed0 s x w' ds dx); [|done|done|done|done].
              intros ->. simpl. apply not_elem_of_cons. split; [done|].
              by apply HR.
        -- intros s ds Hs.
           rewrite (lookup_insert_ne _ v s) by (apply not_eq_sym; by apply Hvis_ne).
           by apply inv_bound0.
      * intros s ds Hs.
        rewrite (lookup_insert_ne _ v s) by (apply not_eq_sym; by apply Hvis_ne).
        by apply Hmax.
    + apply Z.ltb_ge in Hlt.
      apply IH; [done|done| |done|done].
      destruct Hinv. split; try done.
      intros s x w' ds dx HR Hs He Hds Hdx.
      destruct (decide (s = u ∧ x = v)) as [[-> ->]|Hne].
      * rewrite (edge_functional _ _ _ _ _ He Hedge).
        rewrite Hdu in Hds. rewrite Hdv in Hdx. simplify_eq. lia.
      * eapply (inv_relaxed0 s x w' ds dx); [|done|done|done|done].
        intros ->. simpl. apply not_elem_of_cons. split; [|by apply HR].
        intros ->. by apply Hne.
Qed.

Lemma visited_erase u U s :
  0 ≤ u < size → visited (erase u U) s ↔ s = u ∨ visited U s.
Proof.
  intros Hu. unfold visited. rewrite elem_of_erase. split.
  - intros [Hs Hn]. destruct (decide (s = u)); [by left|right].
    split; [done|]. intros Hin. by apply Hn.
  - intros [->|[Hs Hn]]; (split; [done|]); intros [? ?]; done.
Qed.

Lemma neighbours_edges u v l :
  (v, l) ∈ StdMap.at_ [] u rt → edge rt u v (snd l).
Proof.
  intros Hin. exists (fst l). destruct l as [p w]. simpl.
  apply StdMap.elem_find; [|done]. apply (ok_links_sorted n Hok).
Qed.

(** One turn of the loop: the closest router of [rlist] is taken and its
    channels are relaxed. *)
Lemma dijkstra_step dist prev U :
  inv (λ _ _, True) dist prev U → U ≠ [] →
  ∃ u dist' prev',
    find_min dist U INT_MAX (-1) = Done u ∧ u ∈ U
    ∧ relax u (StdMap.at_ [] u rt) dist prev = Done (dist', prev')
    ∧ inv (λ _ _, True) dist' prev' (erase u U).
Proof.
  intros Hinv HU. pose proof size_L as [HL0 HL].
  pose proof Hinv as [Hdd Hdp HinU Hnd Hlen [Hr0 Hrp] Hinit Htree Hle Hrel Hbound].
  destruct (find_min_spec dist U INT_MAX (-1)) as (u & Hfind & Hu).
  { intros i Hi. by apply Hdd, HinU. }
  assert (Hfinite : ∃ y dy, y ∈ U ∧ dist !! y = Some dy ∧ dy < INT_MAX).
  { destruct (decide (r ∈ U)) as [HrU|HrU].
    - exists r, 0. unfold INT_MAX. split; [done|]. split; [done|lia].
    - destruct U as [|x0 U0] eqn:EU; [done|]. rewrite <- EU in *.
      assert (Hx0 : x0 ∈ U) by (rewrite EU; by left).
      destruct (ok_connected n Hok r x0 Hr (HinU _ Hx0)) as [c Hp].
      destruct (path_cross U _ _ _ Hp) as (s & y & w & Hs & Hy & He);
        [done|done|].
      destruct (proj2 (Hdd s) (proj1 Hs)) as [ds Hds].
      destruct (proj2 (Hdd y) (HinU _ Hy)) as [dy Hdy].
      exists y, dy. split; [done|]. split; [done|].
      pose proof (Hrel s y w ds dy I Hs He Hds Hdy).
      pose proof (Hbound s ds Hs Hds).
      pose proof (ok_latency n Hok _ _ _ He).
      assert (1 ≤ Z.of_nat (length U)) by (rewrite EU; simpl; lia).
      nia. }
  destruct Hfinite as (y & dy & Hy & Hdy & Hfin).
  destruct Hu as [[_ Hall]|(du & HuU & Hdu & Hlt & Hmin)].
  { specialize (Hall y dy Hy Hdy). lia. }
  pose proof (HinU u HuU) as Hurange.
  assert (Hvu : visited (erase u U) u) by (apply visited_erase; [done|by left]).
  assert (Hru : r ∈ U → u = r).
  { intros HrU. destruct (decide (u = r)) as [|Hne]; [done|].
    rewrite (Hinit HrU u Hne Hurange) in Hdu. injection Hdu as <-. lia. }
  assert (Hvr : visited (erase u U) r).
  { apply visited_erase; [done|].
    destruct (decide (r ∈ U)) as [HrU|HrU]; [left; by rewrite Hru|by right]. }
  assert (Hlen' : S (length (erase u U)) = length U) by by apply length_erase.
  assert (Hdu_bound : 0 ≤ du ≤ (size - Z.of_nat (length U)) * L).
  { destruct (decide (u = r)) as [->|Hne].
    - rewrite Hr0 in Hdu. injection Hdu as <-. nia.
    - destruct (Htree u du Hne Hdu) as [[-> _]|(u' & du' & w & _ & Hv' & He & Hdu' & ->)];
        [lia|].
      pose proof (Hbound u' du' Hv' Hdu').
      pose proof (ok_latency n Hok _ _ _ He). nia. }
  destruct (relax_inv u du (erase u U) Hvu Hvr (StdMap.at_ [] u rt) dist prev)
    as (dist' & prev' & Hrelax & Hinv').
  - intros v l. apply neighbours_edges.
  - apply sorted_keys_NoDup, (ok_links_sorted n Hok).
  - split; try done.
    + intros i Hi. apply elem_of_erase in Hi as [Hi _]. by apply HinU.
    + by apply NoDup_erase.
    + lia.
    + intros HrU' v Hv Hrg. apply Hinit; [|done|done].
      by apply elem_of_erase in HrU' as [? _].
    + intros v d Hv Hd.
      destruct (Htree v d Hv Hd) as [?|(u' & du' & w & ? & Hv' & ? & ? & ?)];
        [by left|].
      right. exists u', du', w. split; [done|]. split; [|done].
      apply visited_erase; [done|by right].
    + intros s x ds dx Hs Hx Hds Hdx.
      apply elem_of_erase in Hx as [Hx _].
      destruct (proj1 (visited_erase u U s Hurange) Hs) as [->|Hs'];
        [|by eapply Hle].
      rewrite Hdu in Hds. injection Hds as <-. by eapply Hmin.
    + intros s x w ds dx HR Hs He Hds Hdx.
      destruct (proj1 (visited_erase u U s Hurange) Hs) as [->|Hs'];
        [|by eapply Hrel].
      exfalso. apply HR; [done|]. destruct He as [p He].
      by eapply find_keys.
    + intros s ds Hs Hds.
      destruct (proj1 (visited_erase u U s Hurange) Hs) as [->|Hs'].
      * rewrite Hdu in Hds. injection Hds as <-. nia.
      * pose proof (Hbound s ds Hs' Hds). nia.
  - done.
  - intros s ds Hs Hds.
    destruct (proj1 (visited_erase u U s Hurange) Hs) as [->|Hs'].
    + rewrite Hdu in Hds. injection Hds as <-. lia.
    + by eapply (Hle s u).
  - by exists u, dist', prev'.
Qed.

Lemma dijkstra_spec fuel : ∀ dist prev U,
  inv (λ _ _, True) dist prev U → (length U < fuel)%nat →
  ∃ dist' prev', dijkstra fuel rt dist prev U = Done (dist', prev')
                 ∧ inv (λ _ _, True) dist' prev' [].
Proof.
  induction fuel as [|fuel IH]; intros dist prev U Hinv Hfuel; [lia|].
  destruct U as [|x U0] eqn:EU.
  - by exists dist, prev.
  - rewrite <- EU in *.
    destruct (dijkstra_step dist prev U Hinv) as (u & d1 & p1 & Hf & Hu & Hrx & Hinv1);
      [by rewrite EU|].
    pose proof (length_erase u U (inv_nodup _ _ _ _ Hinv) Hu) as Hlen.
    destruct (IH d1 p1 (erase u U) Hinv1) as (d2 & p2 & Hd & Hinv2); [lia|].
    exists d2, p2. split; [|done].
    simpl. rewrite EU at 1. rewrite Hf. simpl. rewrite Hrx. simpl. done.
Qed.

Lemma inv_initial :
  ∃ dist0, array_set (new_array size INT_MAX) r 0 = Done dist0
           ∧ inv (λ _ _, True) dist0 (new_array size (-1)) (seqZ 0 size).
Proof.
  assert (Hin : in_range size r = true)
    by (unfold in_range; apply andb_true_iff; lia).
  exists (<[r := 0]> (new_array size INT_MAX)). split.
  - unfold array_set. rewrite new_array_lookup, Hin. done.
  - assert (Hnovis : ∀ s, ¬ visited (seqZ 0 size) s).
    { intros s [Hs Hn]. apply Hn, elem_of_seqZ. lia. }
    split.
    + intros i. rewrite lookup_insert_is_Some, new_array_lookup.
      unfold in_range. split.
      * intros [->|[_ H]]; [done|].
        destruct ((0 <=? i) && (i <? size)) eqn:E; [|by destruct H].
        apply andb_true_iff in E. lia.
      * intros Hi. destruct (decide (r = i)); [by left|right].
        split; [done|].
        by replace ((0 <=? i) && (i <? size)) with true
          by (symmetry; apply andb_true_iff; lia).
    + intros i. rewrite new_array_lookup. unfold in_range. split.
      * destruct ((0 <=? i) && (i <? size)) eqn:E; [|by intros []].
        apply andb_true_iff in E. lia.
      * intros Hi.
        by replace ((0 <=? i) && (i <? size)) with true
          by (symmetry; apply andb_true_iff; lia).
    + intros i Hi. apply elem_of_seqZ in Hi. lia.
    + apply NoDup_seqZ.
    + rewrite length_seqZ. lia.
    + split; [apply lookup_insert_eq|]. by rewrite new_array_lookup, Hin.
    + intros _ v Hv Hrange. rewrite lookup_insert_ne by done.
      rewrite new_array_lookup. unfold in_range.
      by replace ((0 <=? v) && (v <? size)) with true
        by (symmetry; apply andb_true_iff; lia).
    + intros v d Hv. rewrite lookup_insert_ne by done.
      rewrite !new_array_lookup. destruct (in_range size v); [|done].
      intros [= <-]. by left.
    + intros s x ds dx Hs. by apply Hnovis in Hs.
    + intros s x w ds dx _ Hs. by apply Hnovis in Hs.
    + intros s ds Hs. by apply Hnovis in Hs.
Qed.

(** ** When the loop is over: [dist] is the distance, [prev] a tree *)

Section Final.
Variables dist prev : gmap Z Z.
Hypothesis Hfin : inv (λ _ _, True) dist prev [].

Lemma visited_all s : 0 ≤ s < size → visited [] s.
Proof. intros Hs. split; [done|]. apply not_elem_of_nil. Qed.

Lemma final_dist s : 0 ≤ s < size →
  ∃ ds, dist !! s = Some ds ∧ 0 ≤ ds ≤ INT_MAX - 1.
Proof.
  intros Hs. pose proof size_L as [HL0 HL].
  destruct (proj2 (inv_dom_d _ _ _ _ Hfin s) Hs) as [ds Hds].
  exists ds. split; [done|].
  pose proof (inv_bound _ _ _ _ Hfin s ds (visited_all s Hs) Hds) as Hb.
  simpl in Hb. nia.
Qed.

Lemma final_prev v dv : v ≠ r → dist !! v = Some dv → 0 ≤ v < size →
  ∃ u du w, prev !! v = Some u ∧ 0 ≤ u < size ∧ edge rt u v w
            ∧ dist !! u = Some du ∧ dv = du + w ∧ 0 ≤ du < dv.
Proof.
  intros Hv Hdv Hrange.
  destruct (final_dist v Hrange) as (dv' & Hdv' & Hb).
  rewrite Hdv in Hdv'. injection Hdv' as <-.
  destruct (inv_tree _ _ _ _ Hfin v dv Hv Hdv)
    as [[-> _]|(u & du & w & Hp & [Hu _] & He & Hdu & ->)]; [lia|].
  exists u, du, w. repeat (split; [done|]).
  destruct (final_dist u Hu) as (du' & Hdu' & Hbu).
  rewrite Hdu in Hdu'. injection Hdu' as <-.
  pose proof (ok_latency n Hok _ _ _ He). lia.
Qed.

Lemma path_range a b c : path rt a b c → 0 ≤ a < size → 0 ≤ b < size.
Proof.
  induction 1 as [u|a v b w c He Hp IH]; [done|].
  intros _. apply IH. by eapply ok_range.
Qed.

(** No walk is shorter than [dist] says. *)
Lemma final_lower a v c :
  path rt a v c → 0 ≤ a < size →
  ∀ da dv, dist !! a = Some da → dist !! v = Some dv → dv ≤ da + c.
Proof.
  induction 1 as [u|a b v w c He Hp IH]; intros Ha da dv Hda Hdv.
  - rewrite Hda in Hdv. injection Hdv as <-. lia.
  - pose proof (ok_range n Hok _ _ _ He) as Hb.
    destruct (final_dist b Hb) as (db & Hdb & _).
    pose proof (inv_relaxed _ _ _ _ Hfin a b w da db I (visited_all a Ha)
                  He Hda Hdb).
    specialize (IH Hb db dv Hdb Hdv). lia.
Qed.

(** The chain of [prev] is a walk from [r] of latency [dist]. *)
Lemma final_tree (k : nat) : ∀ v dv,
  (Z.to_nat dv ≤ k)%nat → 0 ≤ v < size → dist !! v = Some dv →
  path rt r v dv.
Proof.
  induction k as [|k IH]; intros v dv Hk Hv Hdv.
  - destruct (decide (v = r)) as [->|Hne].
    + rewrite (proj1 (inv_r _ _ _ _ Hfin)) in Hdv. injection Hdv as <-.
      constructor.
    + destruct (final_prev v dv Hne Hdv Hv) as (u & du & w & _ & _ & _ & _ & _ & ?).
      lia.
  - destruct (decide (v = r)) as [->|Hne].
    + rewrite (proj1 (inv_r _ _ _ _ Hfin)) in Hdv. injection Hdv as <-.
      constructor.
    + destruct (final_prev v dv Hne Hdv Hv)
        as (u & du & w & _ & Hu & He & Hdu & -> & Hlt).
      eapply path_snoc; [|done]. apply IH; [lia|done|done].
Qed.

Lemma final_shortest v dv :
  0 ≤ v < size → dist !! v = Some dv → shortest rt r v dv.
Proof.
  intros Hv Hdv. split.
  - by eapply (final_tree (Z.to_nat dv)).
  - intros c Hp.
    pose proof (final_lower r v c Hp Hr 0 dv (proj1 (inv_r _ _ _ _ Hfin)) Hdv).
    lia.
Qed.

(** The walk back along [prev] from [v] stops at the neighbour of [r] on
    the way to [v]. *)
Lemma first_hop_spec fuel : ∀ v dv acc,
  v ≠ r → 0 ≤ v < size → dist !! v = Some dv →
  (Z.to_nat dv < fuel)%nat → 0 ≤ acc → acc + dv ≤ INT_MAX →
  ∃ nb w0, first_hop fuel rt prev r v acc = Done (nb, acc + dv)
           ∧ edge rt r nb w0 ∧ path rt nb v (dv - w0).
Proof.
  induction fuel as [|fuel IH]; intros v dv acc Hne Hv Hdv Hfuel Hacc Hsum; [lia|].
  destruct (final_prev v dv Hne Hdv Hv)
    as (u & du & w & Hp & Hu & He & Hdu & -> & Hlt).
  simpl. rewrite Hp. simpl.
  assert (Hlat : snd (StdMap.at_ (0, 0) v (StdMap.at_ [] u rt)) = w).
  { destruct He as [port He]. unfold StdMap.at_ at 1. by rewrite He. }
  rewrite Hlat.
  assert (Hadd : int_add acc w = Done (acc + w)).
  { unfold int_add, INT_MIN, INT_MAX in *.
    by replace ((- 2 ^ 31 <=? acc + w) && (acc + w <=? 2 ^ 31 - 1)) with true
      by (symmetry; apply andb_true_iff; lia). }
  rewrite Hadd.
  destruct (decide (u = r)) as [->|Hur].
  - rewrite Z.eqb_refl. simpl.
    rewrite (proj1 (inv_r _ _ _ _ Hfin)) in Hdu. injection Hdu as <-.
    exists v, w. split; [done|]. split; [done|].
    replace (0 + w - w) with 0 by lia. constructor.
  - replace (u =? r) with false by (symmetry; by apply Z.eqb_neq). simpl.
    destruct (ok_back n Hok _ _ _ He) as [w' [port' Hback]].
    unfold StdMap.count. rewrite Hback. simpl.
    destruct (IH u du (acc + w) Hur Hu Hdu) as (nb & w0 & Hfh & He0 & Hpath);
      [lia|lia|lia|].
    exists nb, w0. split; [|split; [done|]].
    + rewrite Hfh. f_equal. f_equal. lia.
    + replace (du + w - w0) with (du - w0 + w) by lia.
      by eapply path_snoc.
Qed.

(** The entry [q] of the row of [r] is right for a node that hangs on
    router [i] by port [p]. *)
Definition entry_ok (i p q : Z) : Prop :=
  if decide (i = r) then q = p
  else ∃ nb w0 c, StdMap.find nb (StdMap.at_ [] r rt) = Some (q, w0)
                  ∧ shortest rt r i (w0 + c) ∧ shortest rt nb i c.

Lemma route_row_spec fuel i row :
  0 ≤ i < size → (Z.to_nat INT_MAX ≤ fuel)%nat →
  ∃ port, route_row fuel n prev r i row
          = Done (set_ports port (StdMap.at_ [] i (to_nodes n)) row)
          ∧ ∀ p, entry_ok i p (default p port).
Proof.
  intros Hi Hfuel. unfold route_row, entry_ok.
  destruct (decide (i = r)) as [->|Hne].
  - rewrite (proj2 (inv_r _ _ _ _ Hfin)). simpl. rewrite Z.eqb_refl. simpl.
    by exists None.
  - destruct (final_dist i Hi) as (di & Hdi & Hb).
    destruct (final_prev i di Hne Hdi Hi) as (u & du & w & Hp & Hu & _).
    rewrite Hp. simpl.
    replace (u =? -1) with false by (symmetry; apply Z.eqb_neq; lia).
    destruct (first_hop_spec fuel i di 0 Hne Hi Hdi) as (nb & w0 & Hfh & He0 & Hpath);
      [lia|lia|lia|].
    rewrite Hfh. simpl. destruct He0 as [q Hq].
    assert (Hcount : StdMap.count nb (StdMap.at_ [] r rt) = 1)
      by (unfold StdMap.count; by rewrite Hq).
    assert (Hat : StdMap.at_ (0, 0) nb (StdMap.at_ [] r rt) = (q, w0))
      by (unfold StdMap.at_ at 1; by rewrite Hq).
    rewrite Hcount, Hat. simpl.
    exists (Some q). split; [done|]. intros p. simpl.
    exists nb, w0, (di - w0). split; [done|].
    replace (w0 + (di - w0)) with di by lia.
    split; [by apply final_shortest|]. split; [done|].
    intros c Hc.
    assert (Hpr : path rt r i (w0 + c)) by (econstructor; [by exists q|done]).
    pose proof (final_lower r i _ Hpr Hr 0 di (proj1 (inv_r _ _ _ _ Hfin)) Hdi).
    lia.
Qed.

Lemma route_rows_spec fuel :
  (Z.to_nat INT_MAX ≤ fuel)%nat →
  ∀ l row, (∀ i, i ∈ l → 0 ≤ i < size) → NoDup l →
  ∃ row', route_rows fuel n prev r l row = Done row'
    ∧ (∀ d, (∀ i, i ∈ l → StdMap.find d (StdMap.at_ [] i (to_nodes n)) = None) →
            StdMap.find d row' = StdMap.find d row)
    ∧ (∀ i d p lat, i ∈ l →
         StdMap.find d (StdMap.at_ [] i (to_nodes n)) = Some (p, lat) →
         ∃ q, StdMap.find d row' = Some q ∧ entry_ok i p q).
Proof.
  intros Hfuel. induction l as [|j l IH]; intros row Hl Hnd.
  - exists row. split; [done|]. split; [done|].
    intros i d p lat Hi. by apply elem_of_nil in Hi.
  - apply NoDup_cons in Hnd as [Hj Hnd].
    assert (Hjr : 0 ≤ j < size) by (apply Hl; by left).
    assert (Hl' : ∀ i, i ∈ l → 0 ≤ i < size) by (intros i Hi; apply Hl; by right).
    destruct (route_row_spec fuel j row Hjr Hfuel) as (port & Hrow & Hport).
    destruct (IH (set_ports port (StdMap.at_ [] j (to_nodes n)) row) Hl' Hnd)
      as (row' & Hrows & Hkeep & Hset).
    exists row'. simpl. rewrite Hrow. simpl. split; [done|]. split.
    + intros d Hd. rewrite Hkeep by (intros i Hi; apply Hd; by right).
      rewrite set_ports_find by apply (ok_nodes_sorted n Hok).
      by rewrite Hd by by left.
    + intros i d p lat Hi Hd. apply elem_of_cons in Hi as [->|Hi].
      * exists (default p port). split; [|done].
        rewrite Hkeep.
        -- rewrite set_ports_find by apply (ok_nodes_sorted n Hok).
           by rewrite Hd.
        -- intros i Hi.
           destruct (StdMap.find d (StdMap.at_ [] i (to_nodes n))) eqn:E; [|done].
           exfalso. apply Hj.
           rewrite (ok_node_once n Hok j i d); [done|done|by apply Hl'| |];
             by eexists.
      * by eapply Hset.
Qed.
End Final.

(** A row of the table is right when every entry is. *)
Definition row_ok (row : StdMap.t Z) : Prop :=
  ∀ i d p lat, 0 ≤ i < size →
    StdMap.find d (StdMap.at_ [] i (to_nodes n)) = Some (p, lat) →
    ∃ q, StdMap.find d row = Some q ∧ entry_ok i p q.

Lemma route_spec fuel :
  (Z.to_nat INT_MAX + Z.to_nat size < fuel)%nat →
  ∃ row, route fuel n r = Done row ∧ row_ok row.
Proof.
  intros Hfuel. unfold route.
  destruct inv_initial as (dist0 & -> & Hinv0). simpl.
  destruct (dijkstra_spec fuel _ _ _ Hinv0) as (dist & prev & -> & Hfin).
  { rewrite length_seqZ. lia. }
  simpl.
  destruct (route_rows_spec dist prev Hfin fuel ltac:(lia) (seqZ 0 size) [])
    as (row & -> & _ & Hset).
  { intros i Hi. apply elem_of_seqZ in Hi. lia. }
  { apply NoDup_seqZ. }
  exists row. split; [done|].
  intros i d p lat Hi Hd. eapply Hset; [|done]. apply elem_of_seqZ. lia.
Qed.

End Dijkstra.

(** ** The whole table, and the way of a flit *)

Lemma path_nonneg n a b c :
  topology_ok n → path (to_routers n) a b c → 0 ≤ c.
Proof.
  intros Hok. induction 1 as [u|a v b w c He Hp IH]; [lia|].
  pose proof (ok_latency n Hok _ _ _ He). lia.
Qed.

Lemma find_port_unique (m : StdMap.t link) k q w :
  NoDup (ports m) → (k, (q, w)) ∈ m →
  List.find (port_is q) m = Some (k, (q, w)).
Proof.
  induction m as [|[k' [q' w']] m IH]; intros Hnd Hin.
  - by apply elem_of_nil in Hin.
  - unfold ports in Hnd. rewrite fmap_cons in Hnd.
    apply NoDup_cons in Hnd as [Hq Hnd]. simpl in *.
    unfold port_is at 1. simpl.
    apply elem_of_cons in Hin as [[= <- <- <-]|Hin].
    + by rewrite Z.eqb_refl.
    + destruct (q' =? q) eqn:E.
      * apply Z.eqb_eq in E as ->. exfalso. apply Hq.
        apply list_elem_of_fmap. by exists (k, (q, w)).
      * by apply IH.
Qed.

Lemma find_port_None (m : StdMap.t link) q :
  q ∉ ports m → List.find (port_is q) m = None.
Proof.
  induction m as [|[k' [q' w']] m IH]; intros Hq; [done|].
  unfold ports in Hq. rewrite fmap_cons in Hq.
  apply not_elem_of_cons in Hq as [Hne Hq]. simpl in *.
  unfold port_is at 1. simpl.
  replace (q' =? q) with false by (symmetry; apply Z.eqb_neq; lia).
  by apply IH.
Qed.

(** Every row of the table is the row [route] is to build. *)
Definition table_ok (n : netlist) (table : list (StdMap.t Z)) : Prop :=
  ∀ r, 0 ≤ r < _size n →
       ∃ row, table !! Z.to_nat r = Some row ∧ row_ok n r row.

Lemma route_all_spec n fuel :
  topology_ok n →
  (Z.to_nat INT_MAX + Z.to_nat (_size n) < fuel)%nat →
  ∀ l, (∀ r, r ∈ l → 0 ≤ r < _size n) →
  ∃ rows, route_all fuel n l = Done rows ∧ Forall2 (row_ok n) l rows.
Proof.
  intros Hok Hfuel. induction l as [|r l IH]; intros Hl.
  - exists []. split; [done|constructor].
  - destruct (route_spec n Hok r (Hl r ltac:(by left)) fuel Hfuel)
      as (row & Hrow & Hrow_ok).
    destruct IH as (rows & Hrows & Hall);
      [intros r' Hr'; apply Hl; by right|].
    exists (row :: rows). simpl. rewrite Hrow. simpl. rewrite Hrows. simpl.
    split; [done|by constructor].
Qed.

Lemma buildRoutingTable_spec n fuel :
  topology_ok n →
  (Z.to_nat INT_MAX + Z.to_nat (_size n) < fuel)%nat →
  ∃ table, buildRoutingTable fuel n = Done table ∧ table_ok n table.
Proof.
  intros Hok Hfuel.
  destruct (route_all_spec n fuel Hok Hfuel (seqZ 0 (_size n)))
    as (table & Htable & Hall).
  { intros r Hr. apply elem_of_seqZ in Hr. lia. }
  exists table. split; [done|]. intros r Hr.
  assert (Hl : seqZ 0 (_size n) !! Z.to_nat r = Some r).
  { rewrite lookup_seqZ. split; lia. }
  destruct (Forall2_lookup_l _ _ _ _ _ Hall Hl) as (row & Hrow & Hrow_ok).
  by exists row.
Qed.

(** A flit that follows the table from router [cur] is ejected at its
    node after channels of total latency the distance to the router of
    the node. *)
Lemma follow_S hops n table cur d latency :
  follow (S hops) n table cur d latency
  = (q ← min_anynet table cur d false;
     match node_at_port n cur q with
     | Some d' => if d' =? d then Done latency else Aborted
     | None =>
         '(next, w) ← must (router_at_port n cur q);
         follow hops n table next d (latency + w)
     end).
Proof. done. Qed.

Lemma follow_spec n table :
  topology_ok n → table_ok n table →
  ∀ (k : nat) cur i d p lat c latency,
    (Z.to_nat c ≤ k)%nat → 0 ≤ cur < _size n → 0 ≤ i < _size n →
    StdMap.find d (StdMap.at_ [] i (to_nodes n)) = Some (p, lat) →
    shortest (to_routers n) cur i c →
    follow (S k) n table cur d latency = Done (latency + c).
Proof.
  intros Hok Htable.
  induction k as [|k IH]; intros cur i d p lat c latency Hk Hcur Hi Hd Hc.
  all: destruct (Htable cur Hcur) as (row & Hrow & Hrow_ok).
  all: destruct (Hrow_ok i d p lat Hi Hd) as (q & Hq & Hentry).
  all: rewrite follow_S; unfold min_anynet.
  all: replace (0 <=? cur) with true by (symmetry; apply Z.leb_le; lia).
  all: match goal with
       | |- context [follow ?h ?n' ?t'] =>
           remember (follow h n' t') as F eqn:HF
       end.
  all: simpl; rewrite Hrow; simpl; rewrite Hq; simpl.
  all: pose proof (path_nonneg n _ _ _ Hok (proj1 Hc)) as Hc0.
  all: pose proof (ok_ports n Hok cur) as Hports.
  all: unfold entry_ok in Hentry; destruct (decide (i = cur)) as [->|Hne].
  - subst q. unfold node_at_port.
    rewrite (find_port_unique _ d p lat);
      [|by apply NoDup_app in Hports as (? & _ & _)|].
    + simpl. rewrite Z.eqb_refl. f_equal.
      pose proof (proj2 Hc 0 (path_nil _ _)). lia.
    + by apply StdMap.find_Some_elem.
  - destruct Hentry as (nb & w0 & c' & Hnb & Hs1 & Hs2).
    pose proof (shortest_unique _ _ _ _ _ Hc Hs1) as ->.
    pose proof (path_nonneg n _ _ _ Hok (proj1 Hs2)).
    pose proof (ok_latency n Hok cur nb w0 ltac:(by exists q)). lia.
  - subst q. unfold node_at_port.
    rewrite (find_port_unique _ d p lat);
      [|by apply NoDup_app in Hports as (? & _ & _)|].
    + simpl. rewrite Z.eqb_refl. f_equal.
      pose proof (proj2 Hc 0 (path_nil _ _)). lia.
    + by apply StdMap.find_Some_elem.
  - destruct Hentry as (nb & w0 & c' & Hnb & Hs1 & Hs2).
    pose proof (shortest_unique _ _ _ _ _ Hc Hs1) as ->.
    pose proof (path_nonneg n _ _ _ Hok (proj1 Hs2)) as Hc'.
    assert (Hedge : edge (to_routers n) cur nb w0) by (by exists q).
    pose proof (ok_latency n Hok _ _ _ Hedge) as Hw0.
    pose proof (ok_range n Hok _ _ _ Hedge) as Hnbr.
    apply StdMap.find_Some_elem in Hnb.
    apply NoDup_app in Hports as (Hn1 & Hdisj & Hn2).
    unfold node_at_port. rewrite find_port_None.
    2:{ intros Hin. apply (Hdisj q Hin).
        apply list_elem_of_fmap. by exists (nb, (q, w0)). }
    simpl. unfold router_at_port.
    rewrite (find_port_unique _ nb q w0) by done. simpl. subst F.
    rewrite (IH nb i d p lat c' (latency + w0)); [|lia|done|done|done|done].
    f_equal. lia.
Qed.

(** ** A network that [route] never leaves *)

Lemma find_min_none (dist : gmap Z Z) : ∀ l : list Z,
  (∀ i, i ∈ l → dist !! i = Some INT_MAX) →
  find_min dist l INT_MAX (-1) = Done (-1).
Proof.
  induction l as [|i l IH]; intros Hall; [done|]. simpl.
  rewrite (Hall i) by by left.
  unfold mbind, outcome_bind, must, bind. rewrite Z.ltb_irrefl.
  apply IH. intros j Hj. apply Hall. by right.
Qed.

Lemma erase_absent k (l : list Z) : k ∉ l → erase k l = l.
Proof.
  unfold erase. induction l as [|i l IH]; intros Hk; [done|].
  apply not_elem_of_cons in Hk as [Hne Hk]. simpl.
  replace (i =? k) with false by (symmetry; apply Z.eqb_neq; lia).
  simpl. by rewrite IH.
Qed.

(** Once every router left in [rlist] is at distance INT_MAX the loop
    takes none out: min_cand stays -1 and [rlist] stays as it is. *)
Lemma dijkstra_stuck rt (dist prev : gmap Z Z) (l : list Z) fuel :
  l ≠ [] → -1 ∉ l → StdMap.find (-1) rt = None →
  (∀ i, i ∈ l → dist !! i = Some INT_MAX) →
  dijkstra fuel rt dist prev l = Timeout.
Proof.
  intros Hne Hm Hrt Hall. induction fuel as [|fuel IH]; [done|].
  simpl. destruct l as [|x l'] eqn:E; [done|]. rewrite <- E in *.
  rewrite find_min_none by done.
  unfold mbind, outcome_bind, bind, StdMap.at_.
  match goal with
  | |- context [@StdMap.find ?V ?k ?m] =>
      replace (@StdMap.find V k m) with (@None V) by (symmetry; exact Hrt)
  end.
  simpl. by rewrite erase_absent.
Qed.

(** Two routers with a node each and no channel between them: the file
    is accepted, and [route(0)] does not return. *)
Definition islands : list string :=
  ["router 0 node 0"; "router 1 node 1"]%string.

Definition islands_net : netlist :=
  {| node_list := [(0, 0); (1, 1)];
     to_nodes := [(0, [(0, (0, 1))]); (1, [(1, (0, 1))])];
     to_routers := [(0, []); (1, [])] |}.

Lemma islands_accepted :
  (n ← readFile islands; _BuildNet n) = Done islands_net.
Proof. vm_compute. reflexivity. Qed.

Lemma islands_route fuel : route fuel islands_net 0 = Timeout.
Proof.
  destruct fuel as [|fuel]; [done|].
  unfold route.
  change (_size islands_net) with 2.
  assert (Ha : array_set (new_array 2 INT_MAX) 0 0
               = Done (<[0 := 0]> (new_array 2 INT_MAX)))
    by (unfold array_set; by rewrite new_array_lookup).
  rewrite Ha, mbind_Done.
  set (dist := <[0 := 0]> (new_array 2 INT_MAX)).
  set (prev := new_array 2 (-1)).
  assert (Hd0 : dist !! 0 = Some 0) by apply lookup_insert_eq.
  assert (Hd1 : dist !! 1 = Some INT_MAX)
    by (unfold dist; rewrite lookup_insert_ne by done;
        by rewrite new_array_lookup).
  assert (Hstep : dijkstra (S fuel) (to_routers islands_net) dist prev (seqZ 0 2)
                  = dijkstra fuel (to_routers islands_net) dist prev [1]).
  { change (seqZ 0 2) with [0; 1]. simpl. rewrite Hd0, Hd1. simpl. done. }
  rewrite Hstep.
  rewrite dijkstra_stuck; [done|done| |done|].
  - intros [Hin|Hin]%elem_of_cons; [done|by apply elem_of_nil in Hin].
  - intros i [->|Hi]%elem_of_cons; [done|by apply elem_of_nil in Hi].
Qed.

(** ** The network of an accepted file

    The parser keeps both tables of links in the order of [std::map]. *)

Lemma at_Forall {V} (P : V → Prop) d k (m : StdMap.t V) :
  P d → Forall (λ e, P (snd e)) m → P (StdMap.at_ d k m).
Proof.
  intros Hd Hall. unfold StdMap.at_.
  destruct (StdMap.find k m) as [x|] eqn:E; [|done]. simpl.
  apply StdMap.find_Some_elem in E.
  rewrite Forall_forall in Hall. by apply (Hall (k, x)).
Qed.

Lemma find_at_elem {V} k d (x : V) (m : StdMap.t (StdMap.t V)) :
  StdMap.find d (StdMap.at_ [] k m) = Some x →
  ∃ inner, (k, inner) ∈ m ∧ (d, x) ∈ inner.
Proof.
  unfold StdMap.at_. destruct (StdMap.find k m) as [inner|] eqn:E; simpl;
    [|done].
  intros H. exists inner.
  split; by apply StdMap.find_Some_elem.
Qed.

Lemma sorted_nil {V} : StdMap.sorted (@nil (Z * V)).
Proof. constructor. Qed.

Lemma links_sorted_at k m : links_sorted m → StdMap.sorted (StdMap.at_ [] k m).
Proof. intros [_ H]. by apply at_Forall; [apply sorted_nil|]. Qed.

Lemma links_sorted_insert k inner m :
  links_sorted m → StdMap.sorted inner →
  links_sorted (StdMap.insert k inner m).
Proof.
  intros [Hs Hall] Hin. split; [by apply StdMap.insert_sorted|].
  apply Forall_forall. intros e [-> | He]%StdMap.elem_insert; [done|].
  rewrite Forall_forall in Hall. by apply Hall.
Qed.

Lemma init_router_sorted id m : links_sorted m → links_sorted (init_router id m).
Proof.
  intros H. unfold init_router. destruct (_ =? _); [|done].
  apply links_sorted_insert; [done|apply sorted_nil].
Qed.

Lemma set_link_sorted a b v m : links_sorted m → links_sorted (set_link a b v m).
Proof.
  intros H. apply links_sorted_insert; [done|].
  by apply StdMap.insert_sorted, links_sorted_at.
Qed.

Lemma set_latency_sorted a b w m :
  links_sorted m → links_sorted (set_latency a b w m).
Proof.
  intros H. apply links_sorted_insert; [done|].
  by apply StdMap.insert_sorted, links_sorted_at.
Qed.

Lemma set_router_list_sorted t m n n' :
  set_router_list t m n = Done n' → links_sorted m → net_sorted n →
  net_sorted n'.
Proof.
  intros H Hm [Hn Hr]. destruct t; simplify_eq/=; by split.
Qed.

Lemma init_router_structures_sorted id n :
  net_sorted n → net_sorted (init_router_structures id n).
Proof. intros [Hn Hr]. split; by apply init_router_sorted. Qed.

Lemma on_body_type_net temp v n v' n' :
  on_body_type temp v n = Done (v', n') → n' = n.
Proof.
  unfold on_body_type. destruct (type_of_word temp); simpl; congruence.
Qed.

Lemma on_body_id_sorted temp v n v' n' :
  on_body_id temp v n = Done (v', n') → net_sorted n → net_sorted n'.
Proof.
  unfold on_body_id. intros H Hn.
  set (n1 := match body_type v with
             | ROUTER => init_router_structures (atoi temp) n
             | _ => n end) in *.
  assert (Hn1 : net_sorted n1).
  { unfold n1. destruct (body_type v); try done.
    by apply init_router_structures_sorted. }
  clearbody n1. destruct Hn1 as [Hnn Hnr].
  destruct (head_type v), (body_type v); simplify_eq/=; try done.
  - destruct (_ && _); simplify_eq/=. split; [|done].
    by apply set_link_sorted.
  - destruct (_ && _); simplify_eq/=. split; [|done].
    by apply set_link_sorted.
  - split; [done|]. destruct (_ =? _); repeat apply set_link_sorted; done.
Qed.

Lemma on_word_sorted temp v n v' n' :
  on_word temp v n = Done (v', n') → net_sorted n → net_sorted n'.
Proof.
  unfold on_word. intros H Hn. destruct (state v).
  - destruct (type_of_word temp); simplify_eq/=. done.
  - simplify_eq/=. by apply init_router_structures_sorted.
  - by apply on_body_type_net in H as ->.
  - by eapply on_body_id_sorted.
  - destruct (_ || _); [by apply on_body_type_net in H as ->|].
    destruct Hn as [Hnn Hnr].
    destruct (head_type v); simplify_eq/=.
    + split; [|done]. by apply set_latency_sorted.
    + split; [done|]. by apply set_latency_sorted.
Qed.

Lemma parse_words_sorted ws : ∀ v n n',
  parse_words ws v n = Done n' → net_sorted n → net_sorted n'.
Proof.
  induction ws as [|temp ws IH]; intros v n n' H Hn; simpl in H.
  - by simplify_eq.
  - destruct (on_word temp v n) as [[v1 n1]| | |] eqn:E; simpl in H; try done.
    eapply IH; [done|]. by eapply on_word_sorted.
Qed.

Lemma parse_lines_sorted lines : ∀ n n',
  parse_lines lines n = Done n' → net_sorted n → net_sorted n'.
Proof.
  induction lines as [|line lines IH]; intros n n' H Hn; simpl in H.
  - by simplify_eq.
  - destruct (parse_line line n) as [n1| | |] eqn:E; simpl in H; try done.
    eapply IH; [done|]. unfold parse_line in E.
    destruct (String.eqb line ""); [by simplify_eq|].
    by eapply parse_words_sorted.
Qed.

Lemma readFile_sorted lines n :
  readFile lines = Done n →
  net_sorted n ∧ StdMap.size (to_nodes n) = StdMap.size (to_routers n).
Proof.
  unfold readFile. intros H.
  destruct (parse_lines lines empty_netlist) as [n1| | |] eqn:E;
    simpl in H; try done.
  destruct (netlist_checks n1) eqn:Hc; simplify_eq.
  split.
  - eapply parse_lines_sorted; [done|].
    repeat split; try apply sorted_nil; constructor.
  - unfold netlist_checks in Hc. apply andb_true_iff in Hc as [Hc _].
    by apply Z.eqb_eq in Hc.
Qed.

(** [_BuildNet] keeps the links and numbers the ports of a router from 0:
    its nodes first, the other routers next. *)

Lemma keys_number_ports (m : StdMap.t link) : ∀ o,
  StdMap.keys (number_ports o m) = StdMap.keys m.
Proof.
  unfold StdMap.keys. induction m as [|[k [p lat]] m IH]; intros o; [done|].
  cbn [number_ports]. rewrite !fmap_cons. simpl. f_equal. apply IH.
Qed.

Lemma ports_number_ports (m : StdMap.t link) : ∀ o,
  ports (number_ports o m) = seqZ o (StdMap.size m).
Proof.
  unfold ports, StdMap.size.
  induction m as [|[k [p lat]] m IH]; intros o; [done|].
  cbn [number_ports length]. rewrite fmap_cons, IH. simpl fst.
  rewrite (seqZ_cons o) by lia. f_equal. f_equal; lia.
Qed.

Lemma number_ports_sorted o (m : StdMap.t link) :
  StdMap.sorted m → StdMap.sorted (number_ports o m).
Proof. unfold StdMap.sorted. by rewrite keys_number_ports. Qed.

(** A strictly increasing list of l numbers from a, a+1, ..., a+l-1 is
    that list. *)
Lemma sorted_range_seqZ (l : list Z) : ∀ a,
  StronglySorted Z.lt l →
  Forall (λ k, a ≤ k < a + Z.of_nat (length l)) l →
  l = seqZ a (Z.of_nat (length l)).
Proof.
  induction l as [|x l IH]; intros a Hs Hall; [done|].
  apply StronglySorted_inv in Hs as [Hs Hlt].
  apply Forall_cons in Hall as [Hx Hall].
  rewrite List.Forall_forall in Hlt. rewrite Forall_forall in Hall.
  cbn [length] in *.
  assert (Hl : l = seqZ (a + 1) (Z.of_nat (length l))).
  { apply IH; [done|]. apply Forall_forall. intros k Hk.
    specialize (Hall k Hk). apply list_elem_of_In, Hlt in Hk. lia. }
  assert (x = a) as ->.
  { destruct l as [|y l']; [simpl in Hx; lia|].
    assert (Hy : y ∈ y :: l') by left.
    pose proof (Hlt y (proj1 (list_elem_of_In _ _) Hy)) as Hxy.
    rewrite Hl in Hy. apply elem_of_seqZ in Hy.
    cbn [length] in Hl. rewrite seqZ_cons in Hl by lia.
    injection Hl as Hy' _. lia. }
  rewrite (seqZ_cons a) by lia. f_equal.
  rewrite Hl at 1. f_equal; lia.
Qed.

(** Two strictly increasing lists, one within the other and no shorter,
    are equal. *)
Lemma sorted_included_eq (l k : list Z) :
  StronglySorted Z.lt l → StronglySorted Z.lt k →
  (∀ x, x ∈ l → x ∈ k) → (length k ≤ length l)%nat → l = k.
Proof.
  intros Hl Hk Hsub Hlen.
  apply (StronglySorted_unique_strong Z.lt); [intros; lia|done|done|].
  apply submseteq_length_Permutation; [|done].
  apply NoDup_submseteq; [|done].
  clear -Hl. induction Hl as [|x l Hs IH Hall]; constructor; [|done].
  intros Hin. rewrite List.Forall_forall in Hall.
  apply list_elem_of_In, Hall in Hin. lia.
Qed.

Lemma number_node_ports_spec size nodes rt (m : links) : ∀ m',
  number_node_ports size nodes rt m = Done m' →
  m' = number_all <$> m
  ∧ Forall (λ k, is_Some (StdMap.find k rt) ∧ 0 ≤ k < size) (StdMap.keys m).
Proof.
  unfold StdMap.keys.
  induction m as [|[node ns] m IH]; intros m' H; simpl in H.
  - simplify_eq. split; [done|constructor].
  - destruct (StdMap.find node rt) as [rs|] eqn:Hrs; simpl in H; [|done].
    destruct (in_range size node) eqn:Hrange; simpl in H; [|done].
    destruct (forallb _ _); simpl in H; [|done].
    destruct (number_node_ports size nodes rt m) as [m1| | |] eqn:E;
      simpl in H; try done.
    simplify_eq. destruct (IH m1 eq_refl) as [-> Hall].
    split; [done|]. rewrite fmap_cons. constructor; [|done].
    split; [done|]. unfold in_range in Hrange.
    apply andb_true_iff in Hrange as [?%Z.leb_le ?%Z.ltb_lt]. done.
Qed.

Lemma find_number_all (m : links) k :
  StdMap.find k (number_all <$> m) = number_ports 0 <$> StdMap.find k m.
Proof.
  induction m as [|[k' ns] m IH]; [done|].
  rewrite fmap_cons. simpl. by destruct (k =? k').
Qed.

Lemma find_sorted_head {V} k (v : V) m :
  StdMap.sorted ((k, v) :: m) → StdMap.find k m = None.
Proof.
  intros [_ Hlt]%StdMap.sorted_cons.
  destruct (StdMap.find k m) as [x|] eqn:E; [|done].
  apply StdMap.find_Some_elem, Hlt in E. lia.
Qed.

Lemma number_router_ports_spec size (m : links) : ∀ rt rt',
  number_router_ports size m rt = Done rt' →
  StdMap.sorted m → StdMap.sorted rt →
  StdMap.keys rt' = StdMap.keys rt
  ∧ ∀ k, match StdMap.find k m with
         | Some ns =>
             ∃ rs, StdMap.find k rt = Some rs
                   ∧ forallb (in_range size) (StdMap.keys rs) = true
                   ∧ StdMap.find k rt'
                     = Some (number_ports (StdMap.size ns) rs)
         | None => StdMap.find k rt' = StdMap.find k rt
         end.
Proof.
  induction m as [|[node ns] m IH]; intros rt rt' H Hm Hrt; simpl in H.
  - by simplify_eq.
  - destruct (StdMap.find node rt) as [rs|] eqn:Hrs; simpl in H; [|done].
    destruct (forallb _ _) eqn:Hcheck; simpl in H; [|done].
    pose proof (find_sorted_head _ _ _ Hm) as Hhead.
    apply StdMap.sorted_cons in Hm as [Hm _].
    destruct (IH _ _ H Hm) as [Hkeys Hfind];
      [by apply StdMap.insert_sorted|].
    split.
    + rewrite Hkeys. apply StdMap.keys_insert_present; [done|by eexists].
    + intros k. simpl. destruct (k =? node) eqn:Heq.
      * apply Z.eqb_eq in Heq as ->. exists rs.
        split; [done|]. split; [done|].
        specialize (Hfind node). rewrite Hhead in Hfind.
        by rewrite Hfind, StdMap.find_insert_eq.
      * apply Z.eqb_neq in Heq. specialize (Hfind k).
        rewrite StdMap.find_insert_ne in Hfind by done. done.
Qed.

(** The routers of a file that [readFile] and [_BuildNet] take are
    numbered 0 .. _size-1, every channel leads to one of them, and the
    output ports of a router are distinct. *)
Lemma built_topology_ok lines n0 n :
  readFile lines = Done n0 → _BuildNet n0 = Done n →
  channels_ok n → topology_ok n.
Proof.
  intros Hread Hbuild [Hlat Hback Hconn Honce].
  apply readFile_sorted in Hread as [[[Hns Hnall] [Hrs Hrall]] Hsize].
  unfold _BuildNet in Hbuild.
  destruct (number_node_ports _ _ _ _) as [tn| | |] eqn:Etn;
    simpl in Hbuild; try done.
  destruct (number_router_ports _ _ _) as [tr| | |] eqn:Etr;
    simpl in Hbuild; try done.
  simplify_eq.
  apply number_node_ports_spec in Etn as [-> Hkeysn].
  apply number_router_ports_spec in Etr as [Hkeys Hfind]; [|done|done].
  unfold _size in *. cbn [to_routers to_nodes node_list] in *.
  set (rt := to_routers n0) in *. set (nd := to_nodes n0) in *.
  unfold StdMap.size in Hsize.
  assert (Hlen : length tr = length rt).
  { rewrite <- (length_fmap fst tr), <- (length_fmap fst rt). 
    unfold StdMap.keys in Hkeys. by rewrite Hkeys. }
  assert (Hsz : StdMap.size tr = StdMap.size rt)
    by (unfold StdMap.size; by rewrite Hlen).
  assert (HK : StdMap.keys nd = seqZ 0 (StdMap.size rt)).
  { unfold StdMap.size. rewrite <- Hsize.
    rewrite <- (length_fmap fst nd). apply sorted_range_seqZ; [done|].
    rewrite length_fmap.
    eapply Forall_impl; [exact Hkeysn|]. unfold StdMap.size.
    intros k [_ Hk]. simpl. lia. }
  assert (HKr : StdMap.keys rt = StdMap.keys nd).
  { symmetry. apply sorted_included_eq; [done|done| |].
    - intros x Hx. rewrite Forall_forall in Hkeysn.
      destruct (Hkeysn x Hx) as [[rs Hx'] _]. by eapply find_keys.
    - unfold StdMap.keys. rewrite !length_fmap. lia. }
  assert (Hnone : ∀ u, StdMap.find u nd = None → StdMap.find u rt = None).
  { intros u Hu. destruct (StdMap.find u rt) as [rs|] eqn:E; [|done].
    apply find_keys in E. rewrite HKr in E.
    apply StdMap.elem_keys_find in E as [x E]. congruence. }
  assert (Hat : ∀ u,
    match StdMap.find u nd with
    | Some ns => ∃ rs, StdMap.find u rt = Some rs
        ∧ forallb (in_range (StdMap.size rt)) (StdMap.keys rs) = true
        ∧ StdMap.at_ [] u tr = number_ports (StdMap.size ns) rs
    | None => StdMap.at_ [] u tr = []
    end).
  { intros u. specialize (Hfind u). unfold StdMap.at_.
    destruct (StdMap.find u nd) as [ns|] eqn:E.
    - destruct Hfind as (rs & Hu & Hcheck & ->). by exists rs.
    - by rewrite Hfind, (Hnone u E). }
  split; unfold _size; cbn [to_routers to_nodes node_list]; try done.
  - unfold StdMap.sorted. by rewrite Hkeys.
  - by rewrite Hkeys, HKr, HK, Hsz.
  - intros u. specialize (Hat u). destruct (StdMap.find u nd) as [ns|].
    + destruct Hat as (rs & Hu & _ & ->). apply number_ports_sorted.
      apply StdMap.find_Some_elem in Hu. rewrite Forall_forall in Hrall.
      by apply (Hrall (u, rs)).
    + rewrite Hat. apply sorted_nil.
  - intros u v w [port He]. specialize (Hat u).
    destruct (StdMap.find u nd) as [ns|]; [|by rewrite Hat in He].
    destruct Hat as (rs & Hu & Hcheck & Hatu). rewrite Hatu in He.
    apply find_keys in He. rewrite keys_number_ports in He.
    rewrite forallb_forall in Hcheck.
    apply list_elem_of_In, Hcheck in He. unfold in_range in He.
    apply andb_true_iff in He as [?%Z.leb_le ?%Z.ltb_lt]. lia.
  - intros i. unfold StdMap.at_. rewrite find_number_all.
    destruct (StdMap.find i nd) as [ns|] eqn:E; simpl; [|apply sorted_nil].
    apply number_ports_sorted. apply StdMap.find_Some_elem in E.
    rewrite Forall_forall in Hnall. by apply (Hnall (i, ns)).
  - intros u. specialize (Hat u). unfold StdMap.at_ at 1.
    rewrite find_number_all.
    destruct (StdMap.find u nd) as [ns|] eqn:E; simpl.
    + destruct Hat as (rs & _ & _ & ->). rewrite !ports_number_ports.
      apply NoDup_app. split; [apply NoDup_seqZ|].
      split; [|apply NoDup_seqZ].
      intros x Hx%elem_of_seqZ Hx'%elem_of_seqZ. lia.
    + rewrite Hat. constructor.
Qed.

(** ** A line of three routers *)

Definition line3 : list string :=
  ["router 0 router 1 5"; "router 1 router 2 3";
   "router 0 node 0"; "router 1 node 1"; "router 2 node 2"]%string.

(** The file as [readFile] leaves it, the ports not numbered yet. *)
Definition line3_parsed : netlist :=
  {| node_list := [(0, 0); (1, 1); (2, 2)];
     to_nodes := [(0, [(0, (-1, 1))]); (1, [(1, (-1, 1))]);
                  (2, [(2, (-1, 1))])];
     to_routers := [(0, [(1, (-1, 5))]);
                    (1, [(0, (-1, 1)); (2, (-1, 3))]);
                    (2, [(1, (-1, 1))])] |}.

(** And as [_BuildNet] leaves it. *)
Definition line3_net : netlist :=
  {| node_list := [(0, 0); (1, 1); (2, 2)];
     to_nodes := [(0, [(0, (0, 1))]); (1, [(1, (0, 1))]); (2, [(2, (0, 1))])];
     to_routers := [(0, [(1, (1, 5))]);
                    (1, [(0, (1, 1)); (2, (2, 3))]);
                    (2, [(1, (1, 1))])] |}.

Definition line3_table : list (StdMap.t Z) :=
  [ [(0, 0); (1, 1); (2, 1)];
    [(0, 1); (1, 0); (2, 2)];
    [(0, 1); (1, 1); (2, 0)] ].

Lemma line3_build : build 10 line3 = Done (line3_net, line3_table).
Proof. vm_compute. reflexivity. Qed.

(** Membership in a list that is written out. *)
Ltac elems H :=
  first [ apply elem_of_nil in H; contradiction
        | apply elem_of_cons in H as [H|H]; [simplify_eq|elems H] ].

Lemma line3_edges u v w :
  edge (to_routers line3_net) u v w →
  (u, v, w) ∈ [(0, 1, 5); (1, 0, 1); (1, 2, 3); (2, 1, 1)].
Proof.
  intros [p H]. apply find_at_elem in H as (inner & Hu & Hv).
  simpl in Hu. elems Hu; elems Hv; set_solver.
Qed.

Lemma line3_edge_01 : edge (to_routers line3_net) 0 1 5.
Proof. by exists 1. Qed.
Lemma line3_edge_10 : edge (to_routers line3_net) 1 0 1.
Proof. by exists 1. Qed.
Lemma line3_edge_12 : edge (to_routers line3_net) 1 2 3.
Proof. by exists 2. Qed.
Lemma line3_edge_21 : edge (to_routers line3_net) 2 1 1.
Proof. by exists 1. Qed.

Lemma line3_channels : channels_ok line3_net.
Proof.
  split.
  - intros u v w He. apply line3_edges in He.
    change (max_latency line3_net) with 715827882. elems He; lia.
  - intros u v w He. apply line3_edges in He. elems He.
    + exists 1. apply line3_edge_10.
    + exists 5. apply line3_edge_01.
    + exists 1. apply line3_edge_21.
    + exists 3. apply line3_edge_12.
  - change (_size line3_net) with 3. intros u v Hu Hv.
    pose proof (path_nil (to_routers line3_net)) as P0.
    pose proof (λ x c, path_cons _ _ _ x _ c line3_edge_01) as P01.
    pose proof (λ x c, path_cons _ _ _ x _ c line3_edge_10) as P10.
    pose proof (λ x c, path_cons _ _ _ x _ c line3_edge_12) as P12.
    pose proof (λ x c, path_cons _ _ _ x _ c line3_edge_21) as P21.
    assert (u = 0 ∨ u = 1 ∨ u = 2) as [->|[->| ->]] by lia;
      assert (v = 0 ∨ v = 1 ∨ v = 2) as [->|[->| ->]] by lia;
      eexists; eauto 6.
  - intros i j d _ _ [x Hi] [y Hj].
    apply find_at_elem in Hi as (ni & Hi & Hdi).
    apply find_at_elem in Hj as (nj & Hj & Hdj).
    simpl in Hi, Hj. elems Hi; elems Hj; elems Hdi; elems Hdj; done.
Qed.

(** C1, as the code has it: for a file that [readFile] and [_BuildNet]
    take, whose channels between routers all have a channel back and a
    latency of at least one cycle that cannot overflow an [int], whose
    routers can all reach each other, and whose nodes hang on one router
    each, [buildRoutingTable] returns, and for every router r and every
    node d the entry routing_table[r][d] is the ejection port of d when d
    hangs on r, and otherwise the output port of r to a neighbour on a
    walk of least total latency to the router of d; a flit that follows
    the table from r is ejected at d after channels of exactly that
    latency. *)
Theorem routing_table_shortest (lines : list string) (n0 n : netlist) :
  readFile lines = Done n0 → _BuildNet n0 = Done n → channels_ok n →
  ∃ fuel0 : nat, ∀ fuel, (fuel0 ≤ fuel)%nat →
    ∃ table, build fuel lines = Done (n, table) ∧
      ∀ r i d p lat, 0 ≤ r < _size n → 0 ≤ i < _size n →
        StdMap.find d (StdMap.at_ [] i (to_nodes n)) = Some (p, lat) →
        ∃ q c, min_anynet table r d false = Done q
          ∧ shortest (to_routers n) r i c
          ∧ (i = r → q = p)
          ∧ (i ≠ r →
             ∃ next w c',
               StdMap.find next (StdMap.at_ [] r (to_routers n)) = Some (q, w)
               ∧ c = w + c' ∧ shortest (to_routers n) next i c')
          ∧ follow (S (Z.to_nat c)) n table r d 0 = Done c.
Proof.
  intros Hread Hbuild Hch.
  pose proof (built_topology_ok lines n0 n Hread Hbuild Hch) as Hok.
  exists (S (Z.to_nat INT_MAX + Z.to_nat (_size n))).
  intros fuel Hfuel.
  destruct (buildRoutingTable_spec n fuel Hok) as (table & Htable & Htok);
    [lia|].
  exists table. split.
  { unfold build. by rewrite Hread, mbind_Done, Hbuild, mbind_Done, Htable. }
  intros r i d p lat Hr Hi Hd.
  destruct (Htok r Hr) as (row & Hrow & Hrow_ok).
  destruct (Hrow_ok i d p lat Hi Hd) as (q & Hq & Hentry).
  assert (Hport : min_anynet table r d false = Done q).
  { unfold min_anynet.
    replace (0 <=? r) with true by (symmetry; apply Z.leb_le; lia).
    simpl. rewrite Hrow. simpl. by rewrite Hq. }
  assert (Hc : ∃ c, shortest (to_routers n) r i c
                    ∧ (i = r → q = p)
                    ∧ (i ≠ r →
                       ∃ next w c',
                         StdMap.find next (StdMap.at_ [] r (to_routers n))
                         = Some (q, w)
                         ∧ c = w + c' ∧ shortest (to_routers n) next i c')).
  { unfold entry_ok in Hentry. destruct (decide (i = r)) as [->|Hne].
    - exists 0. split; [|done]. split; [constructor|].
      intros c'. by apply path_nonneg.
    - destruct Hentry as (nb & w0 & c' & Hnb & Hs1 & Hs2).
      exists (w0 + c'). split; [done|]. split; [done|].
      intros _. by exists nb, w0, c'. }
  destruct Hc as (c & Hs & H1 & H2).
  exists q, c. repeat (split; [done|]).
  rewrite (follow_spec n table Hok Htok (Z.to_nat c) r i d p lat c 0);
    [f_equal; lia|lia|done|done|done|done].
Qed.

Lemma routing_table_shortest_witness :
  ∃ fuel0 : nat, ∀ fuel, (fuel0 ≤ fuel)%nat →
    ∃ table, build fuel line3 = Done (line3_net, table) ∧
      ∃ q c, min_anynet table 0 2 false = Done q
             ∧ shortest (to_routers line3_net) 0 2 c
             ∧ follow (S (Z.to_nat c)) line3_net table 0 2 0 = Done c.
Proof.
  destruct (routing_table_shortest line3 line3_parsed line3_net)
    as [fuel0 H];
    [vm_compute; reflexivity|vm_compute; reflexivity|apply line3_channels|].
  exists fuel0. intros fuel Hfuel.
  destruct (H fuel Hfuel) as (table & Htable & Hall).
  exists table. split; [exact Htable|]. clear Htable.
  destruct (Hall 0 2 2 0 1) as (q & c & Hq & Hc & _ & _ & Hf);
    [vm_compute; intuition discriminate|vm_compute; intuition discriminate
    |reflexivity|].
  exists q, c. split; [exact Hq|]. split; [exact Hc|exact Hf].
Defined.

(** C1 as stated fails: the file [islands] is accepted by the parser, and
    no routing table is ever built from it, [route(0)] does not leave its
    loop. *)
Lemma routing_table_counterexample :
  (∃ n, readFile islands = Done n)
  ∧ ∀ fuel, ¬ ∃ built, build fuel islands = Done built.
Proof.
  split.
  - eexists. vm_compute. reflexivity.
  - intros fuel [built H]. unfold build in H.
    assert (Hn : ∃ n0, readFile islands = Done n0 ∧ _BuildNet n0 = Done islands_net).
    { eexists. split; vm_compute; reflexivity. }
    destruct Hn as (n0 & Hread & Hbuild).
    rewrite Hread, mbind_Done, Hbuild, mbind_Done in H.
    unfold buildRoutingTable in H.
    change (seqZ 0 (_size islands_net)) with [0; 1] in H.
    simpl route_all in H. rewrite islands_route in H. done.
Qed.

(** ** What the declaration of a channel between routers installs *)

Lemma at_insert_eq {V} (d v : V) k m :
  StdMap.at_ d k (StdMap.insert k v m) = v.
Proof. unfold StdMap.at_. by rewrite StdMap.find_insert_eq. Qed.

Lemma at_insert_ne {V} (d v : V) k k' m :
  k ≠ k' → StdMap.at_ d k' (StdMap.insert k v m) = StdMap.at_ d k' m.
Proof. intros H. unfold StdMap.at_. by rewrite StdMap.find_insert_ne. Qed.

Lemma at_init_router j k m :
  StdMap.at_ [] k (init_router j m) = StdMap.at_ [] k m.
Proof.
  unfold init_router, StdMap.count.
  destruct (StdMap.find j m) as [x|] eqn:E; simpl; [done|].
  destruct (decide (j = k)) as [->|Hne].
  - rewrite at_insert_eq. unfold StdMap.at_. by rewrite E.
  - by apply at_insert_ne.
Qed.

(** X21: the three words "router B w" on a line headed by router A install
    the channel from A to B with latency w; the channel from B to A keeps
    the latency it has, or gets latency 1 when it is not there yet. *)
Lemma declare_router_link (v : line_vars) (n : netlist) (b w : string) :
  head_type v = ROUTER →
  state v = BODY_TYPE ∨ state v = LINK_WEIGHT →
  String.eqb w "router" = false → String.eqb w "node" = false →
  head_id v ≠ atoi b →
  ∃ v' n',
    ('(v1, n1) ← on_word "router" v n;
     '(v2, n2) ← on_word b v1 n1;
     on_word w v2 n2) = Done (v', n')
    ∧ router_latency (head_id v) (atoi b) n' = Some (atoi w)
    ∧ router_latency (atoi b) (head_id v) n'
      = Some (default 1 (router_latency (atoi b) (head_id v) n)).
Proof.
  intros Hhead Hstate Hw1 Hw2 Hne.
  set (A := head_id v) in *. set (B := atoi b) in *.
  assert (H1 : on_word "router" v n
               = Done ({| state := BODY_ID; head_id := A; head_type := ROUTER;
                          body_type := ROUTER; body_id := body_id v;
                          link_weight := link_weight v |}, n)).
  { unfold on_word, on_body_type. rewrite Hhead.
    by destruct Hstate as [-> | ->]. }
  rewrite H1, mbind_Done. cbn [on_word state].
  unfold on_body_id. cbn [head_type body_type head_id body_id link_weight].
  fold B. unfold set_router_list, init_router_structures.
  cbn [to_routers to_nodes node_list]. rewrite !mbind_Done.
  cbn [on_word state]. rewrite Hw1, Hw2.
  cbn [orb head_type head_id body_id router_list set_router_list
       to_routers to_nodes node_list].
  rewrite !mbind_Done.
  eexists _, _. split; [reflexivity|].
  unfold router_latency. cbn [to_routers].
  set (tr1 := init_router B (to_routers n)).
  set (m := set_link A B (-1, 1) tr1).
  assert (HatB : StdMap.at_ [] B m = StdMap.at_ [] B (to_routers n)).
  { unfold m, set_link. rewrite at_insert_ne by done. apply at_init_router. }
  split.
  - unfold set_latency. rewrite at_insert_eq.
    by rewrite StdMap.find_insert_eq.
  - unfold set_latency. rewrite at_insert_ne by done.
    rewrite HatB. unfold StdMap.count.
    destruct (StdMap.find A (StdMap.at_ [] B (to_routers n))) as [l|] eqn:E;
      simpl.
    + by rewrite HatB, E.
    + unfold set_link. rewrite at_insert_eq.
      by rewrite StdMap.find_insert_eq.
Qed.

(** ** A latency that leaks from a node into the router table *)

Definition leak : list string :=
  ["router 0 router 1 3"; "router 1 node 0 5"]%string.

(** C10 at a file the code takes: router 0 declares its channel to
    router 1 with latency 3, the channel back is declared nowhere, and
    router 1 declares node 0 with latency 5.  The latency 5 is stored for
    the channel from router 1 to router 0 (and the node keeps latency 1):
    the weight is written to router_list[head_type], the table of
    channels between routers, under the number of the node. *)
Theorem undeclared_return_latency :
  ∃ n, readFile leak = Done n
       ∧ router_latency 0 1 n = Some 3
       ∧ router_latency 1 0 n = Some 5
       ∧ node_latency 1 0 n = Some 1.
Proof. eexists. vm_compute. done. Qed.

(** ** What the parser keeps of the two tables *)

(** The keys after [m[k] = v] depend on the keys before only. *)
Lemma keys_insert_congr {V W} k (v : V) (w : W) (m : StdMap.t V)
    (m' : StdMap.t W) :
  StdMap.keys m = StdMap.keys m' →
  StdMap.keys (StdMap.insert k v m) = StdMap.keys (StdMap.insert k w m').
Proof.
  unfold StdMap.keys. revert m'.
  induction m as [|[k1 v1] m IH]; intros [|[k2 v2] m'] H; try done.
  rewrite !fmap_cons in H. simpl in H. injection H as <- H.
  simpl. destruct (k <? k1); [by rewrite !fmap_cons; simpl; f_equal; f_equal|].
  destruct (k =? k1); rewrite !fmap_cons; simpl; f_equal; [done|].
  by apply IH.
Qed.

Lemma count_keys {V W} k (m : StdMap.t V) (m' : StdMap.t W) :
  StdMap.keys m = StdMap.keys m' → StdMap.count k m = StdMap.count k m'.
Proof.
  unfold StdMap.keys, StdMap.count. revert m'.
  induction m as [|[k1 v1] m IH]; intros [|[k2 v2] m'] H; try done.
  rewrite !fmap_cons in H. simpl in H. injection H as <- H.
  simpl. destruct (k =? k1); [done|]. by apply IH.
Qed.

Lemma elem_keys_insert {V} k k' (v : V) (m : StdMap.t V) :
  k' ∈ StdMap.keys (StdMap.insert k v m) ↔ k' = k ∨ k' ∈ StdMap.keys m.
Proof.
  split.
  - intros [x Hx]%StdMap.elem_keys_find.
    destruct (decide (k' = k)) as [->|Hne]; [by left|right].
    rewrite StdMap.find_insert_ne in Hx by done. by eapply find_keys.
  - intros [-> | [x Hx]%StdMap.elem_keys_find].
    + eapply find_keys. apply StdMap.find_insert_eq.
    + destruct (decide (k = k')) as [->|Hne].
      * eapply find_keys. apply StdMap.find_insert_eq.
      * eapply find_keys. by rewrite StdMap.find_insert_ne.
Qed.

Definition tables_agree (n : netlist) : Prop :=
  StdMap.keys (to_nodes n) = StdMap.keys (to_routers n).

(** Past the number of the head, the head is a router of both tables. *)
Definition head_known (v : line_vars) (n : netlist) : Prop :=
  match state v with
  | HEAD_TYPE | HEAD_ID => True
  | _ => head_id v ∈ StdMap.keys (to_routers n)
  end.

Lemma init_router_keys id (m m' : links) :
  StdMap.keys m = StdMap.keys m' →
  StdMap.keys (init_router id m) = StdMap.keys (init_router id m').
Proof.
  intros H. unfold init_router. rewrite (count_keys id m m' H).
  destruct (_ =? 0); [by apply keys_insert_congr|done].
Qed.

Lemma init_router_elem id k (m : links) :
  k ∈ StdMap.keys (init_router id m) ↔ k = id ∨ k ∈ StdMap.keys m.
Proof.
  unfold init_router, StdMap.count.
  destruct (StdMap.find id m) as [x|] eqn:E; simpl.
  - split; [by right|]. intros [-> | ?]; [by eapply find_keys|done].
  - apply elem_keys_insert.
Qed.

Lemma set_link_keys a b v (m : links) :
  StdMap.sorted m → a ∈ StdMap.keys m →
  StdMap.keys (set_link a b v m) = StdMap.keys m.
Proof.
  intros Hs Ha. apply StdMap.keys_insert_present; [done|].
  by apply StdMap.elem_keys_find.
Qed.

Lemma set_latency_keys a b w (m : links) :
  StdMap.sorted m → a ∈ StdMap.keys m →
  StdMap.keys (set_latency a b w m) = StdMap.keys m.
Proof.
  intros Hs Ha. apply StdMap.keys_insert_present; [done|].
  by apply StdMap.elem_keys_find.
Qed.

Lemma init_router_structures_agree id n :
  tables_agree n → tables_agree (init_router_structures id n)
  ∧ id ∈ StdMap.keys (to_routers (init_router_structures id n))
  ∧ ∀ k, k ∈ StdMap.keys (to_routers n) →
         k ∈ StdMap.keys (to_routers (init_router_structures id n)).
Proof.
  intros H. split; [by apply init_router_keys|]. simpl.
  split; [apply init_router_elem; by left|].
  intros k Hk. apply init_router_elem. by right.
Qed.

Definition line_inv (v : line_vars) (n : netlist) : Prop :=
  tables_agree n ∧ net_sorted n ∧ head_known v n.

Lemma on_body_type_vars temp v n v' n' :
  on_body_type temp v n = Done (v', n') →
  n' = n ∧ state v' = BODY_ID ∧ head_id v' = head_id v.
Proof.
  unfold on_body_type. destruct (type_of_word temp); simpl; try done.
  by intros [= <- <-].
Qed.

Lemma on_body_id_inv temp v n v' n' :
  on_body_id temp v n = Done (v', n') →
  tables_agree n → net_sorted n → head_id v ∈ StdMap.keys (to_routers n) →
  line_inv v' n'.
Proof.
  unfold on_body_id. intros H Ha Hs Hh.
  set (n1 := match body_type v with
             | ROUTER => init_router_structures (atoi temp) n
             | _ => n end) in *.
  assert (Hn1 : tables_agree n1 ∧ net_sorted n1
                ∧ head_id v ∈ StdMap.keys (to_routers n1)
                ∧ (body_type v = ROUTER →
                   atoi temp ∈ StdMap.keys (to_routers n1))).
  { unfold n1. destruct (body_type v); try done.
    destruct (init_router_structures_agree (atoi temp) n Ha) as (? & ? & Hk).
    split; [done|]. split; [by apply init_router_structures_sorted|].
    split; [by apply Hk|done]. }
  clearbody n1. destruct Hn1 as (Ha1 & [[Hsn Hsna] [Hsr Hsra]] & Hh1 & Hb1).
  assert (Hhn : head_id v ∈ StdMap.keys (to_nodes n1)) by (by rewrite Ha1).
  unfold line_inv, tables_agree, head_known in *.
  destruct (head_type v), (body_type v) eqn:Hbt; simplify_eq/=; try done.
  - destruct (_ && _); simplify_eq/=.
    specialize (Hb1 eq_refl). rewrite <- Ha1 in Hb1.
    rewrite set_link_keys by done.
    split; [done|]. split; [|done]. split; [|done].
    by apply set_link_sorted.
  - destruct (_ && _); simplify_eq/=.
    rewrite set_link_keys by done.
    split; [done|]. split; [|done]. split; [|done].
    by apply set_link_sorted.
  - specialize (Hb1 eq_refl).
    assert (Hk1 : StdMap.keys (set_link (head_id v) (atoi temp) (-1, 1)
                                 (to_routers n1))
                  = StdMap.keys (to_routers n1))
      by (by apply set_link_keys).
    assert (Hs1 : links_sorted (set_link (head_id v) (atoi temp) (-1, 1)
                                  (to_routers n1)))
      by (by apply set_link_sorted).
    destruct (_ =? 0).
    + rewrite set_link_keys; [|by destruct Hs1|by rewrite Hk1].
      rewrite Hk1. split; [done|]. split; [|done]. split; [done|].
      by apply set_link_sorted.
    + rewrite Hk1. done.
Qed.

Lemma on_word_inv temp v n v' n' :
  on_word temp v n = Done (v', n') → line_inv v n → line_inv v' n'.
Proof.
  unfold on_word. intros H (Ha & Hs & Hh). unfold head_known in Hh.
  destruct (state v) eqn:Hst.
  - destruct (type_of_word temp); simplify_eq/=. by split.
  - simplify_eq/=.
    destruct (init_router_structures_agree (atoi temp) n Ha) as (? & ? & Hk).
    split; [done|]. split; [by apply init_router_structures_sorted|done].
  - apply on_body_type_vars in H as (-> & Hst' & Hid).
    split; [done|]. split; [done|]. unfold head_known. by rewrite Hst', Hid.
  - by eapply on_body_id_inv.
  - destruct (_ || _).
    { apply on_body_type_vars in H as (-> & Hst' & Hid).
      split; [done|]. split; [done|]. unfold head_known. by rewrite Hst', Hid. }
    destruct Hs as [[Hsn Hsna] [Hsr Hsra]].
    unfold line_inv, tables_agree, head_known in *.
    destruct (head_type v); simplify_eq/=.
    + rewrite set_latency_keys; [|done|by rewrite Ha].
      split; [done|]. split; [|done]. split; [|done].
      by apply set_latency_sorted.
    + rewrite set_latency_keys by done.
      split; [done|]. split; [|done]. split; [done|].
      by apply set_latency_sorted.
Qed.

Lemma parse_words_agree ws : ∀ v n n',
  parse_words ws v n = Done n' → line_inv v n → tables_agree n'.
Proof.
  induction ws as [|temp ws IH]; intros v n n' H Hn; simpl in H.
  - simplify_eq. by destruct Hn.
  - destruct (on_word temp v n) as [[v1 n1]| | |] eqn:E; simpl in H; try done.
    eapply IH; [done|]. by eapply on_word_inv.
Qed.

Lemma parse_lines_agree lines : ∀ n n',
  parse_lines lines n = Done n' → tables_agree n → net_sorted n →
  tables_agree n'.
Proof.
  induction lines as [|line lines IH]; intros n n' H Ha Hs; simpl in H.
  - by simplify_eq.
  - destruct (parse_line line n) as [n1| | |] eqn:E; simpl in H; try done.
    assert (tables_agree n1 ∧ net_sorted n1) as [Ha1 Hs1].
    { unfold parse_line in E. destruct (String.eqb line ""); [by simplify_eq|].
      split; [|by eapply parse_words_sorted].
      eapply parse_words_agree; [done|]. by split. }
    by eapply IH.
Qed.

(** X17: the two tables of links of [readFile] always hold the same
    routers, so the first of its closing assertions,
    router_list[0].size() == router_list[1].size(), cannot fail: a file
    that is read to its end is refused by the numbering of its nodes
    only. *)
Theorem tables_same_routers (lines : list string) (n : netlist) :
  parse_lines lines empty_netlist = Done n →
  StdMap.keys (to_nodes n) = StdMap.keys (to_routers n)
  ∧ StdMap.size (to_nodes n) = StdMap.size (to_routers n)
  ∧ (readFile lines = Done n
     ↔ StdMap.keys (node_list n) = seqZ 0 (StdMap.size (node_list n))).
Proof.
  intros H.
  assert (Ha : tables_agree n).
  { eapply parse_lines_agree; [done|done|].
    repeat split; try apply sorted_nil; constructor. }
  assert (Hsz : StdMap.size (to_nodes n) = StdMap.size (to_routers n)).
  { unfold StdMap.size. f_equal.
    rewrite <- (length_fmap fst (to_nodes n)), <- (length_fmap fst (to_routers n)).
    unfold tables_agree, StdMap.keys in Ha. by rewrite Ha. }
  split; [done|]. split; [done|].
  unfold readFile, netlist_checks. rewrite H. simpl.
  rewrite Hsz, Z.eqb_refl. simpl.
  destruct (bool_decide _) eqn:Hb.
  - apply bool_decide_eq_true in Hb. done.
  - apply bool_decide_eq_false in Hb. done.
Qed.

(** ** Lines without a word and lines that are refused *)

Section Lines.
Local Open Scope string_scope.




Lemma parse_line_words line n w ws :
  words line = w :: ws →
  parse_line line n = parse_words (w :: ws) line_start n.
Proof.
  intros H. unfold parse_line.
  destruct (String.eqb line "") eqn:E; [|by rewrite H].
  apply String.eqb_eq in E as ->. done.
Qed.

Lemma type_of_word_other w :
  w ≠ "router" → w ≠ "node" → type_of_word w = Aborted.
Proof.
  intros H1 H2. unfold type_of_word.
  destruct (String.eqb w "router") eqn:E1; [by apply String.eqb_eq in E1|].
  destruct (String.eqb w "node") eqn:E2; [by apply String.eqb_eq in E2|].
  done.
Qed.

(** X19: a line is fatal when it starts with a word other than "router"
    and "node", when such a word stands where the kind of a neighbour is
    expected, and when it connects a node to a node. *)
Theorem malformed_line_fatal (line : string) (n : netlist) :
  (∀ w rest, words line = w :: rest → w ≠ "router" → w ≠ "node" →
     parse_line line n = Aborted)
  ∧ (∀ h id w rest, words line = h :: id :: w :: rest →
       w ≠ "router" → w ≠ "node" → parse_line line n = Aborted)
  ∧ (∀ a b rest, words line = "node" :: a :: "node" :: b :: rest →
       parse_line line n = Aborted).
Proof.
  split; [|split].
  - intros w rest Hw H1 H2. rewrite (parse_line_words _ _ _ _ Hw). simpl.
    unfold on_word. simpl. rewrite type_of_word_other by done. reflexivity.
  - intros h id w rest Hw H1 H2. rewrite (parse_line_words _ _ _ _ Hw).
    cbn [parse_words].
    destruct (on_word h line_start n) as [[v1 n1]| | |] eqn:E1;
      try reflexivity.
    + rewrite mbind_Done.
      assert (Hs1 : state v1 = HEAD_ID).
      { unfold on_word in E1. simpl in E1.
        destruct (type_of_word h); simplify_eq/=. done. }
      assert (E2 : ∃ v2 n2, on_word id v1 n1 = Done (v2, n2)
                            ∧ state v2 = BODY_TYPE).
      { unfold on_word. rewrite Hs1. by eexists _, _. }
      destruct E2 as (v2 & n2 & -> & Hs2). rewrite mbind_Done.
      unfold on_word. rewrite Hs2. unfold on_body_type.
      rewrite type_of_word_other by done. reflexivity.
    + unfold on_word, type_of_word in E1. simpl in E1.
      by repeat destruct (String.eqb _ _).
    + unfold on_word, type_of_word in E1. simpl in E1.
      by repeat destruct (String.eqb _ _).
  - intros a b rest Hw. by rewrite (parse_line_words _ _ _ _ Hw).
Qed.

(** X20: a node that hangs on a router is refused on another one,
    from either end of the line. *)
Theorem node_two_routers_fatal (line : string) (n : netlist)
    (r d : string) (r0 : Z) (rest : list string) :
  StdMap.find (atoi d) (node_list n) = Some r0 →
  r0 ≠ atoi r →
  (words line = "router" :: r :: "node" :: d :: rest →
   parse_line line n = Aborted)
  ∧ (words line = "node" :: d :: "router" :: r :: rest →
     parse_line line n = Aborted).
Proof.
  intros Hd Hne.
  assert (Hc : negb (StdMap.count (atoi d) (node_list n) =? 0)%Z
               && negb (StdMap.at_ 0 (atoi d) (node_list n) =? atoi r)%Z
               = true).
  { unfold StdMap.count, StdMap.at_. rewrite Hd. simpl.
    apply negb_true_iff, Z.eqb_neq. done. }
  split; intros Hw; rewrite (parse_line_words _ _ _ _ Hw);
    cbn -[StdMap.count StdMap.at_ atoi Z.eqb set_link init_router];
    by rewrite Hc.
Qed.
End Lines.

(** ** What [_BuildNet] leaves *)

Lemma number_node_ports_nodes size nodes rt (m : links) : ∀ m',
  number_node_ports size nodes rt m = Done m' →
  Forall (λ e, forallb (in_range nodes) (StdMap.keys (snd e)) = true) m.
Proof.
  induction m as [|[node ns] m IH]; intros m' H; simpl in H; [constructor|].
  destruct (StdMap.find node rt) as [rs|] eqn:Hrs; simpl in H; [|done].
  destruct (in_range size node) eqn:Hrange; simpl in H; [|done].
  destruct (forallb _ _) eqn:Hn; simpl in H; [|done].
  destruct (number_node_ports size nodes rt m) as [m1| | |] eqn:E;
    simpl in H; try done.
  constructor; [done|]. by eapply IH.
Qed.

Lemma readFile_nodes lines n :
  readFile lines = Done n →
  StdMap.keys (node_list n) = seqZ 0 (_nodes n).
Proof.
  unfold readFile. intros H.
  destruct (parse_lines lines empty_netlist) as [n1| | |] eqn:E;
    simpl in H; try done.
  destruct (netlist_checks n1) eqn:Hc; simplify_eq.
  unfold netlist_checks in Hc. apply andb_true_iff in Hc as [_ Hc].
  by apply bool_decide_eq_true in Hc.
Qed.

(** The network [_BuildNet] leaves, link by link. *)
Lemma built_structure lines n0 n :
  readFile lines = Done n0 → _BuildNet n0 = Done n →
  net_sorted n0
  ∧ node_list n = node_list n0
  ∧ to_nodes n = number_all <$> to_nodes n0
  ∧ _size n = _size n0
  ∧ StdMap.keys (to_routers n) = seqZ 0 (_size n)
  ∧ StdMap.keys (to_nodes n0) = seqZ 0 (_size n)
  ∧ StdMap.keys (to_routers n0) = seqZ 0 (_size n)
  ∧ StdMap.keys (node_list n) = seqZ 0 (_nodes n)
  ∧ ∀ u, match StdMap.find u (to_nodes n0) with
         | Some ns =>
             ∃ rs, StdMap.find u (to_routers n0) = Some rs
               ∧ forallb (in_range (_size n)) (StdMap.keys rs) = true
               ∧ forallb (in_range (_nodes n)) (StdMap.keys ns) = true
               ∧ StdMap.at_ [] u (to_routers n)
                 = number_ports (StdMap.size ns) rs
         | None => StdMap.find u (to_routers n0) = None
                   ∧ StdMap.at_ [] u (to_routers n) = []
         end.
Proof.
  intros Hread Hbuild.
  pose proof (readFile_nodes _ _ Hread) as Hnl.
  apply readFile_sorted in Hread as [Hsorted Hsize].
  pose proof Hsorted as [[Hns Hnall] [Hrs Hrall]].
  unfold _BuildNet in Hbuild.
  destruct (number_node_ports _ _ _ _) as [tn| | |] eqn:Etn;
    simpl in Hbuild; try done.
  destruct (number_router_ports _ _ _) as [tr| | |] eqn:Etr;
    simpl in Hbuild; try done.
  simplify_eq.
  pose proof (number_node_ports_nodes _ _ _ _ _ Etn) as Hnodes.
  apply number_node_ports_spec in Etn as [-> Hkeysn].
  apply number_router_ports_spec in Etr as [Hkeys Hfind]; [|done|done].
  unfold _size, _nodes in *. cbn [to_routers to_nodes node_list] in *.
  set (rt := to_routers n0) in *. set (nd := to_nodes n0) in *.
  unfold StdMap.size in Hsize.
  assert (Hlen : length tr = length rt).
  { rewrite <- (length_fmap fst tr), <- (length_fmap fst rt).
    unfold StdMap.keys in Hkeys. by rewrite Hkeys. }
  assert (Hsz : StdMap.size tr = StdMap.size rt)
    by (unfold StdMap.size; by rewrite Hlen).
  assert (HK : StdMap.keys nd = seqZ 0 (StdMap.size rt)).
  { unfold StdMap.size. rewrite <- Hsize.
    rewrite <- (length_fmap fst nd). apply sorted_range_seqZ; [done|].
    rewrite length_fmap.
    eapply Forall_impl; [exact Hkeysn|]. unfold StdMap.size.
    intros k [_ Hk]. simpl. lia. }
  assert (HKr : StdMap.keys rt = StdMap.keys nd).
  { symmetry. apply sorted_included_eq; [done|done| |].
    - intros x Hx. rewrite Forall_forall in Hkeysn.
      destruct (Hkeysn x Hx) as [[rs Hx'] _]. by eapply find_keys.
    - unfold StdMap.keys. rewrite !length_fmap. lia. }
  split; [done|]. split; [done|]. split; [done|]. split; [done|].
  split; [by rewrite Hkeys, HKr, HK, Hsz|].
  split; [by rewrite HK, Hsz|]. split; [by rewrite HKr, HK, Hsz|].
  split; [done|].
  intros u. specialize (Hfind u). unfold StdMap.at_.
  destruct (StdMap.find u nd) as [ns|] eqn:E.
  - destruct Hfind as (rs & Hu & Hcheck & ->). exists rs.
    split; [done|]. split; [by rewrite Hsz|]. split; [|done].
    apply StdMap.find_Some_elem in E. rewrite Forall_forall in Hnodes.
    by apply (Hnodes (u, ns)).
  - assert (Hnone : StdMap.find u rt = None).
    { destruct (StdMap.find u rt) as [rs|] eqn:E'; [|done].
      apply find_keys in E'. rewrite HKr in E'.
      apply StdMap.elem_keys_find in E' as [x E']. congruence. }
    by rewrite Hfind, Hnone.
Qed.

Lemma size_number_ports o (m : StdMap.t link) :
  StdMap.size (number_ports o m) = StdMap.size m.
Proof.
  unfold StdMap.size. f_equal.
  rewrite <- (length_fmap fst (number_ports o m)), <- (length_fmap fst m).
  fold (StdMap.keys (number_ports o m)). by rewrite keys_number_ports.
Qed.

Lemma latency_number_ports (m : StdMap.t link) k : ∀ o,
  snd <$> StdMap.find k (number_ports o m) = snd <$> StdMap.find k m.
Proof.
  induction m as [|[k' [p lat]] m IH]; intros o; [done|].
  simpl. destruct (k =? k'); [done|]. apply IH.
Qed.

(** X22: on every router of a file that is taken the output ports are
    0, 1, 2, ... without a gap: the nodes of the router first, in the order
    of their numbers, the other routers next. *)
Theorem ports_consecutive (lines : list string) (n0 n : netlist) (u : Z) :
  readFile lines = Done n0 → _BuildNet n0 = Done n →
  ports (StdMap.at_ [] u (to_nodes n))
  = seqZ 0 (StdMap.size (StdMap.at_ [] u (to_nodes n)))
  ∧ ports (StdMap.at_ [] u (to_routers n))
    = seqZ (StdMap.size (StdMap.at_ [] u (to_nodes n)))
           (StdMap.size (StdMap.at_ [] u (to_routers n))).
Proof.
  intros Hread Hbuild.
  destruct (built_structure _ _ _ Hread Hbuild)
    as (_ & _ & Hn & _ & _ & _ & _ & _ & Hat).
  specialize (Hat u).
  assert (Hnd : StdMap.at_ [] u (to_nodes n)
                = match StdMap.find u (to_nodes n0) with
                  | Some ns => number_ports 0 ns
                  | None => []
                  end).
  { rewrite Hn. unfold StdMap.at_. rewrite find_number_all.
    by destruct (StdMap.find u (to_nodes n0)). }
  rewrite Hnd. destruct (StdMap.find u (to_nodes n0)) as [ns|].
  - destruct Hat as (rs & _ & _ & _ & ->).
    by rewrite !ports_number_ports, !size_number_ports.
  - destruct Hat as [_ ->]. done.
Qed.

(** X23: [_BuildNet] numbers the ports and changes nothing else: every
    channel keeps its latency, every node its router. *)
Theorem build_keeps_latencies (lines : list string) (n0 n : netlist) :
  readFile lines = Done n0 → _BuildNet n0 = Done n →
  node_list n = node_list n0
  ∧ (∀ a b, router_latency a b n = router_latency a b n0)
  ∧ (∀ r d, node_latency r d n = node_latency r d n0).
Proof.
  intros Hread Hbuild.
  destruct (built_structure _ _ _ Hread Hbuild)
    as (_ & Hnl & Hn & _ & _ & _ & _ & _ & Hat).
  split; [done|]. split.
  - intros a b. unfold router_latency. specialize (Hat a).
    destruct (StdMap.find a (to_nodes n0)) as [ns|].
    + destruct Hat as (rs & Ha & _ & _ & ->).
      rewrite latency_number_ports. unfold StdMap.at_. by rewrite Ha.
    + destruct Hat as [Ha ->]. unfold StdMap.at_. by rewrite Ha.
  - intros r d. unfold node_latency. rewrite Hn. unfold StdMap.at_.
    rewrite find_number_all.
    destruct (StdMap.find r (to_nodes n0)) as [ns|]; simpl; [|done].
    apply latency_number_ports.
Qed.


(** ** Routers that cannot be reached *)

Lemma find_min_Done (dist : gmap Z Z) : ∀ (l : list Z) md mc c,
  find_min dist l md mc = Done c →
  c = mc ∨ (c ∈ l ∧ ∃ dc, dist !! c = Some dc ∧ dc < md).
Proof.
  induction l as [|i l IH]; intros md mc c H; simpl in H.
  - left. by simplify_eq.
  - destruct (dist !! i) as [di|] eqn:Hdi; simpl in H; [|done].
    destruct (di <? md) eqn:Hlt.
    + apply Z.ltb_lt in Hlt. apply IH in H as [-> | (Hc & dc & Hdc & Hlt')].
      * right. split; [by left|]. by exists di.
      * right. split; [by right|]. exists dc. split; [done|lia].
    + apply IH in H as [-> | (Hc & dc & Hdc & Hlt')]; [by left|].
      right. split; [by right|]. by exists dc.
Qed.

Section Unreachable.
Variable rt : links.
Variable r : Z.
Hypothesis Hsorted : ∀ u, StdMap.sorted (StdMap.at_ [] u rt).

Definition reach (v : Z) : Prop := ∃ c, path rt r v c.

(** Every router with a distance below [INT_MAX] can be reached. *)
Definition reached (dist : gmap Z Z) : Prop :=
  ∀ v d, dist !! v = Some d → d < INT_MAX → reach v.

Lemma relax_reached c (nbrs : StdMap.t link) : ∀ dist prev dist' prev',
  relax c nbrs dist prev = Done (dist', prev') →
  (∀ v l, (v, l) ∈ nbrs → edge rt c v (snd l)) →
  reach c ∨ (dist !! c = None ∧ nbrs = []) →
  reached dist →
  reached dist' ∧ ∀ k, dist' !! k = None ↔ dist !! k = None.
Proof.
  induction nbrs as [|[i [p lat]] nbrs IH];
    intros dist prev dist' prev' H Hedges Hc Hr; simpl in H.
  - by simplify_eq.
  - destruct Hc as [Hc | [_ ?]]; [|done].
    destruct (dist !! c) as [d|] eqn:Hd; simpl in H; [|done].
    destruct (int_add d lat) as [nd| | |] eqn:Hadd; simpl in H; try done.
    destruct (dist !! i) as [di|] eqn:Hdi; simpl in H; [|done].
    assert (Hedges' : ∀ v l, (v, l) ∈ nbrs → edge rt c v (snd l))
      by (intros v l Hv; apply Hedges; by right).
    destruct (nd <? di) eqn:Hlt.
    + apply IH in H as [Hr' Hdom]; [|done|by left|].
      * split; [done|]. intros k. rewrite Hdom.
        destruct (decide (k = i)) as [->|Hne].
        -- rewrite lookup_insert_eq, Hdi. done.
        -- by rewrite lookup_insert_ne.
      * intros v dv Hv Hlt'. destruct (decide (v = i)) as [->|Hne].
        -- destruct Hc as [cc Hpath].
           pose proof (Hedges i (p, lat) ltac:(by left)) as He. simpl in He.
           exists (cc + lat). by eapply path_snoc.
        -- rewrite lookup_insert_ne in Hv by done. by eapply Hr.
    + apply IH in H as [Hr' Hdom]; [done|done|by left|done].
Qed.

Lemma dijkstra_unreachable x fuel : ∀ dist prev U res,
  0 ≤ x → ¬ reach x → x ∈ U → reached dist → dist !! (-1) = None →
  dijkstra fuel rt dist prev U ≠ Done res.
Proof.
  induction fuel as [|fuel IH]; intros dist prev U res Hx Hnr HxU Hr Hm1 H;
    [done|].
  simpl in H. destruct U as [|u0 U0] eqn:EU; [by apply elem_of_nil in HxU|].
  rewrite <- EU in *. clear EU u0 U0.
  destruct (find_min dist U INT_MAX (-1)) as [c| | |] eqn:Hmin;
    simpl in H; try done.
  destruct (relax c (StdMap.at_ [] c rt) dist prev) as [[dist' prev']| | |]
    eqn:Hrelax; simpl in H; try done.
  assert (Hedges : ∀ v l, (v, l) ∈ StdMap.at_ [] c rt → edge rt c v (snd l)).
  { intros v [p w] Hin. exists p. simpl.
    by apply StdMap.elem_find; [apply Hsorted|]. }
  apply find_min_Done in Hmin as [-> | (Hc & dc & Hdc & Hlt)].
  - assert (Hnil : StdMap.at_ [] (-1) rt = []).
    { destruct (StdMap.at_ [] (-1) rt) as [|[i [p lat]] l] eqn:E; [done|].
      simpl in Hrelax. by rewrite Hm1 in Hrelax. }
    rewrite Hnil in Hrelax. simpl in Hrelax. simplify_eq.
    eapply (IH dist' prev'); [done|done| |done|done|exact H].
    apply elem_of_erase. split; [done|lia].
  - destruct (relax_reached _ _ _ _ _ _ Hrelax Hedges) as [Hr' Hdom];
      [left; by eapply Hr|done|].
    eapply (IH dist' prev'); [done|done| |done|by apply Hdom|exact H].
    apply elem_of_erase. split; [done|].
    intros ->. apply Hnr. by eapply Hr.
Qed.
End Unreachable.

Lemma route_all_Done fuel n : ∀ routers table i,
  route_all fuel n routers = Done table → i ∈ routers →
  ∃ row, route fuel n i = Done row.
Proof.
  induction routers as [|j routers IH]; intros table i H Hi;
    [by apply elem_of_nil in Hi|].
  simpl in H. destruct (route fuel n j) as [row| | |] eqn:E; simpl in H;
    try done.
  destruct (route_all fuel n routers) as [rows| | |] eqn:E'; simpl in H;
    try done.
  apply elem_of_cons in Hi as [-> | Hi]; [by eexists|]. by eapply IH.
Qed.

(** X25: when a router of a file that is taken cannot be reached from
    router r over the channels of the file, [route(r)] does not return,
    whatever the number of turns it is given, and no routing table is
    built. *)
Theorem unreachable_never_routed (lines : list string) (n0 n : netlist)
    (r x : Z) :
  readFile lines = Done n0 → _BuildNet n0 = Done n →
  0 ≤ x < _size n → (∀ c, ¬ path (to_routers n) r x c) →
  ∀ fuel, (∀ row, route fuel n r ≠ Done row)
          ∧ (0 ≤ r < _size n → ∀ built, build fuel lines ≠ Done built).
Proof.
  intros Hread Hbuild Hx Hno fuel.
  destruct (built_structure _ _ _ Hread Hbuild)
    as ([_ [_ Hrall]] & _ & _ & _ & _ & _ & _ & _ & Hat).
  assert (Hsorted : ∀ u, StdMap.sorted (StdMap.at_ [] u (to_routers n))).
  { intros u. specialize (Hat u).
    destruct (StdMap.find u (to_nodes n0)) as [ns|].
    - destruct Hat as (rs & Hu & _ & _ & ->). apply number_ports_sorted.
      apply StdMap.find_Some_elem in Hu. rewrite Forall_forall in Hrall.
      by apply (Hrall (u, rs)).
    - destruct Hat as [_ ->]. apply sorted_nil. }
  assert (Hroute : ∀ row, route fuel n r ≠ Done row).
  { intros row H. unfold route in H.
    destruct (array_set (new_array (_size n) INT_MAX) r 0) as [dist| | |]
      eqn:Hset; simpl in H; try done.
    destruct (dijkstra fuel (to_routers n) dist (new_array (_size n) (-1))
                (seqZ 0 (_size n))) as [[dist' prev']| | |] eqn:Hd;
      simpl in H; try done.
    unfold array_set in Hset.
    destruct (new_array (_size n) INT_MAX !! r) as [d0|] eqn:Hr0;
      simpl in Hset; [|done].
    simplify_eq.
    assert (Hrr : in_range (_size n) r = true).
    { rewrite new_array_lookup in Hr0. by destruct (in_range _ r). }
    unfold in_range in Hrr.
    apply andb_true_iff in Hrr as [Hr1%Z.leb_le Hr2%Z.ltb_lt].
    eapply (dijkstra_unreachable (to_routers n) r Hsorted x); [| | | | |exact Hd].
    - lia.
    - intros [c Hc]. by eapply Hno.
    - apply elem_of_seqZ. lia.
    - intros v d Hv Hlt. destruct (decide (v = r)) as [->|Hne].
      + exists 0. constructor.
      + rewrite lookup_insert_ne in Hv by done.
        rewrite new_array_lookup in Hv.
        destruct (in_range _ v); [|done].
        injection Hv as <-. lia.
    - rewrite lookup_insert_ne by lia. by rewrite new_array_lookup. }
  split; [done|]. intros Hr [n' table] H. unfold build in H.
  rewrite Hread, mbind_Done, Hbuild, mbind_Done in H.
  destruct (buildRoutingTable fuel n) as [t| | |] eqn:E; simpl in H;
    try done.
  unfold buildRoutingTable in E.
  destruct (route_all_Done fuel n _ _ r E) as [row Hrow];
    [apply elem_of_seqZ; lia|].
  by eapply Hroute.
Qed.

(** ** A port for every node *)

(** Every node of [node_list] is among the links of its router. *)
Definition nodes_attached (nl : StdMap.t Z) (m : links) : Prop :=
  ∀ d r, StdMap.find d nl = Some r →
         is_Some (StdMap.find d (StdMap.at_ [] r m)).

Lemma set_link_attached a b v (m : links) d r :
  is_Some (StdMap.find d (StdMap.at_ [] r m)) →
  is_Some (StdMap.find d (StdMap.at_ [] r (set_link a b v m))).
Proof.
  intros H. unfold set_link. destruct (decide (a = r)) as [->|Hne].
  - rewrite at_insert_eq. destruct (decide (b = d)) as [->|Hne].
    + rewrite StdMap.find_insert_eq. by eexists.
    + by rewrite StdMap.find_insert_ne.
  - by rewrite at_insert_ne.
Qed.

Lemma set_latency_attached a b w (m : links) d r :
  is_Some (StdMap.find d (StdMap.at_ [] r m)) →
  is_Some (StdMap.find d (StdMap.at_ [] r (set_latency a b w m))).
Proof.
  intros H. unfold set_latency. destruct (decide (a = r)) as [->|Hne].
  - rewrite at_insert_eq. destruct (decide (b = d)) as [->|Hne].
    + rewrite StdMap.find_insert_eq. by eexists.
    + by rewrite StdMap.find_insert_ne.
  - by rewrite at_insert_ne.
Qed.

Lemma attach_node d r v nl (m : links) :
  nodes_attached nl m →
  nodes_attached (StdMap.insert d r nl) (set_link r d v m).
Proof.
  intros H d' r' Hd'. destruct (decide (d = d')) as [->|Hne].
  - rewrite StdMap.find_insert_eq in Hd'. injection Hd' as <-.
    unfold set_link. rewrite at_insert_eq, StdMap.find_insert_eq. by eexists.
  - rewrite StdMap.find_insert_ne in Hd' by done.
    by apply set_link_attached, H.
Qed.

Lemma on_word_attached temp v n v' n' :
  on_word temp v n = Done (v', n') →
  nodes_attached (node_list n) (to_nodes n) →
  nodes_attached (node_list n') (to_nodes n').
Proof.
  assert (Hinit : ∀ id n, nodes_attached (node_list n) (to_nodes n) →
    nodes_attached (node_list (init_router_structures id n))
                   (to_nodes (init_router_structures id n))).
  { intros id m H d r Hd. simpl. rewrite at_init_router. by apply H. }
  unfold on_word. intros H Hn. destruct (state v).
  - destruct (type_of_word temp); simplify_eq/=. done.
  - simplify_eq/=. by apply Hinit.
  - by apply on_body_type_net in H as ->.
  - unfold on_body_id in H.
    set (n1 := match body_type v with
               | ROUTER => init_router_structures (atoi temp) n
               | _ => n end) in *.
    assert (Hn1 : nodes_attached (node_list n1) (to_nodes n1)).
    { unfold n1. destruct (body_type v); try done. by apply Hinit. }
    clearbody n1.
    destruct (head_type v), (body_type v); simplify_eq/=; try done.
    + destruct (_ && _); simplify_eq/=. by apply attach_node.
    + destruct (_ && _); simplify_eq/=. by apply attach_node.
  - destruct (_ || _); [by apply on_body_type_net in H as ->|].
    destruct (head_type v); simplify_eq/=; [|done].
    intros d r Hd. by apply set_latency_attached, Hn.
Qed.

Lemma parse_lines_attached lines : ∀ n n',
  parse_lines lines n = Done n' →
  nodes_attached (node_list n) (to_nodes n) →
  nodes_attached (node_list n') (to_nodes n').
Proof.
  assert (Hw : ∀ ws v n n', parse_words ws v n = Done n' →
    nodes_attached (node_list n) (to_nodes n) →
    nodes_attached (node_list n') (to_nodes n')).
  { induction ws as [|temp ws IH]; intros v n n' H Hn; simpl in H.
    - by simplify_eq.
    - destruct (on_word temp v n) as [[v1 n1]| | |] eqn:E; simpl in H;
        try done.
      eapply IH; [done|]. by eapply on_word_attached. }
  induction lines as [|line lines IH]; intros n n' H Hn; simpl in H.
  - by simplify_eq.
  - destruct (parse_line line n) as [n1| | |] eqn:E; simpl in H; try done.
    eapply IH; [done|]. unfold parse_line in E.
    destruct (String.eqb line ""); [by simplify_eq|]. by eapply Hw.
Qed.

(** X26: with the channels in order, the table has a port for every router
    and every node of the file: the assertion of [min_anynet] cannot fail
    on a flit for a node of the file. *)
Theorem table_total (lines : list string) (n0 n : netlist) :
  readFile lines = Done n0 → _BuildNet n0 = Done n → channels_ok n →
  ∃ fuel0 : nat, ∀ fuel, (fuel0 ≤ fuel)%nat →
    ∃ table, build fuel lines = Done (n, table)
      ∧ length table = Z.to_nat (_size n)
      ∧ ∀ r d, 0 ≤ r < _size n → 0 ≤ d < _nodes n →
               ∃ q, min_anynet table r d false = Done q.
Proof.
  intros Hread Hbuild Hch.
  pose proof (built_topology_ok lines n0 n Hread Hbuild Hch) as Hok.
  destruct (built_structure _ _ _ Hread Hbuild)
    as (_ & Hnl & Hn & _ & _ & Hkn & _ & Hknl & _).
  assert (Hatt : nodes_attached (node_list n0) (to_nodes n0)).
  { unfold readFile in Hread.
    destruct (parse_lines lines empty_netlist) as [n1| | |] eqn:E;
      simpl in Hread; try done.
    destruct (netlist_checks n1); simplify_eq.
    eapply parse_lines_attached; [done|]. by intros d r Hd. }
  exists (S (Z.to_nat INT_MAX + Z.to_nat (_size n))).
  intros fuel Hfuel.
  destruct (buildRoutingTable_spec n fuel Hok) as (table & Htable & Htok);
    [lia|].
  exists table. split.
  { unfold build. by rewrite Hread, mbind_Done, Hbuild, mbind_Done, Htable. }
  split.
  { unfold buildRoutingTable in Htable. clear -Htable.
    assert (H : ∀ l t, route_all fuel n l = Done t → length t = length l).
    { induction l as [|i l IH]; intros t H; simpl in H; [by simplify_eq|].
      destruct (route fuel n i); simpl in H; try done.
      destruct (route_all fuel n l) eqn:E; simpl in H; try done.
      simplify_eq. simpl. f_equal. by apply IH. }
    rewrite (H _ _ Htable). by rewrite length_seqZ. }
  intros r d Hr Hd.
  assert (Hdn : d ∈ StdMap.keys (node_list n))
    by (rewrite Hknl; apply elem_of_seqZ; lia).
  apply StdMap.elem_keys_find in Hdn as [i Hi]. rewrite Hnl in Hi.
  destruct (Hatt d i Hi) as [[p lat] Hpl].
  assert (Hirange : 0 ≤ i < _size n).
  { unfold StdMap.at_ in Hpl.
    destruct (StdMap.find i (to_nodes n0)) as [ns|] eqn:E; [|done].
    apply find_keys in E. rewrite Hkn in E. apply elem_of_seqZ in E. lia. }
  assert (Hpl' : ∃ p', StdMap.find d (StdMap.at_ [] i (to_nodes n))
                       = Some (p', lat)).
  { rewrite Hn. unfold StdMap.at_ in *. rewrite find_number_all.
    destruct (StdMap.find i (to_nodes n0)) as [ns|]; [|done].
    simpl in Hpl |- *.
    pose proof (latency_number_ports ns d 0) as Hl. rewrite Hpl in Hl.
    destruct (StdMap.find d (number_ports 0 ns)) as [[p' lat']|]; [|done].
    simpl in Hl. injection Hl as ->. by exists p'. }
  destruct Hpl' as [p' Hp'].
  destruct (Htok r Hr) as (row & Hrow & Hrow_ok).
  destruct (Hrow_ok i d p' lat Hirange Hp') as (q & Hq & _).
  exists q. unfold min_anynet.
  replace (0 <=? r) with true by (symmetry; apply Z.leb_le; lia).
  simpl. rewrite Hrow. simpl. by rewrite Hq.
Qed.

(** ** The properties above at the line of three routers and at the two
    islands *)

Definition islands_parsed : netlist :=
  {| node_list := [(0, 0); (1, 1)];
     to_nodes := [(0, [(0, (-1, 1))]); (1, [(1, (-1, 1))])];
     to_routers := [(0, []); (1, [])] |}.

Lemma line3_read : readFile line3 = Done line3_parsed.
Proof. vm_compute. reflexivity. Qed.

Lemma line3_built : _BuildNet line3_parsed = Done line3_net.
Proof. vm_compute. reflexivity. Qed.

Lemma tables_same_routers_witness :
  StdMap.keys (to_nodes line3_parsed) = StdMap.keys (to_routers line3_parsed)
  ∧ StdMap.size (to_nodes line3_parsed) = 3.
Proof.
  destruct (tables_same_routers line3 line3_parsed) as (H1 & H2 & _).
  - vm_compute. reflexivity.
  - split; [exact H1|exact H2].
Defined.

Lemma malformed_line_fatal_witness :
  parse_line "switch 0 node 1" line3_parsed = Aborted
  ∧ parse_line "router 0 hub 1" line3_parsed = Aborted
  ∧ parse_line "node 5 node 6" line3_parsed = Aborted.
Proof.
  split; [|split].
  - eapply (proj1 (malformed_line_fatal "switch 0 node 1" line3_parsed));
      [reflexivity|discriminate|discriminate].
  - eapply (proj1 (proj2 (malformed_line_fatal "router 0 hub 1" line3_parsed)));
      [reflexivity|discriminate|discriminate].
  - eapply (proj2 (proj2 (malformed_line_fatal "node 5 node 6" line3_parsed))).
    reflexivity.
Defined.

Lemma node_two_routers_fatal_witness :
  parse_line "router 2 node 0" line3_parsed = Aborted
  ∧ parse_line "node 0 router 2" line3_parsed = Aborted.
Proof.
  destruct (node_two_routers_fatal "router 2 node 0" line3_parsed "2" "0" 0 [])
    as [H1 _]; [reflexivity|discriminate|].
  destruct (node_two_routers_fatal "node 0 router 2" line3_parsed "2" "0" 0 [])
    as [_ H2]; [reflexivity|discriminate|].
  split; [exact (H1 eq_refl)|exact (H2 eq_refl)].
Defined.

Lemma declare_router_link_witness :
  ∃ n', parse_line "router 0 router 1 3" empty_netlist = Done n'
        ∧ router_latency 0 1 n' = Some 3
        ∧ router_latency 1 0 n' = Some 1.
Proof.
  destruct (declare_router_link
              {| state := BODY_TYPE; head_id := 0; head_type := ROUTER;
                 body_type := UNKNOWN; body_id := -1; link_weight := 1 |}
              (init_router_structures 0 empty_netlist) "1" "3")
    as (v' & n' & H & H1 & H2);
    [reflexivity|by left|reflexivity|reflexivity|discriminate|].
  exists n'. split; [|split; [exact H1|exact H2]].
  vm_compute in H. injection H as _ <-. reflexivity.
Defined.

Lemma ports_consecutive_witness :
  ports (StdMap.at_ [] 1 (to_nodes line3_net)) = [0]
  ∧ ports (StdMap.at_ [] 1 (to_routers line3_net)) = [1; 2].
Proof.
  exact (ports_consecutive line3 line3_parsed line3_net 1
           line3_read line3_built).
Defined.

Lemma build_keeps_latencies_witness :
  router_latency 0 1 line3_net = Some 5
  ∧ router_latency 1 0 line3_net = Some 1
  ∧ node_latency 2 2 line3_net = Some 1.
Proof.
  destruct (build_keeps_latencies line3 line3_parsed line3_net
              line3_read line3_built) as (_ & Hr & Hn).
  split; [by rewrite Hr|]. split; [by rewrite Hr|by rewrite Hn].
Defined.


Lemma unreachable_never_routed_witness :
  readFile islands = Done islands_parsed
  ∧ _BuildNet islands_parsed = Done islands_net
  ∧ ∀ fuel built, build fuel islands ≠ Done built.
Proof.
  assert (Hread : readFile islands = Done islands_parsed)
    by (vm_compute; reflexivity).
  assert (Hbuild : _BuildNet islands_parsed = Done islands_net)
    by (vm_compute; reflexivity).
  split; [exact Hread|]. split; [exact Hbuild|].
  intros fuel.
  refine (proj2 (unreachable_never_routed islands islands_parsed islands_net
                   0 1 Hread Hbuild _ _ fuel) _).
  - vm_compute. split; [discriminate|reflexivity].
  - intros c Hp. inversion Hp as [|u v x w c' [p He] Hp']; subst.
    vm_compute in He. discriminate.
  - vm_compute. split; [discriminate|reflexivity].
Defined.

Lemma table_total_witness :
  ∃ fuel0 : nat, ∀ fuel, (fuel0 ≤ fuel)%nat →
    ∃ table, build fuel line3 = Done (line3_net, table)
      ∧ length table = 3%nat
      ∧ ∃ q, min_anynet table 2 0 false = Done q.
Proof.
  assert (H2 : 0 ≤ 2 < _size line3_net)
    by (vm_compute; split; [discriminate|reflexivity]).
  assert (H0 : 0 ≤ 0 < _nodes line3_net)
    by (vm_compute; split; [discriminate|reflexivity]).
  destruct (table_total line3 line3_parsed line3_net line3_read line3_built
              line3_channels) as [fuel0 H].
  exists fuel0. intros fuel Hfuel.
  destruct (H fuel Hfuel) as (table & Hb & Hl & Hq).
  exists table. split; [exact Hb|]. split; [exact Hl|].
  exact (Hq 2 0 H2 H0).
Defined.

End AnyNet.
